(** * GapSignal: indicator engine, signal detector, expiring cache

    A shallow embedding of the core of the GapSignal repository
    ([app/core/indicators.py], [app/core/signal_detector.py],
    [app/api/data_fetcher.py], [app/core/data_processor.py]) together with
    the properties its specification states about it.

    Conventions of the embedding.
    - In the indicator engine, the cache and the processor, Python floats
      are idealised as exact rationals ([Q]): no rounding, no NaN, no
      infinities.  Comparisons of floats ([==], [<], [<=]) become the
      boolean tests [Qeq_bool], [Qlt_bool], [Qle_bool], so that every
      function computes.  Results are compared with [==] ([Qeq]).
    - There, a kline row [[open_time, open, high, low, close, volume, ...]]
      is a record whose numeric fields are already parsed ([float(k[i])]
      is the field projection): the statements about these functions are
      about rows whose cells are numbers.
    - The signal detector is embedded twice.  [SignalDetector] is the
      detector on parsed candles in exact arithmetic, for the shape of the
      confidence curve and the labels.  [RowDetector] is the detector as
      the interpreter runs it: rows are lists of cells read with
      [float(k[i])], which can raise, and the arithmetic is that of
      binary64 floats (the kernel's [float]), so that a comparison with
      the threshold is decided on the rounded value, as in the code.
    - Exceptions are values of the type [exn]; a function that can raise
      returns [res A].
    - [time.time()] is an explicit argument [now].
    - Python dicts are [gmap]s; counts and lengths are [nat].
    - Where numpy answers NaN instead of raising (a sum divided by a zero
      period, the mean of an empty window), the rational model has no value
      to give; the statements about those functions take the period to be
      at least 1, or the series to be non-empty. *)

From Stdlib Require Import QArith Qabs Qminmax Qround Lqa Lia Floats.
From stdpp Require Import gmap strings list fin_maps sorting pretty.

(** ** Numbers *)

Module Num.

Local Open Scope Q_scope.

Definition Qlt_bool (x y : Q) : bool := negb (Qle_bool y x).

(** [sum(xs)] *)
Definition Qsum (xs : list Q) : Q := foldr Qplus 0 xs.

(** A [nat] used as a float, as in [total / period]. *)
Definition Qnat (n : nat) : Q := inject_Z (Z.of_nat n).

(** [np.mean(xs)] *)
Definition mean (xs : list Q) : Q := Qsum xs / Qnat (length xs).

(** [xs[-n:]] for [n <= len(xs)]: Python reads [-0] as [0], so [xs[-0:]]
    is the whole list. *)
Definition last_n {A} (n : nat) (xs : list A) : list A :=
  match n with
  | O => xs
  | S _ => drop (length xs - n) xs
  end.

(** Shapes of a sequence of numbers: each element compared with the
    next one. *)
Definition adjacent (R : Q -> Q -> Prop) (values : list Q) : Prop :=
  forall i x y, values !! i = Some x -> values !! S i = Some y -> R x y.

Definition non_decreasing (values : list Q) : Prop := adjacent Qle values.

Definition strictly_increasing (values : list Q) : Prop := adjacent Qlt values.

Definition strictly_decreasing (values : list Q) : Prop :=
  adjacent (fun x y => y < x) values.

End Num.

(** ** Exceptions *)

Inductive exn : Set :=
| ZeroDivisionError   (* a Python float divided by zero *)
| IndexError          (* a list indexed out of range *)
| ValueError          (* pandas refuses [ewm(span=0)]; [float] refuses a string *)
| TypeError.          (* [float] of a value that is neither a number nor a string *)

Inductive res (A : Type) : Type :=
| Ok (a : A)
| Raise (e : exn).
Arguments Ok {A} a.
Arguments Raise {A} e.

Definition bind {A B} (m : res A) (f : A -> res B) : res B :=
  match m with
  | Ok a => f a
  | Raise e => Raise e
  end.

Notation "'let*' x ':=' m 'in' k" := (bind m (fun x => k))
  (at level 10, x name, m at level 200, k at level 200,
   format "'[v' 'let*'  x  ':='  m  'in' '/' k ']'").

(** [xs[i]] and [xs[-1]] *)
Definition index {A} (xs : list A) (i : nat) : res A :=
  match xs !! i with
  | Some x => Ok x
  | None => Raise IndexError
  end.

Definition index_last {A} (xs : list A) : res A :=
  match last xs with
  | Some x => Ok x
  | None => Raise IndexError
  end.

(** [x / y] on Python floats *)
Definition fdiv (x y : Q) : res Q :=
  if Qeq_bool y 0 then Raise ZeroDivisionError else Ok (x / y)%Q.

(** [str(e)] for the exceptions above *)
Definition exn_message (e : exn) : string :=
  match e with
  | ZeroDivisionError => "float division by zero"
  | IndexError => "list index out of range"
  | ValueError => "span must satisfy: span >= 1"
  | TypeError => "float() argument must be a string or a real number"
  end.

(** ** Indicator engine ([app/core/indicators.py]) *)

Module Indicators.
Import Num.
Local Open Scope Q_scope.

(** [pd.Series(prices).ewm(span=period, adjust=False).mean()]: the
    recursion [y0 = x0], [y_t = (1 - a) * y_(t-1) + a * x_t] with
    [a = 2 / (span + 1)]. *)
Fixpoint ewm_from (alpha prev : Q) (xs : list Q) : list Q :=
  match xs with
  | [] => []
  | x :: xs' =>
      let y := (1 - alpha) * prev + alpha * x in
      y :: ewm_from alpha y xs'
  end.

Definition ewm_mean (span : nat) (xs : list Q) : list Q :=
  match xs with
  | [] => []
  | x :: xs' => x :: ewm_from (2 / (Qnat span + 1)) x xs'
  end.

(** [None] stands for [np.nan]. *)
Definition calculate_ema (prices : list Q) (period : nat) : res (list (option Q)) :=
  if (length prices <? period)%nat then Ok (replicate (length prices) None)
  else if (period <? 1)%nat then Raise ValueError
  else Ok (Some <$> ewm_mean period prices).

Definition calculate_multiple_emas (ema_periods : list nat) (prices : list Q)
  : res (gmap nat (list (option Q))) :=
  foldl (fun results period =>
           let* rs := results in
           let* e := calculate_ema prices period in
           Ok (<[period := e]> rs))
        (Ok ∅) ema_periods.

Definition calculate_ema_differences (current_price : Q) (ema_values : gmap nat Q)
  : gmap nat Q :=
  (fun ema_value =>
     if negb (Qeq_bool ema_value 0)
     then ((current_price - ema_value) / ema_value) * 100
     else 0) <$> ema_values.

Definition calculate_latest_emas (ema_periods : list nat) (prices : list Q)
  : res (gmap nat Q) :=
  let* all_emas := calculate_multiple_emas ema_periods prices in
  Ok ((fun ema_values =>
           let valid_values := omap id ema_values in
           match last valid_values with
           | Some v => v
           | None => 0
           end) <$> all_emas).

(** [np.diff(prices)] *)
Fixpoint diff (prices : list Q) : list Q :=
  match prices with
  | x :: (y :: _) as rest => (y - x) :: diff rest
  | _ => []
  end.

(** [100.0 - (100.0 / (1.0 + up / down))] *)
Definition rsi_value (up down : Q) : Q := 100 - 100 / (1 + up / down).

(** The loop [for i in range(period, len(deltas))] of [calculate_rsi],
    started on [deltas[period:]]. *)
Fixpoint rsi_loop (period : nat) (up down rsi : Q) (deltas : list Q) : Q :=
  match deltas with
  | [] => rsi
  | delta :: rest =>
      let up_val := if Qlt_bool 0 delta then delta else 0 in
      let down_val := if Qlt_bool 0 delta then 0 else - delta in
      let up := (up * (Qnat period - 1) + up_val) / Qnat period in
      let down := (down * (Qnat period - 1) + down_val) / Qnat period in
      let rsi := if Qeq_bool down 0 then 100 else rsi_value up down in
      rsi_loop period up down rsi rest
  end.

Definition seed_up (period : nat) (seed : list Q) : Q :=
  Qsum (List.filter (fun d => Qle_bool 0 d) seed) / Qnat period.

Definition seed_down (period : nat) (seed : list Q) : Q :=
  - Qsum (List.filter (fun d => Qlt_bool d 0) seed) / Qnat period.

Definition calculate_rsi (prices : list Q) (period : nat) : Q :=
  if (length prices <? period + 1)%nat then 50
  else
    let deltas := diff prices in
    let seed := take period deltas in
    let up := seed_up period seed in
    let down := seed_down period seed in
    if Qeq_bool down 0 then 100
    else
      let rsi := rsi_value up down in
      rsi_loop period up down rsi (drop period deltas).

(** Wilder's RSI as the specification words it: seed from the first
    [period] deltas, then roll forward over all the remaining deltas, with
    the value 100 at any step whose average loss is zero; the result is
    the value of the final step. *)
Definition rsi_wilder (prices : list Q) (period : nat) : Q :=
  if (length prices <? period + 1)%nat then 50
  else
    let deltas := diff prices in
    let seed := take period deltas in
    let up := seed_up period seed in
    let down := seed_down period seed in
    let rsi := if Qeq_bool down 0 then 100 else rsi_value up down in
    rsi_loop period up down rsi (drop period deltas).

(** [calculate_atr]: the true ranges start at index 1. *)
Definition true_range (high low close : list Q) (i : nat) : res Q :=
  let* h := index high i in
  let* l := index low i in
  let* c := index close (i - 1) in
  let hl := h - l in
  let hc := Qabs (h - c) in
  let lc := Qabs (l - c) in
  Ok (Qmax (Qmax hl hc) lc).

Fixpoint true_ranges (high low close : list Q) (idx : list nat) : res (list Q) :=
  match idx with
  | [] => Ok []
  | i :: rest =>
      let* tr := true_range high low close i in
      let* trs := true_ranges high low close rest in
      Ok (tr :: trs)
  end.

Definition wilder_step (period : nat) (avg x : Q) : Q :=
  (avg * (Qnat period - 1) + x) / Qnat period.

Definition calculate_atr (high low close : list Q) (period : nat) : res Q :=
  if ((length high <? period) || (length low <? period)
      || (length close <? period))%nat
  then Ok 0
  else
    let* tr_list := true_ranges high low close (seq 1 (length high - 1)) in
    let atr := mean (take period tr_list) in
    Ok (foldl (wilder_step period) atr (drop period tr_list)).

Record bollinger_bands := {
  upper : Q;
  middle : Q;
  lower : Q
}.

Section Bollinger.
(** [np.std] takes a floating-point square root, which is not a
    rational function; the bands are stated for any square root
    function [sqrt]. *)
Variable sqrt : Q -> Q.

(** [np.std(xs)]: the population standard deviation. *)
Definition variance (xs : list Q) : Q :=
  let m := mean xs in
  mean ((fun x => (x - m) * (x - m)) <$> xs).

Definition std (xs : list Q) : Q := sqrt (variance xs).

Definition calculate_bollinger_bands (prices : list Q) (period : nat) (std_dev : Q)
  : bollinger_bands :=
  if (length prices <? period)%nat
  then {| upper := 0; middle := 0; lower := 0 |}
  else
    let sma := mean (last_n period prices) in
    let std := std (last_n period prices) in
    {| upper := sma + std_dev * std;
       middle := sma;
       lower := sma - std_dev * std |}.
End Bollinger.

(** A computable square root: the floor of the root to six decimal
    places (exact on squares of such numbers). *)
Definition sqrt_floor (x : Q) : Q :=
  Z.sqrt (Qfloor (x * 1000000000000)) # 1000000.

Record macd_result := {
  macd : Q;
  signal : option Q;      (* [None] is [np.nan] *)
  histogram : Q
}.

Definition macd_zero : macd_result :=
  {| macd := 0; signal := Some 0; histogram := 0 |}.

(** [[fast_ema[i] - slow_ema[i] for i in range(len(prices)) if both defined]]:
    both lists have the length of [prices]. *)
Definition macd_prices (fast_ema slow_ema : list (option Q)) : list Q :=
  omap (fun p => match p with
                 | (Some f, Some s) => Some (f - s)
                 | _ => None
                 end) (zip fast_ema slow_ema).

Definition calculate_macd (prices : list Q) (fast_period slow_period signal_period : nat)
  : res macd_result :=
  if (length prices <? slow_period + signal_period)%nat then Ok macd_zero
  else
    let* fast_ema := calculate_ema prices fast_period in
    let* slow_ema := calculate_ema prices slow_period in
    let* fast_val := index_last fast_ema in
    let* slow_val := index_last slow_ema in
    match fast_val, slow_val with
    | Some fast_val, Some slow_val =>
        let macd := fast_val - slow_val in
        let macd_prices := macd_prices fast_ema slow_ema in
        let* signal :=
          match macd_prices with
          | [] => Ok (Some 0)
          | _ => let* e := calculate_ema macd_prices signal_period in index_last e
          end in
        let histogram :=
          match signal with
          | Some s => macd - s
          | None => 0
          end in
        Ok {| macd := macd; signal := signal; histogram := histogram |}
    | _, _ => Ok macd_zero
    end.

(** The latest EMA of one period as [calculate_latest_emas] leaves it:
    the last value of the series, or 0.0 when the series has no defined
    value. *)
Definition latest_ema (prices : list Q) (period : nat) : Q :=
  if (length prices <? period)%nat then 0
  else match last (ewm_mean period prices) with
       | Some v => v
       | None => 0
       end.

(** The indices a true range reads, [high[i]], [low[i]] and
    [close[i-1]], are all in range. *)
Definition readable (high low close : list Q) (i : nat) : Prop :=
  (i < length high /\ i < length low /\ i - 1 < length close)%nat.

End Indicators.

(** ** Candles *)

(** A kline row; [high], [low] and [close] are [float(k[2])], [float(k[3])]
    and [float(k[4])]. *)
Record kline := {
  open_time : Z;
  open : Q;
  high : Q;
  low : Q;
  close : Q;
  volume : Q
}.

(** A candle given by its low, close and high; it opens at its close and
    has unit volume. *)
Definition candle (l c h : Q) : kline :=
  {| open_time := 0; open := c; high := h; low := l; close := c; volume := 1 |}.

(** Three candles rising by one unit each, closing at 100, 101, 102, and
    the same candles from last to first. *)
Definition rising_candles : list kline :=
  [candle 99 100 101; candle 100 101 102; candle 101 102 103].

Definition falling_candles : list kline :=
  [candle 101 102 103; candle 100 101 102; candle 99 100 101].

(** ** Signal detector ([app/core/signal_detector.py]) *)

Module SignalDetector.
Import Num.
Local Open Scope Q_scope.

Inductive signal_kind : Set := buy | sell | none.

Inductive sequence_kind : Set := increasing | decreasing | mixed.

Inductive position_kind : Set := above | below.

Inductive trend_kind : Set :=
  strong_bullish | bullish | strong_bearish | bearish | neutral.

(** [self.lookback_periods], [self.change_threshold] *)
Record detector := {
  lookback_periods : nat;
  change_threshold : Q
}.

(** The defaults of [__init__]. *)
Definition default_detector : detector :=
  {| lookback_periods := 3; change_threshold := 1 |}.

Record signal_details := {
  low_sequence : sequence_kind;
  close_sequence : sequence_kind;
  high_sequence : sequence_kind;
  details_lookback_periods : nat;
  details_change_threshold : Q
}.

(** [details] is [None] for the empty dict of the early return. *)
Record signal_info := {
  signal : signal_kind;
  confidence : Q;
  cumulative_change : Q;
  details : option signal_details
}.

(** [all(values[i] < values[i+1] for i in range(len(values)-1))] *)
Fixpoint _is_strictly_increasing (values : list Q) : bool :=
  match values with
  | x :: (y :: _) as rest => Qlt_bool x y && _is_strictly_increasing rest
  | _ => true
  end.

Fixpoint _is_strictly_decreasing (values : list Q) : bool :=
  match values with
  | x :: (y :: _) as rest => Qlt_bool y x && _is_strictly_decreasing rest
  | _ => true
  end.

Definition _calculate_confidence (change threshold : Q) : res Q :=
  if Qle_bool change threshold then Ok (1 # 2)
  else
    let excess := Qmin (change - threshold) threshold in
    let* ratio := fdiv excess threshold in
    Ok ((1 # 2) + ratio * (1 # 2)).

Definition sequence_of (inc dec : bool) : sequence_kind :=
  if inc then increasing else if dec then decreasing else mixed.

Definition detect_signal (self : detector) (klines : list kline) : res signal_info :=
  if (length klines <? lookback_periods self)%nat
  then Ok {| signal := none; confidence := 0; cumulative_change := 0;
             details := None |}
  else
    let recent_klines := last_n (lookback_periods self) klines in
    let lows := low <$> recent_klines in
    let closes := close <$> recent_klines in
    let highs := high <$> recent_klines in
    let* start_close := index closes 0 in
    let* end_close := index_last closes in
    let* ratio := fdiv (end_close - start_close) start_close in
    let cumulative_change := ratio * 100 in
    let low_increasing := _is_strictly_increasing lows in
    let low_decreasing := _is_strictly_decreasing lows in
    let close_increasing := _is_strictly_increasing closes in
    let close_decreasing := _is_strictly_decreasing closes in
    let high_increasing := _is_strictly_increasing highs in
    let high_decreasing := _is_strictly_decreasing highs in
    let* sc :=
      if Qlt_bool (change_threshold self) cumulative_change
         && low_increasing && close_increasing && high_increasing
      then
        let* c := _calculate_confidence cumulative_change (change_threshold self) in
        Ok (buy, c)
      else if Qlt_bool cumulative_change (- change_threshold self)
              && low_decreasing && close_decreasing && high_decreasing
      then
        let* c := _calculate_confidence (Qabs cumulative_change)
                                        (change_threshold self) in
        Ok (sell, c)
      else Ok (none, 0) in
    Ok {| signal := sc.1;
          confidence := sc.2;
          cumulative_change := cumulative_change;
          details := Some
            {| low_sequence := sequence_of low_increasing low_decreasing;
               close_sequence := sequence_of close_increasing close_decreasing;
               high_sequence := sequence_of high_increasing high_decreasing;
               details_lookback_periods := lookback_periods self;
               details_change_threshold := change_threshold self |} |}.

(** The trailing window [klines[-lookback_periods:]] and its
    close-to-close change in percent. *)
Definition window (self : detector) (klines : list kline) : list kline :=
  last_n (lookback_periods self) klines.

Definition window_change (w : list kline) : Q :=
  match head w, last w with
  | Some first, Some final => ((close final - close first) / close first) * 100
  | _, _ => 0
  end.

(** The two patterns the detector looks for in a window. *)
Definition buy_pattern (threshold : Q) (w : list kline) : Prop :=
  threshold < window_change w /\
  strictly_increasing (low <$> w) /\
  strictly_increasing (close <$> w) /\
  strictly_increasing (high <$> w).

Definition sell_pattern (threshold : Q) (w : list kline) : Prop :=
  window_change w < - threshold /\
  strictly_decreasing (low <$> w) /\
  strictly_decreasing (close <$> w) /\
  strictly_decreasing (high <$> w).

Record ema_position := {
  value : Q;
  diff_percent : Q;
  position : position_kind
}.

(** [price] is [None] in the early return, which has no ['price'] key. *)
Record trend_info := {
  trend : trend_kind;
  ema_positions : gmap nat ema_position;
  price : option Q
}.

(** [sorted(d.items())] and [sorted(d.keys())] for a dict keyed by
    periods: keys are distinct, so the order is the order of the keys. *)
Definition key_le {A} (a b : nat * A) : Prop := (a.1 <= b.1)%nat.

#[export] Instance key_le_dec {A} (a b : nat * A) : Decision (key_le a b).
Proof. unfold key_le. apply _. Defined.

Definition sorted_items {A} (d : gmap nat A) : list (nat * A) :=
  merge_sort key_le (map_to_list d).

Definition sorted_keys {A} (d : gmap nat A) : list nat :=
  merge_sort Nat.le (fst <$> map_to_list d).

(** The loop over [sorted(ema_values.items())]. *)
Definition position_of (latest_close ema_value : Q) : ema_position :=
  let diff_percent := ((latest_close - ema_value) / ema_value) * 100 in
  {| value := ema_value;
     diff_percent := diff_percent;
     position := if Qlt_bool 0 diff_percent then above else below |}.

Definition build_positions (latest_close : Q) (items : list (nat * Q))
  : gmap nat ema_position :=
  foldl (fun ema_positions item =>
           let '(period, ema_value) := item in
           if Qeq_bool ema_value 0 then ema_positions
           else <[period := position_of latest_close ema_value]> ema_positions)
        ∅ items.

Definition position_eqb (a b : position_kind) : bool :=
  match a, b with
  | above, above | below, below => true
  | _, _ => false
  end.

(** [[(p, ema_positions[p]['value']) for p in periods]]; every [p] is a
    key of [ema_positions]. *)
Definition values_of (ema_positions : gmap nat ema_position) (periods : list nat)
  : list Q :=
  omap (fun p => value <$> ema_positions !! p) periods.

Definition positions_of (ema_positions : gmap nat ema_position) (periods : list nat)
  : list position_kind :=
  omap (fun p => position <$> ema_positions !! p) periods.

Definition analyze_trend (klines : list kline) (ema_values : gmap nat Q)
  : trend_info :=
  match last klines with
  | None => {| trend := neutral; ema_positions := ∅; price := None |}
  | Some k =>
      let latest_close := close k in
      let ema_positions := build_positions latest_close (sorted_items ema_values) in
      let trend :=
        if (2 <=? size ema_positions)%nat then
          let periods := sorted_keys ema_positions in
          let all_above :=
            forallb (fun p => position_eqb p above) (positions_of ema_positions periods) in
          let all_below :=
            forallb (fun p => position_eqb p below) (positions_of ema_positions periods) in
          if all_above then strong_bullish
          else if all_below then strong_bearish
          else
            let ema_values_list := values_of ema_positions periods in
            let bullish_alignment := _is_strictly_decreasing ema_values_list in
            let bearish_alignment := _is_strictly_increasing ema_values_list in
            if bullish_alignment then bullish
            else if bearish_alignment then bearish
            else neutral
        else neutral in
      {| trend := trend; ema_positions := ema_positions; price := Some latest_close |}
  end.

(** The conditions of the trend classification, on the dict of positions:
    every period shows [above] (or [below]); the EMA values fall (or rise)
    as the period grows, each shorter period against every longer one. *)
Definition all_above (positions : gmap nat ema_position) : Prop :=
  forall p e, positions !! p = Some e -> position e = above.

Definition all_below (positions : gmap nat ema_position) : Prop :=
  forall p e, positions !! p = Some e -> position e = below.

Definition values_falling (positions : gmap nat ema_position) : Prop :=
  forall p q ep eq,
    positions !! p = Some ep -> positions !! q = Some eq ->
    (p < q)%nat -> value eq < value ep.

Definition values_rising (positions : gmap nat ema_position) : Prop :=
  forall p q ep eq,
    positions !! p = Some ep -> positions !! q = Some eq ->
    (p < q)%nat -> value ep < value eq.

(** The same conditions on what [analyze_trend] is given, the latest
    close and the dict of EMA values: an EMA counts when its value is not
    zero; the close is above an EMA when the difference in percent,
    [(close - ema) / ema * 100], is positive. *)
Definition counted (ema_values : gmap nat Q) (p : nat) (v : Q) : Prop :=
  ema_values !! p = Some v /\ ~ v == 0.

Definition close_above_all (latest_close : Q) (ema_values : gmap nat Q) : Prop :=
  forall p v, counted ema_values p v -> 0 < ((latest_close - v) / v) * 100.

Definition close_above_none (latest_close : Q) (ema_values : gmap nat Q) : Prop :=
  forall p v, counted ema_values p v -> ((latest_close - v) / v) * 100 <= 0.

Definition emas_falling (ema_values : gmap nat Q) : Prop :=
  forall p q v w,
    counted ema_values p v -> counted ema_values q w -> (p < q)%nat -> w < v.

Definition emas_rising (ema_values : gmap nat Q) : Prop :=
  forall p q v w,
    counted ema_values p v -> counted ema_values q w -> (p < q)%nat -> v < w.

(** [detect_signals_batch]: [symbols_data] is the dict as the list of its
    items, in insertion order. *)
Definition detect_signals_batch (self : detector)
           (symbols_data : list (string * list kline))
  : res (gmap string signal_info) :=
  foldl (fun results item =>
           let* rs := results in
           let* info := detect_signal self item.2 in
           Ok (<[item.1 := info]> rs))
        (Ok ∅) symbols_data.

End SignalDetector.

(** ** Signal detector on binary64 rows ([app/core/signal_detector.py]) *)

(** [detect_signal] once more, as the interpreter runs it.  A row is the
    list the exchange sends; its cells are read with [float(k[i])], which
    raises on a row that is too short or on a cell that is not a number.
    The arithmetic is that of binary64 floats, rounded to nearest even at
    every operation: [float] is the kernel's type of these floats, and
    [x - y], [x / y], [x * y], [x <? y] are the operations of the
    processor, so that a decision at the threshold is the decision the
    code takes. *)
Module RowDetector.
Import Num.
Local Open Scope float_scope.

(** What [float(c)] finds in a cell: a number, or a string that reads as
    one ([Number], with the float it reads as); a string that does not
    read as a number ([Text], [ValueError]); [None] or a container
    ([Null], [TypeError]). *)
Inductive cell := Number (f : float) | Text | Null.

Definition row := list cell.

Definition float_of (c : cell) : res float :=
  match c with
  | Number f => Ok f
  | Text => Raise ValueError
  | Null => Raise TypeError
  end.

(** [float(k[i])] *)
Definition float_at (k : row) (i : nat) : res float :=
  let* c := index k i in
  float_of c.

(** [[float(k[i]) for k in rows]], from the first row on. *)
Fixpoint column (i : nat) (rows : list row) : res (list float) :=
  match rows with
  | [] => Ok []
  | k :: rest =>
      let* x := float_at k i in
      let* xs := column i rest in
      Ok (x :: xs)
  end.

(** A row given by its low, close and high, with the other cells of a
    kline of the exchange. *)
Definition candle_row (l c h : float) : row :=
  [Number 0; Number c; Number h; Number l; Number c; Number 1].

(** [x / y] on floats: Python raises where the processor would answer an
    infinity or a NaN. *)
Definition fdiv (x y : float) : res float :=
  if y =? 0 then Raise ZeroDivisionError else Ok (x / y).

(** [min(x, y)] *)
Definition fmin (x y : float) : float := if y <? x then y else x.

Record detector := {
  lookback_periods : nat;
  change_threshold : float
}.

Definition default_detector : detector :=
  {| lookback_periods := 3; change_threshold := 1 |}.

Record signal_details := {
  low_sequence : SignalDetector.sequence_kind;
  close_sequence : SignalDetector.sequence_kind;
  high_sequence : SignalDetector.sequence_kind;
  details_lookback_periods : nat;
  details_change_threshold : float
}.

Record signal_info := {
  signal : SignalDetector.signal_kind;
  confidence : float;
  cumulative_change : float;
  details : option signal_details
}.

Fixpoint _is_strictly_increasing (values : list float) : bool :=
  match values with
  | x :: (y :: _) as rest => (x <? y) && _is_strictly_increasing rest
  | _ => true
  end.

Fixpoint _is_strictly_decreasing (values : list float) : bool :=
  match values with
  | x :: (y :: _) as rest => (y <? x) && _is_strictly_decreasing rest
  | _ => true
  end.

Definition _calculate_confidence (change threshold : float) : res float :=
  if change <=? threshold then Ok 0.5
  else
    let excess := fmin (change - threshold) threshold in
    let* ratio := fdiv excess threshold in
    Ok (0.5 + ratio * 0.5).

Definition detect_signal (self : detector) (klines : list row) : res signal_info :=
  if (length klines <? lookback_periods self)%nat
  then Ok {| signal := SignalDetector.none; confidence := 0;
             cumulative_change := 0; details := None |}
  else
    let recent_klines := last_n (lookback_periods self) klines in
    let* lows := column 3 recent_klines in
    let* closes := column 4 recent_klines in
    let* highs := column 2 recent_klines in
    let* start_close := index closes 0 in
    let* end_close := index_last closes in
    let* ratio := fdiv (end_close - start_close) start_close in
    let cumulative_change := ratio * 100 in
    let low_increasing := _is_strictly_increasing lows in
    let low_decreasing := _is_strictly_decreasing lows in
    let close_increasing := _is_strictly_increasing closes in
    let close_decreasing := _is_strictly_decreasing closes in
    let high_increasing := _is_strictly_increasing highs in
    let high_decreasing := _is_strictly_decreasing highs in
    let* sc :=
      if (change_threshold self <? cumulative_change)
         && low_increasing && close_increasing && high_increasing
      then
        let* c := _calculate_confidence cumulative_change (change_threshold self) in
        Ok (SignalDetector.buy, c)
      else if (cumulative_change <? - change_threshold self)
              && low_decreasing && close_decreasing && high_decreasing
      then
        let* c := _calculate_confidence (abs cumulative_change)
                                        (change_threshold self) in
        Ok (SignalDetector.sell, c)
      else Ok (SignalDetector.none, 0) in
    Ok {| signal := sc.1;
          confidence := sc.2;
          cumulative_change := cumulative_change;
          details := Some
            {| low_sequence :=
                 SignalDetector.sequence_of low_increasing low_decreasing;
               close_sequence :=
                 SignalDetector.sequence_of close_increasing close_decreasing;
               high_sequence :=
                 SignalDetector.sequence_of high_increasing high_decreasing;
               details_lookback_periods := lookback_periods self;
               details_change_threshold := change_threshold self |} |}.

(** The trailing window [klines[-lookback_periods:]], the change the code
    computes from its closes, and the shapes it tests. *)
Definition window (self : detector) (klines : list row) : list row :=
  last_n (lookback_periods self) klines.

Definition window_change (closes : list float) : float :=
  match head closes, last closes with
  | Some start_close, Some end_close =>
      (end_close - start_close) / start_close * 100
  | _, _ => 0
  end.

Definition strictly_increasing (values : list float) : Prop :=
  forall i x y, values !! i = Some x -> values !! S i = Some y -> (x <? y) = true.

Definition strictly_decreasing (values : list float) : Prop :=
  forall i x y, values !! i = Some x -> values !! S i = Some y -> (y <? x) = true.

(** A row whose low, close and high can all be read. *)
Definition well_formed (k : row) : Prop :=
  exists l c h, float_at k 3 = Ok l /\ float_at k 4 = Ok c /\ float_at k 2 = Ok h.

End RowDetector.

(** ** Expiring cache ([app/api/data_fetcher.py]) *)

Module DataFetcher.
Import Num.
Local Open Scope Q_scope.

Section Cache.
(** The type of the cached values; callers never store [None], which
    [_get_from_cache] uses for a miss. *)
Context {V : Type}.

(** [{'data': data, 'timestamp': time.time()}] *)
Record cache_entry := {
  data : V;
  timestamp : Q
}.

(** The fields of [DataFetcher] the cache uses: [self.cache_duration]
    and [self.cache]. *)
Record fetcher := {
  cache_duration : Q;
  cache : gmap string cache_entry
}.

(** [__init__] *)
Definition init : fetcher :=
  {| cache_duration := 300; cache := ∅ |}.

Definition _is_cache_valid (now : Q) (self : fetcher) (cache_key : string) : bool :=
  match cache self !! cache_key with
  | None => false
  | Some cache_entry =>
      let cache_time := timestamp cache_entry in
      Qlt_bool (now - cache_time) (cache_duration self)
  end.

Definition _get_from_cache (now : Q) (self : fetcher) (cache_key : string)
  : option V :=
  if _is_cache_valid now self cache_key
  then data <$> cache self !! cache_key
  else None.

Definition _set_to_cache (now : Q) (self : fetcher) (cache_key : string) (d : V)
  : fetcher :=
  {| cache_duration := cache_duration self;
     cache := <[cache_key := {| data := d; timestamp := now |}]> (cache self) |}.

(** [clear_cache] returns the new state and the count.  [String.prefix p k]
    is [k.startswith(p)]. *)
Definition clear_cache (self : fetcher) (key_prefix : option string)
  : fetcher * nat :=
  match key_prefix with
  | None =>
      let count := size (cache self) in
      ({| cache_duration := cache_duration self; cache := ∅ |}, count)
  | Some key_prefix =>
      let keys_to_remove :=
        filter (fun k => String.prefix key_prefix k = true)
               (fst <$> map_to_list (cache self)) in
      ({| cache_duration := cache_duration self;
          cache := foldl (fun c key => delete key c) (cache self) keys_to_remove |},
       length keys_to_remove)
  end.

(** [get_cache_stats], without the [memory_usage_kb] estimate (the
    length of a printed value). *)
Record cache_stats := {
  total_entries : nat;
  valid_entries : nat;
  expired_entries : nat;
  cache_duration_seconds : Q
}.

Definition count_entries (now duration : Q) (entries : list cache_entry)
  : nat * nat :=
  foldl (fun counts entry =>
           let '(valid_count, expired_count) := counts in
           let cache_time := timestamp entry in
           if Qlt_bool (now - cache_time) duration
           then (valid_count + 1, expired_count)%nat
           else (valid_count, expired_count + 1)%nat)
        (0, 0)%nat entries.

(** An entry that the test of [get_cache_stats] counts as valid. *)
Definition fresh (now duration : Q) (entry : cache_entry) : Prop :=
  Qlt_bool (now - timestamp entry) duration = true.

#[export] Instance fresh_dec now duration entry : Decision (fresh now duration entry).
Proof. unfold fresh. apply _. Defined.

Definition get_cache_stats (now : Q) (self : fetcher) : cache_stats :=
  let total_entries := size (cache self) in
  let counts :=
    count_entries now (cache_duration self) (snd <$> map_to_list (cache self)) in
  {| total_entries := total_entries;
     valid_entries := counts.1;
     expired_entries := counts.2;
     cache_duration_seconds := cache_duration self |}.
End Cache.

Arguments cache_entry : clear implicits.
Arguments fetcher : clear implicits.
Arguments cache_stats : clear implicits.

(** [sorted(kwargs.items())]: the keyword names are distinct, so the
    order of the items is the order of their names. *)
Definition name_le (a b : string * string) : Prop := String.le a.1 b.1.

#[export] Instance name_le_dec a b : Decision (name_le a b).
Proof. unfold name_le. apply _. Defined.

(** [_get_cache_key]: [kwargs] holds the keyword arguments with their
    values already printed by [str]. *)
Definition _get_cache_key (key_type : string) (kwargs : list (string * string))
  : string :=
  let parts :=
    key_type :: ((fun kv => kv.1 +:+ "_" +:+ kv.2) <$> merge_sort name_le kwargs) in
  String.concat ":" parts.

(** [get_klines] on a cache of kline lists.  [client] is
    [binance_client.get_klines]; the clock is read twice, at [now] for the
    lookup and at [stored_at] for the store. *)
Definition get_klines (client : string -> string -> nat -> list kline)
           (now stored_at : Q) (self : fetcher (list kline))
           (symbol interval : string) (limit : nat) (use_cache : bool)
  : list kline * fetcher (list kline) :=
  let cache_key :=
    _get_cache_key "klines" [("symbol", symbol); ("interval", interval);
                             ("limit", pretty limit)] in
  let fetch :=
    let klines := client symbol interval limit in
    if use_cache && negb (bool_decide (klines = []))
    then (klines, _set_to_cache stored_at self cache_key klines)
    else (klines, self) in
  if use_cache
  then match _get_from_cache now self cache_key with
       | Some cached => (cached, self)
       | None => fetch
       end
  else fetch.

(** The key under which [get_klines] caches a request. *)
Definition klines_key (symbol interval : string) (limit : nat) : string :=
  _get_cache_key "klines" [("symbol", symbol); ("interval", interval);
                           ("limit", pretty limit)].

End DataFetcher.

(** ** Processing orchestrator ([app/core/data_processor.py]) *)

Module DataProcessor.
Import Num.
Local Open Scope Q_scope.

(** The collaborators of [DataProcessor] that [process_symbol] uses:
    [self.signal_detector] and the [ema_periods] of
    [self.indicator_calculator]. *)
Record processor := {
  signal_detector : SignalDetector.detector;
  ema_periods : list nat
}.

Definition default_processor : processor :=
  {| signal_detector := SignalDetector.default_detector;
     ema_periods := [20; 60; 120; 250]%nat |}.

(** The dict of the successful path. *)
Record symbol_report := {
  report_symbol : string;
  current_price : Q;
  report_signal : SignalDetector.signal_kind;
  report_confidence : Q;
  cumulative_change : Q;
  signal_details : option SignalDetector.signal_details;
  ema_values : gmap nat Q;
  ema_differences : gmap nat Q;
  trend : SignalDetector.trend_kind;
  trend_details : gmap nat SignalDetector.ema_position;
  rsi : Q;
  atr : Q;
  bollinger_bands : Indicators.bollinger_bands;
  macd : Indicators.macd_result;
  volume_24h : Q;
  price_change_24h : Q;
  report_timestamp : Z
}.

(** [process_symbol] returns one of two dicts: the four-key placeholder
    [{'symbol', 'error', 'signal', 'confidence'}] or the full report. *)
Inductive processed :=
| Placeholder (symbol : string) (error : string)
              (signal : SignalDetector.signal_kind) (confidence : Q)
| Report (r : symbol_report).

Section Process.
Variable sqrt : Q -> Q.
(** [time.time()] *)
Variable now : Q.

(** The body of the [try] block. *)
Definition process_symbol_body (self : processor) (symbol : string)
           (klines : list kline) : res symbol_report :=
  let close_prices := close <$> klines in
  let* latest_emas :=
    Indicators.calculate_latest_emas (ema_periods self) close_prices in
  let* current_price := index_last close_prices in
  let ema_differences :=
    Indicators.calculate_ema_differences current_price latest_emas in
  let* signal_info :=
    SignalDetector.detect_signal (signal_detector self) klines in
  let trend_info := SignalDetector.analyze_trend klines latest_emas in
  let high_prices := high <$> klines in
  let low_prices := low <$> klines in
  let rsi := Indicators.calculate_rsi close_prices 14 in
  let* atr := Indicators.calculate_atr high_prices low_prices close_prices 14 in
  let bb := Indicators.calculate_bollinger_bands sqrt close_prices 20 2 in
  let* macd := Indicators.calculate_macd close_prices 12 26 9 in
  Ok {| report_symbol := symbol;
        current_price := current_price;
        report_signal := SignalDetector.signal signal_info;
        report_confidence := SignalDetector.confidence signal_info;
        cumulative_change := SignalDetector.cumulative_change signal_info;
        signal_details := SignalDetector.details signal_info;
        ema_values := latest_emas;
        ema_differences := ema_differences;
        trend := SignalDetector.trend trend_info;
        trend_details := SignalDetector.ema_positions trend_info;
        rsi := rsi;
        atr := atr;
        bollinger_bands := bb;
        macd := macd;
        volume_24h := 0;
        price_change_24h := 0;
        report_timestamp := Qfloor now |}.

Definition process_symbol (self : processor) (symbol : string)
           (klines : list kline) : processed :=
  match klines with
  | [] => Placeholder symbol "Insufficient data" SignalDetector.none 0
  | _ =>
      if (length klines <? 10)%nat
      then Placeholder symbol "Insufficient data" SignalDetector.none 0
      else
        match process_symbol_body self symbol klines with
        | Ok r => Report r
        | Raise e => Placeholder symbol (exn_message e) SignalDetector.none 0
        end
  end.
End Process.


(** *** Sorting ([list.sort(key=..., reverse=True)]) *)

(** Python's sort is stable, also with [reverse=True]: rows with equal
    keys keep their order.  [insert_desc] puts a row in front of the first
    row whose key is not larger. *)
Fixpoint insert_desc {A} (key : A -> Q) (x : A) (sorted : list A) : list A :=
  match sorted with
  | [] => [x]
  | y :: rest =>
      if Qle_bool (key y) (key x) then x :: y :: rest
      else y :: insert_desc key x rest
  end.

Definition sort_desc {A} (key : A -> Q) (xs : list A) : list A :=
  foldr (insert_desc key) [] xs.

(** *** Trading pairs ([filter_trading_pairs]) *)

(** A value of a 24hr ticker as [float(ticker.get(name, 0))] sees it:
    missing ([Absent], read as the default 0); a number, or a string that
    reads as one ([Number]); a string that [float] refuses ([Garbage],
    [ValueError]); [None] or a container ([Null], [TypeError]). *)
Inductive field := Absent | Number (q : Q) | Garbage | Null.

Definition float_of (f : field) : res Q :=
  match f with
  | Absent => Ok 0
  | Number q => Ok q
  | Garbage => Raise ValueError
  | Null => Raise TypeError
  end.

(** The same for [int(ticker.get('count', 0))]. *)
Inductive int_field := NoCount | Count (n : Z) | BadCount | NullCount.

Definition int_of (f : int_field) : res Z :=
  match f with
  | NoCount => Ok 0%Z
  | Count n => Ok n
  | BadCount => Raise ValueError
  | NullCount => Raise TypeError
  end.

(** The keys of a ticker that [filter_trading_pairs] reads. *)
Record ticker := {
  ticker_symbol : option string;
  quoteVolume : field;
  priceChangePercent : field;
  lastPrice : field;
  highPrice : field;
  lowPrice : field;
  ticker_volume : field;
  ticker_count : int_field
}.

(** The dict appended to [filtered]. *)
Record trading_pair := {
  pair_symbol : string;
  quote_volume : Q;
  price_change_percent : Q;
  last_price : Q;
  high_price : Q;
  low_price : Q;
  pair_volume : Q;
  trades : Z
}.

(** [self.volume_threshold] and [self.price_change_threshold], with the
    defaults of [__init__]. *)
Record thresholds := {
  volume_threshold : Q;
  price_change_threshold : Q
}.

Definition default_thresholds : thresholds :=
  {| volume_threshold := 50000000; price_change_threshold := 1 |}.

(** The body of the [try] block: the pair to append, if any. *)
Definition filter_ticker (self : thresholds) (ticker : ticker)
  : res (option trading_pair) :=
  let symbol := default "" (ticker_symbol ticker) in
  let* quote_volume := float_of (quoteVolume ticker) in
  let* price_change := float_of (priceChangePercent ticker) in
  if Qle_bool (volume_threshold self) quote_volume
     && Qle_bool (price_change_threshold self) (Qabs price_change)
  then
    let* last_price := float_of (lastPrice ticker) in
    let* high_price := float_of (highPrice ticker) in
    let* low_price := float_of (lowPrice ticker) in
    let* volume := float_of (ticker_volume ticker) in
    let* trades := int_of (ticker_count ticker) in
    Ok (Some {| pair_symbol := symbol;
                quote_volume := quote_volume;
                price_change_percent := price_change;
                last_price := last_price;
                high_price := high_price;
                low_price := low_price;
                pair_volume := volume;
                trades := trades |})
  else Ok None.

(** [except (ValueError, KeyError)] skips the ticker; any other exception,
    the [TypeError] of a [None] value among them, leaves the function. *)
Definition filter_trading_pairs (self : thresholds) (ticker_data : list ticker)
  : res (list trading_pair) :=
  let* filtered :=
    foldl (fun filtered ticker =>
             let* acc := filtered in
             match filter_ticker self ticker with
             | Ok (Some item) => Ok (acc ++ [item])
             | Ok None => Ok acc
             | Raise ValueError => Ok acc
             | Raise e => Raise e
             end)
          (Ok []) ticker_data in
  Ok (sort_desc quote_volume filtered).

(** *** Signals and summary ([filter_by_signal], [generate_summary]) *)





Definition signal_eqb (a b : SignalDetector.signal_kind) : bool :=
  match a, b with
  | SignalDetector.buy, SignalDetector.buy => true
  | SignalDetector.sell, SignalDetector.sell => true
  | SignalDetector.none, SignalDetector.none => true
  | _, _ => false
  end.

(** [if value]: a number counts when it is there and not zero. *)
Definition truthy (value : option Q) : option Q :=
  match value with
  | Some v => if Qeq_bool v 0 then None else Some v
  | None => None
  end.

Record summary := {
  total_symbols : nat;
  buy_signals : nat;
  sell_signals : nat;
  buy_confidence_avg : Q;
  sell_confidence_avg : Q;
  avg_volume : Q;
  max_volume : Q;
  avg_price_change : Q;
  max_price_change : Q;
  summary_timestamp : Z
}.

Section Rows.
(** The dicts of [processed_data] are read through [get] only:
    [d.get('signal')] ([none] standing for any value that is neither
    ['buy'] nor ['sell']), [d.get('confidence', 0)], [d.get('volume_24h')]
    and [d.get('price_change_24h')]. *)
Context {D : Type}.
Variable get_signal : D -> SignalDetector.signal_kind.
Variable get_confidence : D -> Q.
Variable get_volume_24h : D -> option Q.
Variable get_price_change_24h : D -> option Q.

Definition is_signal (kind : SignalDetector.signal_kind) (min_confidence : Q)
           (data : D) : bool :=
  signal_eqb (get_signal data) kind && Qle_bool min_confidence (get_confidence data).

Definition filter_by_signal (processed_data : list D) (min_confidence : Q)
  : list D * list D :=
  let signals :=
    foldl (fun signals data =>
             if is_signal SignalDetector.buy min_confidence data
             then (signals.1 ++ [data], signals.2)
             else if is_signal SignalDetector.sell min_confidence data
             then (signals.1, signals.2 ++ [data])
             else signals)
          ([], []) processed_data in
  (sort_desc get_confidence signals.1, sort_desc get_confidence signals.2).

(** [sum(xs) / len(xs) if xs else 0] and [max(xs) if xs else 0] *)
Definition average (xs : list Q) : res Q :=
  match xs with
  | [] => Ok 0
  | _ => fdiv (Qsum xs) (Qnat (length xs))
  end.

Definition maximum (xs : list Q) : Q :=
  match xs with
  | [] => 0
  | x :: rest => foldl Qmax x rest
  end.

(** [now] is [time.time()]. *)
Definition generate_summary (now : Q) (processed_data : list D) : res summary :=
  let total_symbols := length processed_data in
  let buys :=
    filter (fun d => signal_eqb (get_signal d) SignalDetector.buy = true)
           processed_data in
  let sells :=
    filter (fun d => signal_eqb (get_signal d) SignalDetector.sell = true)
           processed_data in
  let buy_count := length buys in
  let sell_count := length sells in
  let* buy_confidence_avg :=
    if (0 <? buy_count)%nat
    then fdiv (Qsum (get_confidence <$> buys)) (Qnat buy_count)
    else Ok 0 in
  let* sell_confidence_avg :=
    if (0 <? sell_count)%nat
    then fdiv (Qsum (get_confidence <$> sells)) (Qnat sell_count)
    else Ok 0 in
  let volumes := omap (fun d => truthy (get_volume_24h d)) processed_data in
  let* avg_volume := average volumes in
  let max_volume := maximum volumes in
  let price_changes :=
    omap (fun d => truthy (get_price_change_24h d)) processed_data in
  let* avg_price_change := average price_changes in
  let max_price_change := maximum (Qabs <$> price_changes) in
  Ok {| total_symbols := total_symbols;
        buy_signals := buy_count;
        sell_signals := sell_count;
        buy_confidence_avg := buy_confidence_avg;
        sell_confidence_avg := sell_confidence_avg;
        avg_volume := avg_volume;
        max_volume := max_volume;
        avg_price_change := avg_price_change;
        max_price_change := max_price_change;
        summary_timestamp := Qfloor now |}.
End Rows.

End DataProcessor.

(** * Properties *)

(** ** Arithmetic of the embedding *)

Module NumFacts.
Import Num.
Local Open Scope Q_scope.

Lemma Qlt_bool_iff x y : Qlt_bool x y = true <-> x < y.
Proof.
  unfold Qlt_bool. rewrite negb_true_iff.
  split.
  - intros H. apply Qnot_le_lt. intros Hle.
    apply Qle_bool_iff in Hle. congruence.
  - intros H. destruct (Qle_bool y x) eqn:E; [|reflexivity].
    apply Qle_bool_iff in E. exfalso. apply (Qlt_not_le _ _ H E).
Qed.

Lemma Qlt_bool_false x y : Qlt_bool x y = false <-> y <= x.
Proof.
  unfold Qlt_bool. rewrite negb_false_iff. apply Qle_bool_iff.
Qed.

Lemma Qle_bool_false x y : Qle_bool x y = false <-> y < x.
Proof.
  rewrite <- Qlt_bool_iff. unfold Qlt_bool.
  destruct (Qle_bool x y); simpl; intuition congruence.
Qed.

Lemma Qeq_bool_false x y : Qeq_bool x y = false <-> ~ x == y.
Proof.
  rewrite <- Qeq_bool_iff. destruct (Qeq_bool x y); intuition congruence.
Qed.

Lemma Qnat_pos n : (1 <= n)%nat -> 0 < Qnat n.
Proof.
  intros H. unfold Qnat, Qlt. simpl. lia.
Qed.

Lemma Qnat_S n : Qnat (S n) == Qnat n + 1.
Proof.
  unfold Qnat. rewrite Nat2Z.inj_succ. unfold Z.succ.
  rewrite inject_Z_plus. reflexivity.
Qed.

Lemma Qsum_nonneg xs : Forall (fun x => 0 <= x) xs -> 0 <= Qsum xs.
Proof.
  induction 1 as [|x xs Hx _ IH]; simpl; [apply Qle_refl|].
  lra.
Qed.

Lemma Qsum_nonpos xs : Forall (fun x => x <= 0) xs -> Qsum xs <= 0.
Proof.
  induction 1 as [|x xs Hx _ IH]; simpl; [apply Qle_refl|].
  lra.
Qed.

Lemma Qsum_neg xs : xs <> [] -> Forall (fun x => x < 0) xs -> Qsum xs < 0.
Proof.
  intros Hne H. destruct H as [|x xs Hx Hxs]; [congruence|].
  simpl. assert (Qsum xs <= 0).
  { apply Qsum_nonpos. eapply Forall_impl; [exact Hxs|].
    intros y Hy. simpl in Hy. lra. }
  lra.
Qed.

(** Quotient of a non-negative by a positive number. *)
Lemma Qdiv_nonneg a b : 0 <= a -> 0 < b -> 0 <= a / b.
Proof.
  intros Ha Hb. apply Qle_shift_div_l; [exact Hb|]. lra.
Qed.

Lemma Qdiv_pos a b : 0 < a -> 0 < b -> 0 < a / b.
Proof.
  intros Ha Hb. apply Qlt_shift_div_l; [exact Hb|]. lra.
Qed.

End NumFacts.

(** ** RSI *)

Module RsiFacts.
Import Num NumFacts Indicators.
Local Open Scope Q_scope.

Lemma diff_lookup prices i d :
  diff prices !! i = Some d ->
  exists x y, prices !! i = Some x /\ prices !! S i = Some y /\ d = y - x.
Proof.
  revert i. induction prices as [|x [|y rest] IH]; intros i H; try discriminate.
  destruct i as [|i].
  - injection H as <-. exists x, y. auto.
  - apply IH in H. exact H.
Qed.

Lemma diff_length prices : length (diff prices) = (length prices - 1)%nat.
Proof.
  induction prices as [|x [|y rest] IH]; try reflexivity.
  change (S (length (diff (y :: rest))) = (length (x :: y :: rest) - 1)%nat).
  rewrite IH. simpl. lia.
Qed.

Lemma diff_non_decreasing prices :
  non_decreasing prices -> Forall (fun d => 0 <= d) (diff prices).
Proof.
  intros H. apply Forall_lookup. intros i d Hd.
  destruct (diff_lookup _ _ _ Hd) as (x & y & Hx & Hy & ->).
  pose proof (H i x y Hx Hy) as Hxy. cbv beta in Hxy. lra.
Qed.

Lemma diff_strictly_decreasing prices :
  strictly_decreasing prices -> Forall (fun d => d < 0) (diff prices).
Proof.
  intros H. apply Forall_lookup. intros i d Hd.
  destruct (diff_lookup _ _ _ Hd) as (x & y & Hx & Hy & ->).
  pose proof (H i x y Hx Hy) as Hxy. cbv beta in Hxy. lra.
Qed.

Lemma filter_none (f : Q -> bool) xs :
  Forall (fun x => f x = false) xs -> List.filter f xs = [].
Proof.
  induction 1 as [|x xs Hx _ IH]; simpl; [reflexivity|].
  rewrite Hx. exact IH.
Qed.

Lemma filter_all (f : Q -> bool) xs :
  Forall (fun x => f x = true) xs -> List.filter f xs = xs.
Proof.
  induction 1 as [|x xs Hx _ IH]; simpl; [reflexivity|].
  rewrite Hx, IH. reflexivity.
Qed.

Lemma filter_Forall (f : Q -> bool) xs : Forall (fun x => f x = true) (List.filter f xs).
Proof.
  induction xs as [|x xs IH]; simpl; [constructor|].
  destruct (f x) eqn:E; [constructor; assumption | assumption].
Qed.

Lemma seed_up_nonneg period seed : (1 <= period)%nat -> 0 <= seed_up period seed.
Proof.
  intros Hp. unfold seed_up. apply Qdiv_nonneg; [|apply Qnat_pos, Hp].
  apply Qsum_nonneg. eapply Forall_impl; [apply filter_Forall|].
  intros x Hx. apply Qle_bool_iff, Hx.
Qed.

Lemma seed_down_nonneg period seed : (1 <= period)%nat -> 0 <= seed_down period seed.
Proof.
  intros Hp. unfold seed_down. apply Qdiv_nonneg; [|apply Qnat_pos, Hp].
  assert (Qsum (List.filter (fun d => Qlt_bool d 0) seed) <= 0); [|lra].
  apply Qsum_nonpos. eapply Forall_impl; [apply filter_Forall|].
  intros x Hx. simpl in Hx. apply Qlt_bool_iff in Hx. lra.
Qed.

(** A seed without a loss has a zero average loss. *)
Lemma seed_down_rising period seed :
  Forall (fun d => 0 <= d) seed -> seed_down period seed == 0.
Proof.
  intros H. unfold seed_down. rewrite filter_none.
  - simpl. unfold Qdiv. ring.
  - eapply Forall_impl; [exact H|]. intros x Hx. apply Qlt_bool_false, Hx.
Qed.

(** A seed of losses only: no average gain, a positive average loss. *)
Lemma seed_falling period seed :
  (1 <= period)%nat -> seed <> [] -> Forall (fun d => d < 0) seed ->
  seed_up period seed == 0 /\ 0 < seed_down period seed.
Proof.
  intros Hp Hne H. split.
  - unfold seed_up. rewrite filter_none.
    + simpl. unfold Qdiv. ring.
    + eapply Forall_impl; [exact H|]. intros x Hx. apply Qle_bool_false, Hx.
  - unfold seed_down. rewrite filter_all.
    + apply Qdiv_pos; [|apply Qnat_pos, Hp].
      pose proof (Qsum_neg seed Hne H). lra.
    + eapply Forall_impl; [exact H|]. intros x Hx. apply Qlt_bool_iff, Hx.
Qed.

Lemma rsi_value_bounds up down :
  0 <= up -> 0 < down -> 0 <= rsi_value up down <= 100.
Proof.
  intros Hup Hdown. unfold rsi_value.
  assert (Hr : 0 <= up / down) by (apply Qdiv_nonneg; assumption).
  assert (Hpos : 0 < 1 + up / down) by lra.
  assert (H1 : 0 < 100 / (1 + up / down)) by (apply Qdiv_pos; [lra | exact Hpos]).
  assert (H2 : 100 / (1 + up / down) <= 100).
  { apply Qle_shift_div_r; [exact Hpos|]. nra. }
  lra.
Qed.

Lemma rsi_value_no_gain up down :
  up == 0 -> 0 < down -> rsi_value up down == 0.
Proof.
  intros Hup Hdown. unfold rsi_value. rewrite Hup. field. lra.
Qed.

(** One step of Wilder smoothing keeps an average non-negative. *)
Lemma smooth_nonneg period avg x :
  (1 <= period)%nat -> 0 <= avg -> 0 <= x ->
  0 <= (avg * (Qnat period - 1) + x) / Qnat period.
Proof.
  intros Hp Havg Hx. apply Qdiv_nonneg; [|apply Qnat_pos, Hp].
  assert (0 <= Qnat period - 1).
  { destruct period as [|n]; [lia|]. rewrite Qnat_S.
    assert (0 <= Qnat n) by (unfold Qnat, Qle; simpl; lia). lra. }
  nra.
Qed.

Lemma rsi_loop_bounds period deltas : forall up down rsi,
  (1 <= period)%nat -> 0 <= up -> 0 <= down -> 0 <= rsi <= 100 ->
  0 <= rsi_loop period up down rsi deltas <= 100.
Proof.
  induction deltas as [|delta rest IH]; intros up down rsi Hp Hup Hdown Hrsi.
  - exact Hrsi.
  - simpl. apply IH; [exact Hp| | |].
    + apply smooth_nonneg; [exact Hp|exact Hup|].
      destruct (Qlt_bool 0 delta) eqn:E; [apply Qlt_bool_iff in E|]; lra.
    + apply smooth_nonneg; [exact Hp|exact Hdown|].
      destruct (Qlt_bool 0 delta) eqn:E; [|apply Qlt_bool_false in E]; lra.
    + match goal with |- context [Qeq_bool ?d 0] => destruct (Qeq_bool d 0) eqn:E end.
      * lra.
      * apply Qeq_bool_false in E. apply rsi_value_bounds.
        -- apply smooth_nonneg; [exact Hp|exact Hup|].
           destruct (Qlt_bool 0 delta) eqn:E'; [apply Qlt_bool_iff in E'|]; lra.
        -- assert (0 <= (down * (Qnat period - 1) +
                         (if Qlt_bool 0 delta then 0 else - delta)) / Qnat period).
           { apply smooth_nonneg; [exact Hp|exact Hdown|].
             destruct (Qlt_bool 0 delta) eqn:E'; [|apply Qlt_bool_false in E']; lra. }
           apply Qle_lteq in H. destruct H as [H|H]; [exact H|].
           exfalso. apply E. symmetry. exact H.
Qed.

Lemma rsi_loop_falling period deltas : forall up down rsi,
  (1 <= period)%nat -> Forall (fun d => d < 0) deltas ->
  up == 0 -> 0 < down -> rsi == 0 ->
  rsi_loop period up down rsi deltas == 0.
Proof.
  induction deltas as [|delta rest IH]; intros up down rsi Hp Hd Hup Hdown Hrsi.
  - exact Hrsi.
  - inversion Hd as [|? ? Hdelta Hrest]; subst. simpl.
    assert (E : Qlt_bool 0 delta = false) by (apply Qlt_bool_false; lra).
    rewrite E.
    assert (Hper : 0 < Qnat period) by (apply Qnat_pos, Hp).
    assert (Hup' : (up * (Qnat period - 1) + 0) / Qnat period == 0).
    { rewrite Hup. field. lra. }
    assert (Hdown' : 0 < (down * (Qnat period - 1) + - delta) / Qnat period).
    { apply Qdiv_pos; [|exact Hper].
      assert (0 <= Qnat period - 1).
      { destruct period as [|n]; [lia|]. rewrite Qnat_S.
        assert (0 <= Qnat n) by (unfold Qnat, Qle; simpl; lia). lra. }
      nra. }
    apply IH; [exact Hp|exact Hrest|exact Hup'|exact Hdown'|].
    match goal with |- context [Qeq_bool ?d 0] => destruct (Qeq_bool d 0) eqn:E' end.
    + apply Qeq_bool_iff in E'. lra.
    + apply rsi_value_no_gain; assumption.
Qed.

(** Fewer than [period + 1] prices: the neutral value. *)
Lemma calculate_rsi_short prices period :
  (length prices < period + 1)%nat -> calculate_rsi prices period = 50.
Proof.
  intros H. unfold calculate_rsi.
  destruct (Nat.ltb_spec (length prices) (period + 1)); [reflexivity | lia].
Qed.

(** When the seed holds a loss, the code is Wilder's RSI over all the
    deltas. *)
Lemma calculate_rsi_wilder prices period :
  ~ seed_down period (take period (diff prices)) == 0 ->
  calculate_rsi prices period = rsi_wilder prices period.
Proof.
  intros H. unfold calculate_rsi, rsi_wilder.
  apply Qeq_bool_false in H. rewrite H. reflexivity.
Qed.

(** When the seed holds no loss, the code answers 100 whatever the
    deltas after the seed are. *)
Lemma calculate_rsi_seed_return prices period :
  (period + 1 <= length prices)%nat ->
  seed_down period (take period (diff prices)) == 0 ->
  calculate_rsi prices period = 100.
Proof.
  intros Hlen H. unfold calculate_rsi.
  destruct (Nat.ltb_spec (length prices) (period + 1)); [lia|].
  apply Qeq_bool_iff in H. rewrite H. reflexivity.
Qed.

(** C1: RSI rolls forward over all the deltas after the seed and returns
    the value of the final step.  The code stops at the seed when the seed
    has no loss: two rises then a fall of 2, with [period = 2], give 100
    where the final step of Wilder's recursion is 100/3; fourteen rises
    and then a fall of 14, with the default period 14, give 100 where the
    final step is 1300/27. *)
Theorem calculate_rsi_stops_at_seed :
  calculate_rsi [1; 2; 3; 1] 2 == 100 /\
  rsi_wilder [1; 2; 3; 1] 2 == 100 # 3 /\
  calculate_rsi [1; 2; 3; 4; 5; 6; 7; 8; 9; 10; 11; 12; 13; 14; 15; 1] 14 == 100 /\
  rsi_wilder [1; 2; 3; 4; 5; 6; 7; 8; 9; 10; 11; 12; 13; 14; 15; 1] 14 == 1300 # 27.
Proof.
  repeat split; vm_compute; reflexivity.
Qed.

(** C6: on a non-decreasing series of at least [period + 1] prices RSI is
    at least 50, on a strictly decreasing one at most 50, and on every
    series it lies in [[0, 100]]. *)
Theorem calculate_rsi_direction_and_range (prices : list Q) (period : nat) :
  (1 <= period)%nat ->
  ((period + 1 <= length prices)%nat -> non_decreasing prices ->
   50 <= calculate_rsi prices period) /\
  ((period + 1 <= length prices)%nat -> strictly_decreasing prices ->
   calculate_rsi prices period <= 50) /\
  0 <= calculate_rsi prices period <= 100.
Proof.
  intros Hp. split; [|split].
  - intros Hlen Hmono.
    rewrite calculate_rsi_seed_return; [lra | exact Hlen |].
    apply seed_down_rising. apply Forall_take, diff_non_decreasing, Hmono.
  - intros Hlen Hmono.
    pose proof (diff_strictly_decreasing _ Hmono) as Hd.
    destruct (seed_falling period (take period (diff prices)) Hp) as [Hup Hdown].
    { intros E. apply (f_equal length) in E. rewrite length_take, diff_length in E.
      simpl in E. lia. }
    { apply Forall_take, Hd. }
    unfold calculate_rsi.
    destruct (Nat.ltb_spec (length prices) (period + 1)); [lia|].
    destruct (Qeq_bool _ 0) eqn:E.
    { apply Qeq_bool_iff in E. lra. }
    rewrite rsi_loop_falling; [lra | exact Hp | apply Forall_drop, Hd
                              | exact Hup | exact Hdown |].
    apply rsi_value_no_gain; assumption.
  - unfold calculate_rsi.
    destruct (Nat.ltb_spec (length prices) (period + 1)); [lra|].
    pose proof (seed_up_nonneg period (take period (diff prices)) Hp) as Hup.
    pose proof (seed_down_nonneg period (take period (diff prices)) Hp) as Hdown.
    destruct (Qeq_bool _ 0) eqn:E; [lra|].
    apply Qeq_bool_false in E.
    assert (Hdown' : 0 < seed_down period (take period (diff prices))).
    { apply Qle_lteq in Hdown. destruct Hdown as [H'|H']; [exact H'|].
      exfalso. apply E. symmetry. exact H'. }
    apply rsi_loop_bounds; [exact Hp|exact Hup|exact Hdown|].
    apply rsi_value_bounds; assumption.
Qed.

(** The unit test's rising series, and a falling one. *)
Lemma calculate_rsi_direction_and_range_witness :
  50 <= calculate_rsi [100; 101; 102; 103; 104; 105; 106; 107; 108; 109] 7 /\
  calculate_rsi [9; 8; 7; 6] 2 <= 50 /\
  0 <= calculate_rsi [3; 2; 4; 1] 2 <= 100.
Proof.
  assert (H7 : (1 <= 7)%nat) by lia.
  assert (H2 : (1 <= 2)%nat) by lia.
  split; [|split].
  - refine (proj1 (calculate_rsi_direction_and_range
                     [100; 101; 102; 103; 104; 105; 106; 107; 108; 109] 7 H7) _ _).
    + simpl. lia.
    + intros i x y Hx Hy.
      do 10 (destruct i as [|i];
             [simpl in Hx, Hy; injection Hx as <-;
              try (injection Hy as <-; unfold Qle; simpl; lia); discriminate|]).
      discriminate.
  - refine (proj1 (proj2 (calculate_rsi_direction_and_range [9; 8; 7; 6] 2 H2)) _ _).
    + simpl. lia.
    + intros i x y Hx Hy.
      do 4 (destruct i as [|i];
            [simpl in Hx, Hy; injection Hx as <-;
             try (injection Hy as <-; unfold Qlt; simpl; lia); discriminate|]).
      discriminate.
  - exact (proj2 (proj2 (calculate_rsi_direction_and_range [3; 2; 4; 1] 2 H2))).
Defined.

End RsiFacts.

(** ** Signal detection *)

Module SignalFacts.
Import Num NumFacts SignalDetector.
Local Open Scope Q_scope.

Lemma strictly_increasing_cons x y rest :
  strictly_increasing (x :: y :: rest) <-> x < y /\ strictly_increasing (y :: rest).
Proof.
  split.
  - intros H. split.
    + apply (H 0%nat); reflexivity.
    + intros i a b Ha Hb. apply (H (S i)); assumption.
  - intros [Hxy H] [|i] a b Ha Hb.
    + simpl in Ha, Hb. congruence.
    + apply (H i); assumption.
Qed.

Lemma strictly_decreasing_cons x y rest :
  strictly_decreasing (x :: y :: rest) <-> y < x /\ strictly_decreasing (y :: rest).
Proof.
  split.
  - intros H. split.
    + apply (H 0%nat); reflexivity.
    + intros i a b Ha Hb. apply (H (S i)); assumption.
  - intros [Hxy H] [|i] a b Ha Hb.
    + simpl in Ha, Hb. congruence.
    + apply (H i); assumption.
Qed.

(** The two scans decide the two shapes. *)
Lemma is_strictly_increasing_iff values :
  _is_strictly_increasing values = true <-> strictly_increasing values.
Proof.
  induction values as [|x [|y rest] IH].
  - split; [intros _ i a b Ha; discriminate | reflexivity].
  - split; [intros _ [|i] a b Ha Hb; discriminate | reflexivity].
  - change (_is_strictly_increasing (x :: y :: rest))
      with (Qlt_bool x y && _is_strictly_increasing (y :: rest)).
    rewrite andb_true_iff, Qlt_bool_iff, IH, strictly_increasing_cons. reflexivity.
Qed.

Lemma is_strictly_decreasing_iff values :
  _is_strictly_decreasing values = true <-> strictly_decreasing values.
Proof.
  induction values as [|x [|y rest] IH].
  - split; [intros _ i a b Ha; discriminate | reflexivity].
  - split; [intros _ [|i] a b Ha Hb; discriminate | reflexivity].
  - change (_is_strictly_decreasing (x :: y :: rest))
      with (Qlt_bool y x && _is_strictly_decreasing (y :: rest)).
    rewrite andb_true_iff, Qlt_bool_iff, IH, strictly_decreasing_cons. reflexivity.
Qed.

(** [_calculate_confidence] returns for every non-zero threshold. *)
Lemma calculate_confidence_returns change threshold :
  ~ threshold == 0 -> exists c, _calculate_confidence change threshold = Ok c.
Proof.
  intros Ht. unfold _calculate_confidence, fdiv.
  destruct (Qle_bool change threshold); [eauto|].
  apply Qeq_bool_false in Ht. rewrite Ht. simpl. eauto.
Qed.

(** The confidence curve: 1/2 up to the threshold, linear up to twice the
    threshold, 1 beyond. *)
Lemma calculate_confidence_curve change threshold c :
  0 < threshold ->
  _calculate_confidence change threshold = Ok c ->
  (change <= threshold -> c == 1 # 2) /\
  (threshold <= change <= 2 * threshold ->
   c == (1 # 2) + ((change - threshold) / threshold) * (1 # 2)) /\
  (2 * threshold <= change -> c == 1) /\
  1 # 2 <= c <= 1.
Proof.
  intros Ht. unfold _calculate_confidence, fdiv.
  assert (Hne : Qeq_bool threshold 0 = false) by (apply Qeq_bool_false; lra).
  assert (Hself : threshold / threshold == 1) by (field; lra).
  destruct (Qle_bool change threshold) eqn:E.
  - apply Qle_bool_iff in E. intros [= <-].
    split; [reflexivity|]. split; [|split; [intros H; lra | lra]].
    intros [H1 H2]. assert (Hc : change == threshold) by lra.
    rewrite Hc. field. lra.
  - apply Qle_bool_false in E. rewrite Hne. simpl. intros [= <-].
    split; [intros H; lra|].
    destruct (Q.min_spec (change - threshold) threshold) as [[Hlt Hm]|[Hle Hm]];
      rewrite Hm.
    + assert (0 < (change - threshold) / threshold)
        by (apply Qdiv_pos; lra).
      assert ((change - threshold) / threshold <= 1).
      { apply Qle_shift_div_r; lra. }
      split; [reflexivity|]. split; [intros H'; lra | lra].
    + rewrite Hself.
      split; [|split; [reflexivity | lra]].
      intros [H1 H2]. assert (Hc : change - threshold == threshold) by lra.
      rewrite Hc, Hself. reflexivity.
Qed.

(** The confidence never decreases when the magnitude grows. *)
Lemma calculate_confidence_monotone change1 change2 threshold c1 c2 :
  0 < threshold -> change1 <= change2 ->
  _calculate_confidence change1 threshold = Ok c1 ->
  _calculate_confidence change2 threshold = Ok c2 ->
  c1 <= c2.
Proof.
  intros Ht Hle H1 H2.
  destruct (calculate_confidence_curve _ _ _ Ht H1) as (A1 & B1 & C1 & D1).
  destruct (calculate_confidence_curve _ _ _ Ht H2) as (A2 & B2 & C2 & D2).
  destruct (Qlt_le_dec threshold change1) as [Hlow|Hlow].
  - destruct (Qlt_le_dec change2 (2 * threshold)) as [Hhigh|Hhigh].
    + rewrite B1, B2 by lra.
      assert ((change1 - threshold) / threshold <= (change2 - threshold) / threshold).
      { unfold Qdiv. apply Qmult_le_compat_r; [lra|].
        apply Qlt_le_weak, Qinv_lt_0_compat, Ht. }
      lra.
    + rewrite C2 by lra. lra.
  - rewrite A1 by lra. lra.
Qed.

Lemma detect_signal_short self klines :
  (length klines < lookback_periods self)%nat ->
  detect_signal self klines =
    Ok {| signal := none; confidence := 0; cumulative_change := 0; details := None |}.
Proof.
  intros H. unfold detect_signal.
  destruct (Nat.ltb_spec (length klines) (lookback_periods self)); [reflexivity|lia].
Qed.

Lemma buy_test_iff threshold w :
  Qlt_bool threshold (window_change w)
  && _is_strictly_increasing (low <$> w)
  && _is_strictly_increasing (close <$> w)
  && _is_strictly_increasing (high <$> w) = true
  <-> buy_pattern threshold w.
Proof.
  unfold buy_pattern.
  rewrite !andb_true_iff, Qlt_bool_iff, !is_strictly_increasing_iff. tauto.
Qed.

Lemma sell_test_iff threshold w :
  Qlt_bool (window_change w) (- threshold)
  && _is_strictly_decreasing (low <$> w)
  && _is_strictly_decreasing (close <$> w)
  && _is_strictly_decreasing (high <$> w) = true
  <-> sell_pattern threshold w.
Proof.
  unfold sell_pattern.
  rewrite !andb_true_iff, Qlt_bool_iff, !is_strictly_decreasing_iff. tauto.
Qed.

(** What a returned [detect_signal] result says about the window. *)
Lemma detect_signal_inv self klines r :
  detect_signal self klines = Ok r ->
  ((length klines < lookback_periods self)%nat /\
   signal r = none /\ confidence r = 0) \/
  ((lookback_periods self <= length klines)%nat /\
   cumulative_change r = window_change (window self klines) /\
   ((signal r = buy /\
     buy_pattern (change_threshold self) (window self klines) /\
     _calculate_confidence (window_change (window self klines))
                           (change_threshold self) = Ok (confidence r)) \/
    (signal r = sell /\
     ~ buy_pattern (change_threshold self) (window self klines) /\
     sell_pattern (change_threshold self) (window self klines) /\
     _calculate_confidence (Qabs (window_change (window self klines)))
                           (change_threshold self) = Ok (confidence r)) \/
    (signal r = none /\ confidence r = 0 /\
     ~ buy_pattern (change_threshold self) (window self klines) /\
     ~ sell_pattern (change_threshold self) (window self klines)))).
Proof.
  unfold detect_signal.
  destruct (Nat.ltb_spec (length klines) (lookback_periods self)) as [Hlen|Hlen].
  { intros H. injection H as H. subst r. left. auto. }
  fold (window self klines).
  destruct (window self klines) as [|first rest] eqn:Ew; [discriminate|].
  change (index (close <$> first :: rest) 0) with (Ok (close first)).
  unfold index_last. rewrite fmap_last.
  destruct (last (first :: rest)) as [final|] eqn:El; [|discriminate].
  cbn [bind fmap option_fmap option_map]. unfold fdiv.
  destruct (Qeq_bool (close first) 0) eqn:E0; [cbn [bind]; discriminate|].
  cbn [bind].
  assert (Hc : (close final - close first) / close first * 100
               = window_change (first :: rest)).
  { unfold window_change. cbn [head]. rewrite El. reflexivity. }
  rewrite !Hc.
  destruct (Qlt_bool (change_threshold self) _ && _ && _ && _) eqn:Ebuy.
  - apply buy_test_iff in Ebuy.
    destruct (_calculate_confidence _ _) as [c|] eqn:Econf; [|discriminate].
    intros H. injection H as H. subst r. right. split; [exact Hlen|]. split; [reflexivity|].
    left. auto.
  - assert (Hnb : ~ buy_pattern (change_threshold self) (first :: rest)).
    { apply not_true_iff_false in Ebuy. intros Hb. apply Ebuy, buy_test_iff, Hb. }
    destruct (Qlt_bool _ (- _) && _ && _ && _) eqn:Esell.
    + apply sell_test_iff in Esell.
      destruct (_calculate_confidence _ _) as [c|] eqn:Econf; [|discriminate].
      intros H. injection H as H. subst r. right. split; [exact Hlen|]. split; [reflexivity|].
      right. left. auto.
    + assert (Hns : ~ sell_pattern (change_threshold self) (first :: rest)).
      { apply not_true_iff_false in Esell. intros Hs. apply Esell, sell_test_iff, Hs. }
      intros H. injection H as H. subst r. right. split; [exact Hlen|]. split; [reflexivity|].
      right. right. auto.
Qed.

(** [detect_signal] returns when the window has a first candle with a
    non-zero close and the threshold is not zero. *)
Lemma detect_signal_returns self klines first :
  ~ change_threshold self == 0 ->
  (lookback_periods self <= length klines)%nat ->
  head (window self klines) = Some first -> ~ close first == 0 ->
  exists r, detect_signal self klines = Ok r.
Proof.
  intros Ht Hlen Hhead Hfirst. unfold detect_signal.
  destruct (Nat.ltb_spec (length klines) (lookback_periods self)); [lia|].
  fold (window self klines).
  destruct (window self klines) as [|first' rest] eqn:Ew; [discriminate|].
  injection Hhead as ->.
  change (index (close <$> first :: rest) 0) with (Ok (close first)).
  unfold index_last. rewrite fmap_last.
  destruct (last (first :: rest)) as [final|] eqn:El.
  2:{ apply last_None in El. discriminate. }
  cbn [bind fmap option_fmap option_map]. unfold fdiv.
  apply Qeq_bool_false in Hfirst. rewrite Hfirst. cbn [bind].
  destruct (Qlt_bool (change_threshold self) _ && _ && _ && _).
  - destruct (calculate_confidence_returns
                ((close final - close first) / close first * 100) _ Ht) as [c ->].
    cbn [bind]. eauto.
  - destruct (Qlt_bool _ (- _) && _ && _ && _).
    + destruct (calculate_confidence_returns
                  (Qabs ((close final - close first) / close first * 100)) _ Ht)
        as [c ->].
      cbn [bind]. eauto.
    + cbn [bind]. eauto.
Qed.

(** The confidence of a detected signal, on the curve of the magnitude of
    its cumulative change. *)
Lemma detected_confidence self klines r :
  0 < change_threshold self ->
  detect_signal self klines = Ok r -> signal r <> none ->
  change_threshold self < Qabs (cumulative_change r) /\
  (Qabs (cumulative_change r) <= 2 * change_threshold self ->
   confidence r == (1 # 2) + ((Qabs (cumulative_change r) - change_threshold self)
                               / change_threshold self) * (1 # 2)) /\
  (2 * change_threshold self <= Qabs (cumulative_change r) -> confidence r == 1) /\
  1 # 2 <= confidence r <= 1.
Proof.
  intros Ht Hr Hsig.
  destruct (detect_signal_inv _ _ _ Hr) as [(_ & Hn & _)|(_ & Hcum & Hcase)];
    [congruence|].
  rewrite Hcum.
  destruct Hcase as [(_ & Hpat & Hconf)|[(_ & _ & Hpat & Hconf)|(Hn & _)]];
    [| |congruence].
  - destruct Hpat as (Hgt & _).
    assert (Habs : Qabs (window_change (window self klines))
                   == window_change (window self klines)) by (apply Qabs_pos; lra).
    destruct (calculate_confidence_curve _ _ _ Ht Hconf) as (_ & B & C & D).
    rewrite Habs.
    split; [exact Hgt|]. split; [intros H; apply B; lra|]. split; [exact C|exact D].
  - destruct Hpat as (Hlt & _).
    assert (Habs : Qabs (window_change (window self klines))
                   == - window_change (window self klines)) by (apply Qabs_neg; lra).
    destruct (calculate_confidence_curve _ _ _ Ht Hconf) as (_ & B & C & D).
    split; [lra|]. split; [intros H; apply B; lra|]. split; [exact C|exact D].
Qed.

Lemma window_exact self klines :
  length klines = lookback_periods self -> window self klines = klines.
Proof.
  intros H. unfold window, last_n. destruct (lookback_periods self); [reflexivity|].
  rewrite H, Nat.sub_diag. reflexivity.
Qed.




(** C3: with a positive threshold, the confidence of a returned [buy] or
    [sell] lies in [[1/2, 1]]; it is the curve of the magnitude of the
    cumulative change that is 1/2 at the threshold, linear up to twice the
    threshold and 1 beyond, so it never decreases when the magnitude
    grows; and the confidence is 0 exactly when the signal is [none]. *)
Theorem detect_signal_confidence self klines r :
  0 < change_threshold self ->
  detect_signal self klines = Ok r ->
  (signal r <> none ->
   1 # 2 <= confidence r <= 1 /\
   change_threshold self < Qabs (cumulative_change r) /\
   (Qabs (cumulative_change r) <= 2 * change_threshold self ->
    confidence r == (1 # 2) + ((Qabs (cumulative_change r) - change_threshold self)
                                / change_threshold self) * (1 # 2)) /\
   (2 * change_threshold self <= Qabs (cumulative_change r) -> confidence r == 1) /\
   (forall klines' r',
       detect_signal self klines' = Ok r' -> signal r' <> none ->
       Qabs (cumulative_change r) <= Qabs (cumulative_change r') ->
       confidence r <= confidence r')) /\
  (forall change c,
      _calculate_confidence change (change_threshold self) = Ok c ->
      (change <= change_threshold self -> c == 1 # 2) /\
      (change_threshold self <= change <= 2 * change_threshold self ->
       c == (1 # 2) + ((change - change_threshold self) / change_threshold self)
                      * (1 # 2)) /\
      (2 * change_threshold self <= change -> c == 1)) /\
  (confidence r == 0 <-> signal r = none).
Proof.
  intros Ht Hr. split; [|split].
  - intros Hsig.
    destruct (detected_confidence _ _ _ Ht Hr Hsig) as (Hgt & Hlin & Hsat & Hrange).
    split; [exact Hrange|]. split; [exact Hgt|]. split; [exact Hlin|].
    split; [exact Hsat|].
    intros klines' r' Hr' Hsig' Hle.
    destruct (detected_confidence _ _ _ Ht Hr' Hsig')
      as (Hgt' & Hlin' & Hsat' & Hrange').
    destruct (Qlt_le_dec (2 * change_threshold self) (Qabs (cumulative_change r')))
      as [Hbig|Hsmall].
    + rewrite Hsat' by lra. lra.
    + rewrite Hlin, Hlin' by lra.
      assert ((Qabs (cumulative_change r) - change_threshold self)
                / change_threshold self
              <= (Qabs (cumulative_change r') - change_threshold self)
                   / change_threshold self).
      { unfold Qdiv. apply Qmult_le_compat_r; [lra|].
        apply Qlt_le_weak, Qinv_lt_0_compat, Ht. }
      lra.
  - intros change c Hc.
    destruct (calculate_confidence_curve _ _ _ Ht Hc) as (A & B & C & _). auto.
  - split.
    + intros Hzero. destruct (signal r) eqn:Es; [| |reflexivity]; exfalso.
      * destruct (detected_confidence _ _ _ Ht Hr) as (_ & _ & _ & Hrange);
          [congruence|lra].
      * destruct (detected_confidence _ _ _ Ht Hr) as (_ & _ & _ & Hrange);
          [congruence|lra].
    + intros Hnone.
      destruct (detect_signal_inv _ _ _ Hr) as [(_ & _ & Hz)|(_ & _ & Hcase)].
      * rewrite Hz. reflexivity.
      * destruct Hcase as [(Hs & _)|[(Hs & _)|(_ & Hz & _)]];
          [congruence | congruence | rewrite Hz; reflexivity].
Qed.

(** The falling candles, with the default threshold of one percent. *)
Lemma detect_signal_confidence_witness :
  exists r,
    detect_signal default_detector falling_candles = Ok r /\
    signal r = sell /\
    (signal r <> none -> 1 # 2 <= confidence r <= 1) /\
    (confidence r == 0 <-> signal r = none).
Proof.
  eexists. split; [vm_compute; reflexivity|]. split; [reflexivity|].
  assert (Ht : 0 < change_threshold default_detector) by reflexivity.
  assert (Hr : detect_signal default_detector falling_candles = Ok _)
    by (vm_compute; reflexivity).
  pose proof (detect_signal_confidence default_detector falling_candles _ Ht Hr)
    as (Hdetected & _ & Hzero).
  split; [|exact Hzero].
  intros Hsig. exact (proj1 (Hdetected Hsig)).
Defined.

End SignalFacts.

(** ** Expiring cache *)

Module CacheFacts.
Import Num NumFacts DataFetcher.
Local Open Scope Q_scope.

Section Cache.
Context {V : Type}.
Implicit Types (self : fetcher V) (key : string) (now : Q).

Lemma is_cache_valid_iff now self key :
  _is_cache_valid now self key = true <->
  exists entry, cache self !! key = Some entry /\
                now - timestamp entry < cache_duration self.
Proof.
  unfold _is_cache_valid. destruct (cache self !! key) as [entry|].
  - rewrite Qlt_bool_iff. split.
    + intros H. exists entry. auto.
    + intros (entry' & Heq & H). injection Heq as <-. exact H.
  - split; [discriminate|]. intros (entry & Heq & _). discriminate.
Qed.

Lemma get_from_cache_Some now self key v :
  _get_from_cache now self key = Some v <->
  exists entry, cache self !! key = Some entry /\ data entry = v /\
                now - timestamp entry < cache_duration self.
Proof.
  unfold _get_from_cache.
  destruct (_is_cache_valid now self key) eqn:E.
  - apply is_cache_valid_iff in E. destruct E as (entry & Hentry & Hage).
    rewrite Hentry. simpl. split.
    + intros H. injection H as <-. exists entry. auto.
    + intros (entry' & Heq & Hd & _). injection Heq as <-. congruence.
  - split; [discriminate|]. intros (entry & Hentry & _ & Hage).
    assert (_is_cache_valid now self key = true)
      by (apply is_cache_valid_iff; eauto).
    congruence.
Qed.

Lemma get_from_cache_None now self key :
  _get_from_cache now self key = None <->
  forall entry, cache self !! key = Some entry ->
                cache_duration self <= now - timestamp entry.
Proof.
  split.
  - intros H entry Hentry.
    destruct (Qlt_le_dec (now - timestamp entry) (cache_duration self)) as [Hlt|Hle];
      [|exact Hle].
    assert (_get_from_cache now self key = Some (data entry))
      by (apply get_from_cache_Some; eauto).
    congruence.
  - intros H. destruct (_get_from_cache now self key) as [v|] eqn:E; [|reflexivity].
    apply get_from_cache_Some in E. destruct E as (entry & Hentry & _ & Hage).
    specialize (H entry Hentry). lra.
Qed.

Lemma set_to_cache_lookup now self key d :
  cache (_set_to_cache now self key d) !! key
  = Some {| data := d; timestamp := now |}.
Proof. unfold _set_to_cache. simpl. apply lookup_insert_eq. Qed.

(** C4: a [get] is a hit exactly when the key is stored and less than
    [cache_duration] seconds old; at an age of exactly [cache_duration]
    it is a miss.  A [put] followed by a [get] of the same key at the
    same time, or at any time less than [cache_duration] later, returns
    the stored value; [cache_duration] seconds later, or more, the [get]
    is a miss. *)
Theorem cache_get_hit now self key :
  (forall v, _get_from_cache now self key = Some v <->
             exists entry, cache self !! key = Some entry /\ data entry = v /\
                           now - timestamp entry < cache_duration self) /\
  (forall entry, cache self !! key = Some entry ->
                 now - timestamp entry == cache_duration self ->
                 _get_from_cache now self key = None) /\
  (forall v, 0 < cache_duration self ->
             _get_from_cache now (_set_to_cache now self key v) key = Some v) /\
  (forall v later, later - now < cache_duration self ->
             _get_from_cache later (_set_to_cache now self key v) key = Some v) /\
  (forall v later, cache_duration self <= later - now ->
             _get_from_cache later (_set_to_cache now self key v) key = None).
Proof.
  split; [|split; [|split; [|split]]].
  - intros v. apply get_from_cache_Some.
  - intros entry Hentry Hage. apply get_from_cache_None.
    intros entry' Hentry'. rewrite Hentry in Hentry'. injection Hentry' as <-.
    lra.
  - intros v Httl. apply get_from_cache_Some.
    exists {| data := v; timestamp := now |}.
    split; [apply set_to_cache_lookup|]. split; [reflexivity|]. simpl. lra.
  - intros v later Hage. apply get_from_cache_Some.
    exists {| data := v; timestamp := now |}.
    split; [apply set_to_cache_lookup|]. split; [reflexivity|]. exact Hage.
  - intros v later Hage. apply get_from_cache_None.
    intros entry Hentry. rewrite set_to_cache_lookup in Hentry.
    injection Hentry as <-. exact Hage.
Qed.
End Cache.

(** A fresh fetcher caching a list of symbols at time 1000: a hit at once
    and 299 seconds later, a miss 300 seconds later. *)
Lemma cache_get_hit_witness :
  _get_from_cache 1000 (_set_to_cache 1000 init "all_futures_symbols" ["BTCUSDT"])
                  "all_futures_symbols" = Some ["BTCUSDT"] /\
  _get_from_cache 1299 (_set_to_cache 1000 init "all_futures_symbols" ["BTCUSDT"])
                  "all_futures_symbols" = Some ["BTCUSDT"] /\
  _get_from_cache 1300 (_set_to_cache 1000 init "all_futures_symbols" ["BTCUSDT"])
                  "all_futures_symbols" = None /\
  _get_from_cache 1301 (_set_to_cache 1000 init "all_futures_symbols" ["BTCUSDT"])
                  "all_futures_symbols" = None.
Proof.
  pose proof (cache_get_hit 1000 (@init (list string)) "all_futures_symbols")
    as (_ & _ & Hnow & Hlater & Hmiss).
  pose proof (cache_get_hit
                1300 (_set_to_cache 1000 init "all_futures_symbols" ["BTCUSDT"])
                "all_futures_symbols")
    as (_ & Hboundary & _).
  split; [|split; [|split]].
  - apply Hnow. reflexivity.
  - apply Hlater. reflexivity.
  - apply (Hboundary {| data := ["BTCUSDT"]; timestamp := 1000 |}); reflexivity.
  - apply Hmiss. discriminate.
Defined.

Local Close Scope Q_scope.

Section Invalidate.
Context {V : Type}.
Implicit Types (self : fetcher V) (c : gmap string (cache_entry V)).

(** [del self.cache[key]] for each key of a list. *)
Lemma delete_keys_lookup (keys : list string) c k :
  foldl (fun c key => delete key c) c keys !! k
  = if decide (k ∈ keys) then None else c !! k.
Proof.
  revert c. induction keys as [|key keys IH]; intros c; simpl.
  - reflexivity.
  - rewrite IH. destruct (decide (k ∈ keys)) as [Hin|Hnin].
    + rewrite decide_True by (right; exact Hin). reflexivity.
    + destruct (decide (k = key)) as [->|Hne].
      * rewrite decide_True by left. apply lookup_delete_eq.
      * rewrite decide_False by (intros Hin; inversion Hin; subst; tauto).
        apply lookup_delete_ne. congruence.
Qed.

Lemma delete_keys_size (keys : list string) c :
  NoDup keys -> (forall k, k ∈ keys -> is_Some (c !! k)) ->
  size (foldl (fun c key => delete key c) c keys) + length keys = size c.
Proof.
  revert c. induction keys as [|key keys IH]; intros c Hnd Hin; simpl.
  - lia.
  - inversion Hnd as [|? ? Hnotin Hnd']; subst.
    destruct (Hin key) as [entry Hentry]; [left|].
    pose proof (map_size_delete_Some key c (mk_is_Some _ _ Hentry)) as Hsize.
    pose proof (map_size_ne_0_lookup_2 c key (mk_is_Some _ _ Hentry)) as Hpos.
    assert (IH' : size (foldl (fun c key => delete key c) (delete key c) keys)
                  + length keys = size (delete key c)).
    { apply IH; [exact Hnd'|].
      intros k Hk. rewrite lookup_delete_ne.
      - apply Hin. right. exact Hk.
      - intros ->. tauto. }
    lia.
Qed.

Lemma prefixed_keys (key_prefix : string) c k :
  k ∈ filter (fun k => String.prefix key_prefix k = true) (map_to_list c).*1
  <-> String.prefix key_prefix k = true /\ is_Some (c !! k).
Proof.
  rewrite list_elem_of_filter, list_elem_of_fmap. split.
  - intros (Hp & [k' entry] & -> & Hin). split; [exact Hp|].
    apply elem_of_map_to_list in Hin. eauto.
  - intros (Hp & entry & Hentry). split; [exact Hp|].
    exists (k, entry). split; [reflexivity|].
    apply elem_of_map_to_list. exact Hentry.
Qed.

(** C5: without a prefix [clear_cache] empties the cache and returns
    the number of entries it held; with a prefix it deletes exactly the
    entries whose key starts with the prefix, leaves every other entry
    as it was, and returns the number of entries deleted. *)
Theorem clear_cache_spec self :
  clear_cache self None
  = ({| cache_duration := cache_duration self; cache := ∅ |}, size (cache self)) /\
  (forall key_prefix,
      let self' := (clear_cache self (Some key_prefix)).1 in
      let count := (clear_cache self (Some key_prefix)).2 in
      (forall k, cache self' !! k
                 = if String.prefix key_prefix k then None else cache self !! k) /\
      cache self'
      = filter (fun kv => String.prefix key_prefix kv.1 = false) (cache self) /\
      count
      = size (filter (fun kv => String.prefix key_prefix kv.1 = true) (cache self)) /\
      size (cache self') + count = size (cache self) /\
      cache_duration self' = cache_duration self).
Proof.
  split; [reflexivity|].
  intros key_prefix self' count.
  assert (Hlookup : forall k,
    cache self' !! k = if String.prefix key_prefix k then None else cache self !! k).
  { intros k. unfold self', clear_cache. simpl. rewrite delete_keys_lookup.
    destruct (decide _) as [Hin|Hnin].
    - apply prefixed_keys in Hin. destruct Hin as [-> _]. reflexivity.
    - destruct (String.prefix key_prefix k) eqn:Ep; [|reflexivity].
      destruct (cache self !! k) as [entry|] eqn:Hentry; [|reflexivity].
      exfalso. apply Hnin, prefixed_keys. rewrite Hentry. eauto. }
  assert (Hkept : cache self'
    = filter (fun kv => String.prefix key_prefix kv.1 = false) (cache self)).
  { apply map_eq. intros k. rewrite Hlookup. symmetry.
    destruct (String.prefix key_prefix k) eqn:Ep.
    - apply map_lookup_filter_None. right. intros entry _. simpl. congruence.
    - destruct (cache self !! k) as [entry|] eqn:Hentry.
      + apply map_lookup_filter_Some. auto.
      + apply map_lookup_filter_None. left. exact Hentry. }
  assert (Hsize : size (cache self') + count = size (cache self)).
  { unfold self', count, clear_cache. simpl. apply delete_keys_size.
    - apply NoDup_filter, NoDup_fst_map_to_list.
    - intros k Hk. apply prefixed_keys in Hk. tauto. }
  split; [exact Hlookup|]. split; [exact Hkept|]. split; [|split];
    [|exact Hsize|reflexivity].
  pose proof (map_filter_union_complement
                (fun kv : string * cache_entry V =>
                   String.prefix key_prefix kv.1 = true) (cache self)) as Hunion.
  match type of Hunion with
  | ?kept ∪ ?dropped = _ =>
      assert (Hdisj : size (cache self) = size kept + size dropped)
        by (rewrite <- Hunion at 1;
            apply map_size_disj_union, map_disjoint_filter_complement);
      assert (Hneg : dropped = cache self')
  end.
  { rewrite Hkept. apply map_filter_ext. intros k entry _. simpl.
    destruct (String.prefix key_prefix k); split; congruence. }
  apply (f_equal size) in Hneg. lia.
Qed.
End Invalidate.

Section Stats.
Context {V : Type}.
Implicit Types (self : fetcher V) (entries : list (cache_entry V)).

Lemma count_entries_from now duration entries : forall valid_count expired_count,
  foldl (fun counts entry =>
           let '(valid_count, expired_count) := counts in
           if Qlt_bool (now - timestamp entry) duration
           then (valid_count + 1, expired_count)
           else (valid_count, expired_count + 1))
        (valid_count, expired_count) entries
  = (valid_count + length (filter (fresh now duration) entries),
     expired_count + length (filter (fun e => ¬ fresh now duration e) entries)).
Proof.
  induction entries as [|entry entries IH]; intros valid_count expired_count.
  - rewrite !filter_nil. simpl. f_equal; lia.
  - cbn [foldl].
    destruct (Qlt_bool (now - timestamp entry) duration) eqn:E.
    + rewrite IH, filter_cons_True, filter_cons_False by (unfold fresh; congruence).
      simpl. f_equal; lia.
    + rewrite IH, filter_cons_False, filter_cons_True by (unfold fresh; congruence).
      simpl. f_equal; lia.
Qed.

Lemma count_entries_spec now duration entries :
  count_entries now duration entries
  = (length (filter (fresh now duration) entries),
     length (filter (fun e => ¬ fresh now duration e) entries)).
Proof. unfold count_entries. rewrite count_entries_from. reflexivity. Qed.

(** The number of entries of a map that pass a test on key and value. *)
Lemma size_filter_to_list (P : string * cache_entry V -> Prop)
      `{!forall kv, Decision (P kv)} (c : gmap string (cache_entry V)) :
  size (filter P c) = length (filter P (map_to_list c)).
Proof.
  rewrite map_filter_alt. apply map_size_list_to_map.
  apply (sublist_NoDup _ (map_to_list c).*1).
  - apply NoDup_fst_map_to_list.
  - apply fmap_sublist. apply sublist_filter.
Qed.

Lemma length_filter_snd (P : string * cache_entry V -> Prop)
      (R : cache_entry V -> Prop)
      `{!forall kv, Decision (P kv)} `{!forall e, Decision (R e)}
      (l : list (string * cache_entry V)) :
  (forall kv, kv ∈ l -> P kv <-> R kv.2) ->
  length (filter P l) = length (filter R l.*2).
Proof.
  induction l as [|kv l IH]; intros Hiff; [reflexivity|].
  assert (Hl : forall kv', kv' ∈ l -> P kv' <-> R kv'.2)
    by (intros kv' Hin; apply Hiff; right; exact Hin).
  assert (Hkv : P kv <-> R kv.2) by (apply Hiff; left).
  csimpl. destruct (decide (P kv)) as [Hp|Hp].
  - rewrite !filter_cons_True by tauto.
    simpl. rewrite IH by exact Hl. reflexivity.
  - rewrite !filter_cons_False by tauto.
    apply IH, Hl.
Qed.

Lemma is_cache_valid_entry now self k entry :
  cache self !! k = Some entry ->
  _is_cache_valid now self k = Qlt_bool (now - timestamp entry) (cache_duration self).
Proof. intros H. unfold _is_cache_valid. rewrite H. reflexivity. Qed.

(** C10: the statistics split the stored entries into the valid and the
    expired ones; an entry counts as valid exactly when
    [_is_cache_valid], the test of [get], accepts its key. *)
Theorem cache_stats_partition (now : Q) self :
  total_entries (get_cache_stats now self)
  = valid_entries (get_cache_stats now self)
    + expired_entries (get_cache_stats now self) /\
  total_entries (get_cache_stats now self) = size (cache self) /\
  valid_entries (get_cache_stats now self)
  = size (filter (fun kv => _is_cache_valid now self kv.1 = true) (cache self)) /\
  expired_entries (get_cache_stats now self)
  = size (filter (fun kv => ¬ _is_cache_valid now self kv.1 = true) (cache self)) /\
  (forall k, is_Some (_get_from_cache now self k)
             <-> _is_cache_valid now self k = true).
Proof.
  unfold get_cache_stats. simpl. rewrite count_entries_spec. simpl.
  assert (Hvalid :
    length (filter (fresh now (cache_duration self)) (map_to_list (cache self)).*2)
    = size (filter (fun kv => _is_cache_valid now self kv.1 = true) (cache self))).
  { rewrite size_filter_to_list. symmetry. apply length_filter_snd.
    intros [k entry] Hin. apply elem_of_map_to_list in Hin. simpl.
    rewrite (is_cache_valid_entry _ _ _ _ Hin). reflexivity. }
  assert (Hexpired :
    length (filter (fun e => ¬ fresh now (cache_duration self) e)
                   (map_to_list (cache self)).*2)
    = size (filter (fun kv => ¬ _is_cache_valid now self kv.1 = true) (cache self))).
  { rewrite size_filter_to_list. symmetry. apply length_filter_snd.
    intros [k entry] Hin. apply elem_of_map_to_list in Hin. simpl.
    rewrite (is_cache_valid_entry _ _ _ _ Hin). reflexivity. }
  assert (Hsplit :
    length (filter (fresh now (cache_duration self)) (map_to_list (cache self)).*2)
    + length (filter (fun e => ¬ fresh now (cache_duration self) e)
                     (map_to_list (cache self)).*2)
    = size (cache self)).
  { rewrite <- length_app, filter_app_complement, length_fmap.
    apply length_map_to_list. }
  split; [lia|]. split; [reflexivity|]. split; [exact Hvalid|].
  split; [exact Hexpired|].
  intros k. unfold _get_from_cache.
  destruct (_is_cache_valid now self k) eqn:E.
  - apply is_cache_valid_iff in E. destruct E as (entry & -> & _).
    simpl. split; eauto.
  - split; [intros [v Hv]; discriminate | discriminate].
Qed.
End Stats.

End CacheFacts.

(** ** Bollinger bands *)

Module BollingerFacts.
Import Num NumFacts Indicators.
Local Open Scope Q_scope.

Lemma Qsum_squares_nonneg (m : Q) xs :
  0 <= Qsum ((fun x => (x - m) * (x - m)) <$> xs).
Proof.
  apply Qsum_nonneg. apply Forall_fmap, Forall_forall. intros x _. unfold compose. set (y := x - m). nra.
Qed.

(** The variance of a non-empty window is not negative. *)
Lemma variance_nonneg xs : xs <> [] -> 0 <= variance xs.
Proof.
  intros Hne. unfold variance, mean at 1. rewrite length_fmap.
  apply Qdiv_nonneg; [apply Qsum_squares_nonneg|].
  apply Qnat_pos. destruct xs; [congruence|simpl; lia].
Qed.

Lemma last_n_nonempty {A} (n : nat) (xs : list A) :
  xs <> [] -> (n <= length xs)%nat -> last_n n xs <> [].
Proof.
  intros Hne Hn E. unfold last_n in E. destruct n as [|n]; [congruence|].
  apply (f_equal length) in E. rewrite length_drop in E. simpl in E. lia.
Qed.

Lemma sqrt_floor_nonneg x : 0 <= sqrt_floor x.
Proof.
  unfold sqrt_floor, Qle. cbn [Qnum Qden]. pose proof (Z.sqrt_nonneg (Qfloor (x * 1000000000000))).
  lia.
Qed.

(** C7: for a non-empty series of at least [period] prices the bands are
    ordered, [lower <= middle <= upper], for a multiplier that is not
    negative, and strictly ordered for a positive multiplier when the
    standard deviation of the window is not zero; the middle band is the
    mean of the window.  With fewer prices the result is the all-zero
    bundle.  The square root [sqrt] of [np.std] is any function that maps
    non-negative numbers to non-negative numbers. *)
Theorem bollinger_bands_ordered (sqrt : Q -> Q) (prices : list Q)
        (period : nat) (std_dev : Q) :
  (forall x, 0 <= x -> 0 <= sqrt x) ->
  (prices <> [] -> (period <= length prices)%nat ->
   middle (calculate_bollinger_bands sqrt prices period std_dev)
   = mean (last_n period prices) /\
   (0 <= std_dev ->
    lower (calculate_bollinger_bands sqrt prices period std_dev)
    <= middle (calculate_bollinger_bands sqrt prices period std_dev) /\
    middle (calculate_bollinger_bands sqrt prices period std_dev)
    <= upper (calculate_bollinger_bands sqrt prices period std_dev)) /\
   (0 < std_dev -> ~ std sqrt (last_n period prices) == 0 ->
    lower (calculate_bollinger_bands sqrt prices period std_dev)
    < middle (calculate_bollinger_bands sqrt prices period std_dev) /\
    middle (calculate_bollinger_bands sqrt prices period std_dev)
    < upper (calculate_bollinger_bands sqrt prices period std_dev))) /\
  ((length prices < period)%nat ->
   calculate_bollinger_bands sqrt prices period std_dev
   = {| upper := 0; middle := 0; lower := 0 |}).
Proof.
  intros Hsqrt. unfold calculate_bollinger_bands. split.
  - intros Hne Hlen.
    destruct (Nat.ltb_spec (length prices) period); [lia|]. simpl.
    assert (Hstd : 0 <= std sqrt (last_n period prices)).
    { unfold std. apply Hsqrt, variance_nonneg, last_n_nonempty; assumption. }
    split; [reflexivity|]. split.
    + intros Hk. split; nra.
    + intros Hk Hzero.
      assert (0 < std sqrt (last_n period prices)).
      { apply Qle_lteq in Hstd. destruct Hstd as [Hlt|Heq]; [exact Hlt|].
        exfalso. apply Hzero. symmetry. exact Heq. }
      split; nra.
  - intros Hlen.
    destruct (Nat.ltb_spec (length prices) period); [reflexivity|lia].
Qed.

(** The unit test's prices with [period = 5] and the default multiplier,
    and its three-price series. *)
Lemma bollinger_bands_ordered_witness :
  (lower (calculate_bollinger_bands
            sqrt_floor [100; 101; 102; 103; 104; 105; 106; 107; 108; 109] 5 2)
   < middle (calculate_bollinger_bands
               sqrt_floor [100; 101; 102; 103; 104; 105; 106; 107; 108; 109] 5 2) /\
   middle (calculate_bollinger_bands
             sqrt_floor [100; 101; 102; 103; 104; 105; 106; 107; 108; 109] 5 2)
   < upper (calculate_bollinger_bands
              sqrt_floor [100; 101; 102; 103; 104; 105; 106; 107; 108; 109] 5 2)) /\
  calculate_bollinger_bands sqrt_floor [100; 101; 102] 5 2
  = {| upper := 0; middle := 0; lower := 0 |}.
Proof.
  split.
  - refine (proj2 (proj2 (proj1 (bollinger_bands_ordered
              sqrt_floor [100; 101; 102; 103; 104; 105; 106; 107; 108; 109] 5 2
              (fun x _ => sqrt_floor_nonneg x)) _ _)) _ _).
    + discriminate.
    + simpl. lia.
    + reflexivity.
    + apply Qeq_bool_false. vm_compute. reflexivity.
  - refine (proj2 (bollinger_bands_ordered sqrt_floor [100; 101; 102] 5 2
                     (fun x _ => sqrt_floor_nonneg x)) _).
    simpl. lia.
Defined.

End BollingerFacts.

(** ** Processing one symbol *)

Module ProcessorFacts.
Import Num NumFacts DataProcessor.
Local Open Scope Q_scope.

(** C9: with no candle, or fewer than 10 candles, [process_symbol]
    returns the placeholder, whatever the detector, the EMA periods and
    the clock are. *)
Theorem process_symbol_insufficient (sqrt : Q -> Q) (now : Q) (self : processor)
        (symbol : string) (klines : list kline) :
  (length klines < 10)%nat ->
  process_symbol sqrt now self symbol klines
  = Placeholder symbol "Insufficient data" SignalDetector.none 0.
Proof.
  intros Hlen. unfold process_symbol. destruct klines as [|k klines]; [reflexivity|].
  destruct (Nat.ltb_spec (length (k :: klines)) 10); [reflexivity|lia].
Qed.

(** No candle at all, and the three rising candles. *)
Lemma process_symbol_insufficient_witness :
  process_symbol Indicators.sqrt_floor 1000 default_processor "BTCUSDT" []
  = Placeholder "BTCUSDT" "Insufficient data" SignalDetector.none 0 /\
  process_symbol Indicators.sqrt_floor 1000 default_processor "BTCUSDT" rising_candles
  = Placeholder "BTCUSDT" "Insufficient data" SignalDetector.none 0.
Proof.
  split.
  - apply (process_symbol_insufficient Indicators.sqrt_floor 1000 default_processor
             "BTCUSDT" []). simpl. lia.
  - apply (process_symbol_insufficient Indicators.sqrt_floor 1000 default_processor
             "BTCUSDT" rising_candles). simpl. lia.
Defined.

End ProcessorFacts.

(** ** Trend classification *)

Module TrendFacts.
Import Num NumFacts SignalDetector.
Local Open Scope Q_scope.

Lemma adjacent_cons (R : Q -> Q -> Prop) x y rest :
  adjacent R (x :: y :: rest) <-> R x y /\ adjacent R (y :: rest).
Proof.
  split.
  - intros H. split.
    + apply (H 0%nat); reflexivity.
    + intros i a b Ha Hb. apply (H (S i)); assumption.
  - intros [Hxy H] [|i] a b Ha Hb.
    + simpl in Ha, Hb. congruence.
    + apply (H i); assumption.
Qed.

Lemma adjacent_short (R : Q -> Q -> Prop) x : adjacent R [] /\ adjacent R [x].
Proof.
  split.
  - intros i a b Ha. discriminate.
  - intros [|i] a b Ha Hb; discriminate.
Qed.

(** The positions built from a list of items with distinct periods. *)
Lemma build_positions_lookup latest_close (items : list (nat * Q)) :
  NoDup items.*1 ->
  forall p e,
    build_positions latest_close items !! p = Some e <->
    exists v, (p, v) ∈ items /\ Qeq_bool v 0 = false /\
              e = position_of latest_close v.
Proof.
  induction items as [|[q v] items IH] using rev_ind; intros Hnd p e.
  - unfold build_positions. simpl. rewrite lookup_empty. split; [discriminate|].
    intros (v & Hin & _). inversion Hin.
  - rewrite fmap_app in Hnd. apply NoDup_app in Hnd.
    destruct Hnd as (Hnd & Hfresh & _).
    assert (Hq : forall v', (q, v') ∉ items).
    { intros v' Hin. apply (Hfresh q).
      - apply list_elem_of_fmap. exists (q, v'). auto.
      - simpl. left. }
    unfold build_positions. rewrite foldl_snoc. fold (build_positions latest_close items).
    setoid_rewrite elem_of_app. setoid_rewrite list_elem_of_singleton.
    destruct (Qeq_bool v 0) eqn:Ev.
    + rewrite (IH Hnd). split.
      * intros (v' & Hin & Hnz & He). eauto.
      * intros (v' & [Hin|Heq] & Hnz & He); [eauto|].
        injection Heq as -> ->. congruence.
    + destruct (decide (p = q)) as [->|Hne].
      * rewrite lookup_insert_eq. split.
        -- intros H. injection H as <-. eauto.
        -- intros (v' & [Hin|Heq] & Hnz & ->).
           ++ exfalso. apply (Hq v'), Hin.
           ++ injection Heq as ->. reflexivity.
      * rewrite lookup_insert_ne by congruence. rewrite (IH Hnd). split.
        -- intros (v' & Hin & Hnz & He). eauto.
        -- intros (v' & [Hin|Heq] & Hnz & He); [eauto|]. congruence.
Qed.

Lemma sorted_items_elem_of (d : gmap nat Q) p v :
  (p, v) ∈ sorted_items d <-> d !! p = Some v.
Proof.
  unfold sorted_items. rewrite merge_sort_Permutation. apply elem_of_map_to_list.
Qed.

Lemma sorted_items_NoDup (d : gmap nat Q) : NoDup (sorted_items d).*1.
Proof.
  unfold sorted_items. rewrite merge_sort_Permutation. apply NoDup_fst_map_to_list.
Qed.

(** Zero-valued EMAs have no position; every other EMA has the position
    of its value. *)
Lemma ema_positions_lookup latest_close (ema_values : gmap nat Q) p :
  build_positions latest_close (sorted_items ema_values) !! p
  = match ema_values !! p with
    | Some v => if Qeq_bool v 0 then None else Some (position_of latest_close v)
    | None => None
    end.
Proof.
  pose proof (build_positions_lookup latest_close _ (sorted_items_NoDup ema_values) p)
    as Hiff.
  destruct (build_positions latest_close (sorted_items ema_values) !! p)
    as [e|] eqn:E.
  - destruct (proj1 (Hiff e) eq_refl) as (v & Hin & Hnz & ->).
    apply sorted_items_elem_of in Hin. rewrite Hin, Hnz. reflexivity.
  - destruct (ema_values !! p) as [v|] eqn:Ev; [|reflexivity].
    destruct (Qeq_bool v 0) eqn:Hnz; [reflexivity|].
    assert (None = Some (position_of latest_close v)) as Habs; [|discriminate].
    apply Hiff. exists v. rewrite sorted_items_elem_of. auto.
Qed.

Local Close Scope Q_scope.

Lemma StronglySorted_le_lt (ks : list nat) :
  StronglySorted Nat.le ks -> NoDup ks -> StronglySorted Nat.lt ks.
Proof.
  induction 1 as [|k ks Hs IH Hall]; intros Hnd; [constructor|].
  inversion Hnd as [|? ? Hnotin Hnd']; subst.
  constructor; [apply IH, Hnd'|].
  apply Forall_forall. intros q Hq.
  pose proof (proj1 (Forall_forall _ _) Hall q Hq) as Hle.
  assert (k <> q) by (intros ->; tauto).
  unfold Nat.lt. lia.
Qed.

(** The sorted keys of a dict: strictly ascending, and exactly its keys. *)
Lemma sorted_keys_spec {A} (d : gmap nat A) :
  StronglySorted Nat.lt (sorted_keys d) /\
  forall p, p ∈ sorted_keys d <-> is_Some (d !! p).
Proof.
  unfold sorted_keys. split.
  - apply StronglySorted_le_lt.
    + apply (StronglySorted_merge_sort Nat.le).
    + rewrite merge_sort_Permutation. apply NoDup_fst_map_to_list.
  - intros p. rewrite merge_sort_Permutation, list_elem_of_fmap. split.
    + intros ([p' x] & -> & Hin). apply elem_of_map_to_list in Hin. eauto.
    + intros [x Hx]. exists (p, x). split; [reflexivity|].
      apply elem_of_map_to_list, Hx.
Qed.

Lemma positions_of_cons positions p e ks :
  positions !! p = Some e ->
  positions_of positions (p :: ks) = position e :: positions_of positions ks.
Proof. intros H. unfold positions_of. simpl. rewrite H. reflexivity. Qed.

Lemma values_of_cons positions p e ks :
  positions !! p = Some e ->
  values_of positions (p :: ks) = value e :: values_of positions ks.
Proof. intros H. unfold values_of. simpl. rewrite H. reflexivity. Qed.

Lemma position_eqb_iff a b : position_eqb a b = true <-> a = b.
Proof. destruct a, b; simpl; split; congruence. Qed.

(** [all(ema_positions[p]['position'] == label for p in periods)] *)
Lemma all_positions positions (ks : list nat) label :
  (forall p, p ∈ ks -> is_Some (positions !! p)) ->
  forallb (fun x => position_eqb x label) (positions_of positions ks) = true <->
  forall p e, p ∈ ks -> positions !! p = Some e -> position e = label.
Proof.
  induction ks as [|k ks IH]; intros Hdom.
  - split; [|reflexivity]. intros _ p e Hin. inversion Hin.
  - destruct (Hdom k) as [ek Hk]; [left|].
    rewrite (positions_of_cons _ _ _ _ Hk). simpl.
    rewrite andb_true_iff, position_eqb_iff, IH
      by (intros p Hp; apply Hdom; right; exact Hp).
    split.
    + intros [Hlabel Hrest] p e Hin He. apply elem_of_cons in Hin.
      destruct Hin as [->|Hin]; [congruence|]. apply (Hrest p); assumption.
    + intros H. split.
      * apply (H k); [left|exact Hk].
      * intros p e Hin He. apply (H p); [right; exact Hin|exact He].
Qed.

(** On periods in ascending order, comparing each value with the next one
    is comparing each value with all the later ones. *)
Lemma adjacent_values (R : Q -> Q -> Prop) `{!Transitive R} positions (ks : list nat) :
  StronglySorted Nat.lt ks ->
  (forall p, p ∈ ks -> is_Some (positions !! p)) ->
  adjacent R (values_of positions ks) <->
  forall p q ep eq,
    p ∈ ks -> q ∈ ks -> positions !! p = Some ep -> positions !! q = Some eq ->
    p < q -> R (value ep) (value eq).
Proof.
  induction 1 as [|k ks Hs IH Hall]; intros Hdom.
  - split; [|intros _; apply adjacent_short; exact 0%Q].
    intros _ p q ep eq Hin. inversion Hin.
  - destruct (Hdom k) as [ek Hk]; [left|].
    assert (Hdom' : forall p, p ∈ ks -> is_Some (positions !! p))
      by (intros p Hp; apply Hdom; right; exact Hp).
    specialize (IH Hdom').
    rewrite (values_of_cons _ _ _ _ Hk).
    destruct ks as [|k' ks'].
    + split; [|intros _; apply adjacent_short].
      intros _ p q ep eq Hp Hq _ _ Hlt.
      apply list_elem_of_singleton in Hp, Hq. lia.
    + destruct (Hdom' k') as [ek' Hk']; [left|].
      rewrite (values_of_cons _ _ _ _ Hk') in *.
      rewrite adjacent_cons, IH.
      assert (Hkk' : k < k').
      { apply (proj1 (Forall_forall _ _) Hall). left. }
      split.
      * intros [Hfirst Hrest] p q ep eq Hp Hq Hep Heq Hlt.
        apply elem_of_cons in Hp, Hq.
        destruct Hp as [->|Hp], Hq as [->|Hq].
        -- lia.
        -- assert (ep = ek) by congruence. subst ep.
           apply elem_of_cons in Hq. destruct Hq as [->|Hq].
           ++ assert (eq = ek') by congruence. subst eq. exact Hfirst.
           ++ transitivity (value ek'); [exact Hfirst|].
              apply (Hrest k' q); [left|right; exact Hq|exact Hk'|exact Heq|].
              inversion Hs as [|? ? _ Hall']; subst.
              apply (proj1 (Forall_forall _ _) Hall'), Hq.
        -- pose proof (proj1 (Forall_forall _ _) Hall p Hp). lia.
        -- apply (Hrest p q); assumption.
      * intros H. split.
        -- apply (H k k'); [left|right; left|exact Hk|exact Hk'|exact Hkk'].
        -- intros p q ep eq Hp Hq. apply H; right; assumption.
Qed.

Local Open Scope Q_scope.

Lemma all_above_test positions :
  forallb (fun x => position_eqb x above)
          (positions_of positions (sorted_keys positions)) = true
  <-> all_above positions.
Proof.
  destruct (sorted_keys_spec positions) as [_ Hkeys].
  rewrite all_positions by (intros p Hp; apply Hkeys, Hp).
  unfold all_above. split.
  - intros H p e He. apply (H p); [apply Hkeys; eauto|exact He].
  - intros H p e _ He. apply (H p), He.
Qed.

Lemma all_below_test positions :
  forallb (fun x => position_eqb x below)
          (positions_of positions (sorted_keys positions)) = true
  <-> all_below positions.
Proof.
  destruct (sorted_keys_spec positions) as [_ Hkeys].
  rewrite all_positions by (intros p Hp; apply Hkeys, Hp).
  unfold all_below. split.
  - intros H p e He. apply (H p); [apply Hkeys; eauto|exact He].
  - intros H p e _ He. apply (H p), He.
Qed.

Lemma falling_test positions :
  _is_strictly_decreasing (values_of positions (sorted_keys positions)) = true
  <-> values_falling positions.
Proof.
  destruct (sorted_keys_spec positions) as [Hsorted Hkeys].
  rewrite SignalFacts.is_strictly_decreasing_iff. unfold strictly_decreasing.
  rewrite (adjacent_values (fun x y => y < x)
             (Transitive0 := fun x y z H1 H2 => Qlt_trans _ _ _ H2 H1)
             positions _ Hsorted)
    by (intros p Hp; apply Hkeys, Hp).
  unfold values_falling. split.
  - intros H p q ep eq Hp Hq. apply H; try assumption; apply Hkeys; eauto.
  - intros H p q ep eq _ _. apply H.
Qed.

Lemma rising_test positions :
  _is_strictly_increasing (values_of positions (sorted_keys positions)) = true
  <-> values_rising positions.
Proof.
  destruct (sorted_keys_spec positions) as [Hsorted Hkeys].
  rewrite SignalFacts.is_strictly_increasing_iff. unfold strictly_increasing.
  rewrite (adjacent_values Qlt (Transitive0 := Qlt_trans) positions _ Hsorted)
    by (intros p Hp; apply Hkeys, Hp).
  unfold values_rising. split.
  - intros H p q ep eq Hp Hq. apply H; try assumption; apply Hkeys; eauto.
  - intros H p q ep eq _ _. apply H.
Qed.

(** A dict of at least two positions has two of them at different
    periods. *)
Lemma two_positions (positions : gmap nat ema_position) :
  (2 <= size positions)%nat ->
  exists p q ep eq,
    (p < q)%nat /\ positions !! p = Some ep /\ positions !! q = Some eq.
Proof.
  intros Hsize.
  destruct (sorted_keys_spec positions) as [Hsorted Hkeys].
  assert (Hlen : length (sorted_keys positions) = size positions).
  { unfold sorted_keys. rewrite merge_sort_Permutation, length_fmap.
    apply length_map_to_list. }
  destruct (sorted_keys positions) as [|p [|q ks]]; simpl in Hlen; try lia.
  destruct (proj1 (Hkeys p)) as [ep Hp]; [left|].
  destruct (proj1 (Hkeys q)) as [eq Hq]; [right; left|].
  exists p, q, ep, eq. split; [|auto].
  inversion Hsorted as [|? ? _ Hall]; subst.
  apply (proj1 (Forall_forall _ _) Hall). left.
Qed.

(** The classification, read on the dict of positions that
    [analyze_trend] builds. *)
Lemma analyze_trend_on_positions (klines : list kline)
        (ema_values : gmap nat Q) (k : kline) :
  last klines = Some k ->
  price (analyze_trend klines ema_values) = Some (close k) /\
  (forall p,
      ema_positions (analyze_trend klines ema_values) !! p
      = match ema_values !! p with
        | Some v => if Qeq_bool v 0 then None else Some (position_of (close k) v)
        | None => None
        end) /\
  (forall p e,
      ema_positions (analyze_trend klines ema_values) !! p = Some e ->
      diff_percent e = ((close k - value e) / value e) * 100 /\
      (position e = above <-> 0 < diff_percent e)) /\
  ((size (ema_positions (analyze_trend klines ema_values)) < 2)%nat ->
   trend (analyze_trend klines ema_values) = neutral) /\
  ((2 <= size (ema_positions (analyze_trend klines ema_values)))%nat ->
   (all_above (ema_positions (analyze_trend klines ema_values)) ->
    trend (analyze_trend klines ema_values) = strong_bullish) /\
   (all_below (ema_positions (analyze_trend klines ema_values)) ->
    trend (analyze_trend klines ema_values) = strong_bearish) /\
   (~ all_above (ema_positions (analyze_trend klines ema_values)) ->
    ~ all_below (ema_positions (analyze_trend klines ema_values)) ->
    (values_falling (ema_positions (analyze_trend klines ema_values)) ->
     trend (analyze_trend klines ema_values) = bullish) /\
    (values_rising (ema_positions (analyze_trend klines ema_values)) ->
     trend (analyze_trend klines ema_values) = bearish) /\
    (~ values_falling (ema_positions (analyze_trend klines ema_values)) ->
     ~ values_rising (ema_positions (analyze_trend klines ema_values)) ->
     trend (analyze_trend klines ema_values) = neutral))).
Proof.
  intros Hlast. unfold analyze_trend. rewrite Hlast. cbn [price ema_positions trend].
  set (positions := build_positions (close k) (sorted_items ema_values)).
  assert (Hlookup : forall p,
    positions !! p
    = match ema_values !! p with
      | Some v => if Qeq_bool v 0 then None else Some (position_of (close k) v)
      | None => None
      end) by (intros p; apply ema_positions_lookup).
  split; [reflexivity|]. split; [exact Hlookup|]. split.
  { intros p e He. rewrite Hlookup in He.
    destruct (ema_values !! p) as [v|]; [|discriminate].
    destruct (Qeq_bool v 0); [discriminate|].
    injection He as <-. unfold position_of. cbn [diff_percent value position].
    split; [reflexivity|].
    destruct (Qlt_bool 0 _) eqn:E.
    - apply Qlt_bool_iff in E. tauto.
    - apply Qlt_bool_false in E. split; [discriminate|]. intros H. lra. }
  split.
  { intros Hsize.
    destruct (Nat.leb_spec 2 (size positions)); [lia|reflexivity]. }
  intros Hsize.
  destruct (Nat.leb_spec 2 (size positions)) as [_|]; [|lia].
  destruct (two_positions positions Hsize) as (p & q & ep & eq & Hpq & Hp & Hq).
  destruct (forallb _ (positions_of positions (sorted_keys positions))) eqn:Ea.
  - apply all_above_test in Ea.
    split; [reflexivity|]. split; [|tauto].
    intros Hb. pose proof (Ea p ep Hp). pose proof (Hb p ep Hp). congruence.
  - assert (Hna : ~ all_above positions).
    { intros Ha. apply all_above_test in Ha. congruence. }
    split; [tauto|].
    destruct (forallb (fun x => position_eqb x below) _) eqn:Eb.
    + apply all_below_test in Eb. split; [reflexivity|tauto].
    + assert (Hnb : ~ all_below positions).
      { intros Hb. apply all_below_test in Hb. congruence. }
      split; [tauto|]. intros _ _.
      destruct (_is_strictly_decreasing _) eqn:Ef.
      * apply falling_test in Ef. split; [reflexivity|]. split; [|tauto].
        intros Hr. pose proof (Ef p q ep eq Hp Hq Hpq).
        pose proof (Hr p q ep eq Hp Hq Hpq). lra.
      * assert (Hnf : ~ values_falling positions).
        { intros Hf. apply falling_test in Hf. congruence. }
        split; [tauto|].
        destruct (_is_strictly_increasing _) eqn:Er.
        -- split; [reflexivity|]. apply rising_test in Er. tauto.
        -- assert (Hnr : ~ values_rising positions).
           { intros Hr. apply rising_test in Hr. congruence. }
           split; [tauto|reflexivity].
Qed.

(** The label of a position, on the difference in percent; for a positive
    EMA it says on which side of the EMA the close is. *)
Lemma position_of_label latest_close v :
  value (position_of latest_close v) = v /\
  diff_percent (position_of latest_close v) = ((latest_close - v) / v) * 100 /\
  (position (position_of latest_close v) = above <->
   0 < ((latest_close - v) / v) * 100) /\
  (position (position_of latest_close v) = below <->
   ((latest_close - v) / v) * 100 <= 0).
Proof.
  unfold position_of. cbn [value diff_percent position].
  split; [reflexivity|]. split; [reflexivity|].
  destruct (Qlt_bool 0 _) eqn:E.
  - apply Qlt_bool_iff in E. split; [tauto|]. split; [discriminate|lra].
  - apply Qlt_bool_false in E. split; [|tauto]. split; [discriminate|lra].
Qed.

Lemma diff_percent_sign latest_close v :
  0 < v -> (0 < ((latest_close - v) / v) * 100 <-> v < latest_close).
Proof.
  intros Hv.
  assert (Hinv : 0 < / v) by (apply Qinv_lt_0_compat, Hv).
  unfold Qdiv. split; intros H; [|nra].
  destruct (Qlt_le_dec v latest_close) as [Hlt|Hle]; [exact Hlt|]. nra.
Qed.

Lemma positions_counted latest_close (ema_values : gmap nat Q) p e :
  build_positions latest_close (sorted_items ema_values) !! p = Some e <->
  exists v, counted ema_values p v /\ e = position_of latest_close v.
Proof.
  rewrite ema_positions_lookup. unfold counted.
  destruct (ema_values !! p) as [v|] eqn:E.
  - destruct (Qeq_bool v 0) eqn:Ez.
    + split; [discriminate|]. intros (v' & [Hv Hnz] & _).
      injection Hv as <-. apply Qeq_bool_iff in Ez. tauto.
    + apply Qeq_bool_false in Ez. split.
      * intros H. injection H as <-. eauto.
      * intros (v' & [Hv _] & ->). injection Hv as <-. reflexivity.
  - split; [discriminate|]. intros (v' & [Hv _] & _). discriminate.
Qed.

Lemma all_above_counted latest_close (ema_values : gmap nat Q) :
  all_above (build_positions latest_close (sorted_items ema_values)) <->
  close_above_all latest_close ema_values.
Proof.
  unfold all_above, close_above_all. split.
  - intros H p v Hc.
    apply (position_of_label latest_close v), (H p).
    apply positions_counted. eauto.
  - intros H p e He. apply positions_counted in He. destruct He as (v & Hc & ->).
    apply position_of_label, (H p), Hc.
Qed.

Lemma all_below_counted latest_close (ema_values : gmap nat Q) :
  all_below (build_positions latest_close (sorted_items ema_values)) <->
  close_above_none latest_close ema_values.
Proof.
  unfold all_below, close_above_none. split.
  - intros H p v Hc.
    apply (position_of_label latest_close v), (H p).
    apply positions_counted. eauto.
  - intros H p e He. apply positions_counted in He. destruct He as (v & Hc & ->).
    apply position_of_label, (H p), Hc.
Qed.

Lemma values_falling_counted latest_close (ema_values : gmap nat Q) :
  values_falling (build_positions latest_close (sorted_items ema_values)) <->
  emas_falling ema_values.
Proof.
  unfold values_falling, emas_falling. split.
  - intros H p q v w Hp Hq Hpq.
    apply (H p q (position_of latest_close v) (position_of latest_close w));
      [apply positions_counted; eauto..|exact Hpq].
  - intros H p q ep eq Hp Hq Hpq.
    apply positions_counted in Hp, Hq.
    destruct Hp as (v & Hv & ->), Hq as (w & Hw & ->).
    apply (H p q v w Hv Hw Hpq).
Qed.

Lemma values_rising_counted latest_close (ema_values : gmap nat Q) :
  values_rising (build_positions latest_close (sorted_items ema_values)) <->
  emas_rising ema_values.
Proof.
  unfold values_rising, emas_rising. split.
  - intros H p q v w Hp Hq Hpq.
    apply (H p q (position_of latest_close v) (position_of latest_close w));
      [apply positions_counted; eauto..|exact Hpq].
  - intros H p q ep eq Hp Hq Hpq.
    apply positions_counted in Hp, Hq.
    destruct Hp as (v & Hv & ->), Hq as (w & Hw & ->).
    apply (H p q v w Hv Hw Hpq).
Qed.

(** At least two positions: two EMAs of different periods count. *)
Lemma two_counted latest_close (ema_values : gmap nat Q) :
  (2 <= size (build_positions latest_close (sorted_items ema_values)))%nat <->
  exists p q v w, p <> q /\ counted ema_values p v /\ counted ema_values q w.
Proof.
  split.
  - intros Hsize.
    destruct (two_positions _ Hsize) as (p & q & ep & eq & Hpq & Hp & Hq).
    apply positions_counted in Hp, Hq.
    destruct Hp as (v & Hv & _), Hq as (w & Hw & _).
    exists p, q, v, w. split; [lia|auto].
  - intros (p & q & v & w & Hpq & Hv & Hw).
    set (positions := build_positions latest_close (sorted_items ema_values)).
    assert (Hp : positions !! p = Some (position_of latest_close v))
      by (apply positions_counted; eauto).
    assert (Hq : positions !! q = Some (position_of latest_close w))
      by (apply positions_counted; eauto).
    assert (Hrest : size (delete p positions) <> 0%nat).
    { apply (map_size_ne_0_lookup_2 _ q).
      rewrite lookup_delete_ne by exact Hpq. rewrite Hq. eauto. }
    rewrite map_size_delete_Some in Hrest by (rewrite Hp; eauto). lia.
Qed.

(** C8, in terms of what [analyze_trend] is given.  For a non-empty
    candle list the price is the latest close; an EMA has a position
    exactly when its value is not zero, and the position records that
    value, the difference in percent [(close - ema) / ema * 100] and the
    label [above] when this difference is positive, [below] otherwise: for
    a positive EMA, [above] says that the close is above the EMA.  With at
    least two EMAs that count the trend is [strong_bullish] when the close
    is above every one of them, [strong_bearish] when it is above none,
    else [bullish] when the EMA values fall as the period grows, [bearish]
    when they rise, and [neutral] otherwise; with fewer than two it is
    [neutral]. *)
Theorem analyze_trend_classification (klines : list kline)
        (ema_values : gmap nat Q) (k : kline) :
  last klines = Some k ->
  price (analyze_trend klines ema_values) = Some (close k) /\
  (forall p,
      (ema_values !! p = None \/ exists v, ema_values !! p = Some v /\ v == 0) ->
      ema_positions (analyze_trend klines ema_values) !! p = None) /\
  (forall p v,
      counted ema_values p v ->
      exists e,
        ema_positions (analyze_trend klines ema_values) !! p = Some e /\
        value e = v /\
        diff_percent e = ((close k - v) / v) * 100 /\
        (position e = above <-> 0 < ((close k - v) / v) * 100) /\
        (position e = below <-> ((close k - v) / v) * 100 <= 0) /\
        (0 < v -> (position e = above <-> v < close k))) /\
  ((forall p q v w, counted ema_values p v -> counted ema_values q w -> p = q) ->
   trend (analyze_trend klines ema_values) = neutral) /\
  ((exists p q v w, p <> q /\ counted ema_values p v /\ counted ema_values q w) ->
   (close_above_all (close k) ema_values ->
    trend (analyze_trend klines ema_values) = strong_bullish) /\
   (close_above_none (close k) ema_values ->
    trend (analyze_trend klines ema_values) = strong_bearish) /\
   (~ close_above_all (close k) ema_values ->
    ~ close_above_none (close k) ema_values ->
    (emas_falling ema_values ->
     trend (analyze_trend klines ema_values) = bullish) /\
    (emas_rising ema_values ->
     trend (analyze_trend klines ema_values) = bearish) /\
    (~ emas_falling ema_values -> ~ emas_rising ema_values ->
     trend (analyze_trend klines ema_values) = neutral))).
Proof.
  intros Hlast.
  destruct (analyze_trend_on_positions klines ema_values k Hlast)
    as (Hprice & _ & _ & Hfew & Hmany).
  assert (Hpos : ema_positions (analyze_trend klines ema_values)
                 = build_positions (close k) (sorted_items ema_values)).
  { unfold analyze_trend. rewrite Hlast. reflexivity. }
  rewrite Hpos in *.
  split; [exact Hprice|]. split; [|split; [|split]].
  - intros p Hp. rewrite ema_positions_lookup.
    destruct Hp as [->|(v & -> & Hz)]; [reflexivity|].
    apply Qeq_bool_iff in Hz. rewrite Hz. reflexivity.
  - intros p v Hc. exists (position_of (close k) v).
    split; [apply positions_counted; eauto|].
    destruct (position_of_label (close k) v) as (Hv & Hd & Ha & Hb).
    split; [exact Hv|]. split; [exact Hd|]. split; [exact Ha|]. split; [exact Hb|].
    intros Hv0. rewrite Ha. apply diff_percent_sign, Hv0.
  - intros Hone. apply Hfew.
    destruct (Nat.lt_ge_cases
                (size (build_positions (close k) (sorted_items ema_values))) 2)
      as [Hlt|Hge]; [exact Hlt|].
    apply two_counted in Hge. destruct Hge as (p & q & v & w & Hpq & Hv & Hw).
    exfalso. apply Hpq. exact (Hone p q v w Hv Hw).
  - intros Htwo. apply (two_counted (close k)) in Htwo.
    destruct (Hmany Htwo) as (Ha & Hb & Hmixed).
    rewrite all_above_counted in Ha, Hmixed.
    rewrite all_below_counted in Hb, Hmixed.
    rewrite values_falling_counted, values_rising_counted in Hmixed.
    split; [exact Ha|]. split; [exact Hb|exact Hmixed].
Qed.

(** The EMAs of a dict of two. *)
Lemma counted_two (p q : nat) (x y : Q) r v :
  counted {[p := x; q := y]} r v -> (r = p /\ v = x) \/ (r = q /\ v = y).
Proof.
  intros [Hr _]. apply lookup_insert_Some in Hr.
  destruct Hr as [[<- <-]|[_ Hr]]; [auto|].
  apply lookup_singleton_Some in Hr. destruct Hr as [<- <-]. auto.
Qed.

(** The rising candles (latest close 102): against a zero EMA, which has
    no position, the trend is neutral; the close above the EMAs 100 and
    99 is strongly bullish; between the EMAs 100 and 105, with the EMA
    values rising with the period, it is bearish. *)
Lemma analyze_trend_classification_witness :
  price (analyze_trend rising_candles {[20%nat := 0; 60%nat := 100]}) = Some 102 /\
  ema_positions (analyze_trend rising_candles {[20%nat := 0; 60%nat := 100]}) !! 20%nat
  = None /\
  trend (analyze_trend rising_candles {[20%nat := 0; 60%nat := 100]}) = neutral /\
  trend (analyze_trend rising_candles {[20%nat := 100; 60%nat := 99]}) = strong_bullish /\
  trend (analyze_trend rising_candles {[20%nat := 100; 60%nat := 105]}) = bearish.
Proof.
  pose proof (analyze_trend_classification
                rising_candles {[20%nat := 0; 60%nat := 100]} (candle 101 102 103)
                eq_refl) as (Hprice & Hnone & _ & Hfew & _).
  pose proof (analyze_trend_classification
                rising_candles {[20%nat := 100; 60%nat := 99]} (candle 101 102 103)
                eq_refl) as (_ & _ & _ & _ & Hbull).
  pose proof (analyze_trend_classification
                rising_candles {[20%nat := 100; 60%nat := 105]} (candle 101 102 103)
                eq_refl) as (_ & _ & _ & _ & Hbear).
  split; [exact Hprice|]. split; [|split; [|split]].
  - apply Hnone. right. exists 0. split; reflexivity.
  - apply Hfew. intros p q v w Hv Hw.
    destruct (counted_two _ _ _ _ _ _ Hv) as [[-> ->]|[-> ->]];
      [destruct Hv as [_ Hnz]; exfalso; apply Hnz; reflexivity|].
    destruct (counted_two _ _ _ _ _ _ Hw) as [[-> ->]|[-> ->]];
      [destruct Hw as [_ Hnz]; exfalso; apply Hnz; reflexivity|].
    reflexivity.
  - apply Hbull.
    + exists 20%nat, 60%nat, 100, 99. split; [lia|].
      split; (split; [reflexivity|discriminate]).
    + intros p v Hv.
      destruct (counted_two _ _ _ _ _ _ Hv) as [[-> ->]|[-> ->]]; reflexivity.
  - destruct Hbear as (_ & _ & Hmixed).
    + exists 20%nat, 60%nat, 100, 105. split; [lia|].
      split; (split; [reflexivity|discriminate]).
    + apply Hmixed.
      * intros Hall. specialize (Hall 60%nat 105).
        assert (Hc : counted {[20%nat := 100; 60%nat := 105]} 60%nat 105)
          by (split; [reflexivity|discriminate]).
        specialize (Hall Hc). revert Hall. apply Qle_not_lt. discriminate.
      * intros Hnone'. specialize (Hnone' 20%nat 100).
        assert (Hc : counted {[20%nat := 100; 60%nat := 105]} 20%nat 100)
          by (split; [reflexivity|discriminate]).
        specialize (Hnone' Hc). revert Hnone'. apply Qlt_not_le. reflexivity.
      * intros p q v w Hv Hw Hpq.
        destruct (counted_two _ _ _ _ _ _ Hv) as [[-> ->]|[-> ->]];
          destruct (counted_two _ _ _ _ _ _ Hw) as [[-> ->]|[-> ->]];
          try lia. reflexivity.
Defined.

(** C8 as it is written fails where every EMA is above the latest close:
    against the EMAs 105 and 110 the close of 102 is labelled [below] both
    times and the trend is [strong_bearish], not [strong_bullish].  It
    also fails where one of two EMAs is zero: the close is above the only
    EMA that counts, and the trend is [neutral]. *)
Lemma analyze_trend_emas_above_close :
  last rising_candles = Some (candle 101 102 103) /\
  (forall p v, ({[20%nat := 105; 60%nat := 110]} : gmap nat Q) !! p = Some v ->
               close (candle 101 102 103) < v) /\
  trend (analyze_trend rising_candles {[20%nat := 105; 60%nat := 110]})
  = strong_bearish /\
  (forall p e,
      ema_positions (analyze_trend rising_candles {[20%nat := 105; 60%nat := 110]}) !! p
      = Some e -> position e = below) /\
  size ({[20%nat := 0; 60%nat := 100]} : gmap nat Q) = 2%nat /\
  (forall p e,
      ema_positions (analyze_trend rising_candles {[20%nat := 0; 60%nat := 100]}) !! p
      = Some e -> position e = above) /\
  trend (analyze_trend rising_candles {[20%nat := 0; 60%nat := 100]}) = neutral.
Proof.
  split; [reflexivity|]. split; [|split; [|split; [|split; [|split]]]].
  - intros p v Hp. apply lookup_insert_Some in Hp.
    destruct Hp as [[<- <-]|[_ Hp]]; [reflexivity|].
    apply lookup_singleton_Some in Hp. destruct Hp as [<- <-]. reflexivity.
  - vm_compute. reflexivity.
  - intros p e He. unfold analyze_trend in He. cbn [last rising_candles] in He.
    change (last rising_candles) with (Some (candle 101 102 103)) in He.
    cbn [ema_positions] in He. apply positions_counted in He.
    destruct He as (v & Hv & ->).
    destruct (counted_two _ _ _ _ _ _ Hv) as [[-> ->]|[-> ->]]; reflexivity.
  - vm_compute. reflexivity.
  - intros p e He. unfold analyze_trend in He.
    change (last rising_candles) with (Some (candle 101 102 103)) in He.
    cbn [ema_positions] in He. apply positions_counted in He.
    destruct He as (v & Hv & ->).
    destruct (counted_two _ _ _ _ _ _ Hv) as [[-> ->]|[-> ->]];
      [destruct Hv as [_ Hnz]; exfalso; apply Hnz; reflexivity|reflexivity].
  - vm_compute. reflexivity.
Qed.


End TrendFacts.

(** ** Exponential moving averages *)

Module EmaFacts.
Import Num NumFacts Indicators.
Local Open Scope Q_scope.

Lemma Qnat_nonneg n : 0 <= Qnat n.
Proof. unfold Qnat, Qle. simpl. lia. Qed.

Lemma Qnat_ge_1 n : (1 <= n)%nat -> 1 <= Qnat n.
Proof.
  intros H. destruct n as [|n]; [lia|]. rewrite Qnat_S.
  pose proof (Qnat_nonneg n). lra.
Qed.

(** The smoothing factor [2 / (span + 1)] of a span of at least 1 is a
    weight: it lies in [(0, 1]]. *)
Lemma alpha_weight span :
  (1 <= span)%nat -> 0 < 2 / (Qnat span + 1) /\ 2 / (Qnat span + 1) <= 1.
Proof.
  intros H. pose proof (Qnat_ge_1 span H) as Hs. split.
  - apply Qdiv_pos; lra.
  - apply Qle_shift_div_r; lra.
Qed.

Lemma ewm_from_length alpha prev xs : length (ewm_from alpha prev xs) = length xs.
Proof.
  revert prev. induction xs as [|x xs IH]; intros prev; simpl; [reflexivity|].
  rewrite IH. reflexivity.
Qed.

Lemma ewm_mean_length span xs : length (ewm_mean span xs) = length xs.
Proof.
  destruct xs as [|x xs]; simpl; [reflexivity|]. rewrite ewm_from_length. reflexivity.
Qed.

(** Each step is a weighted mean of the previous average and the next
    price, so the averages stay between any two bounds of the prices. *)
Lemma ewm_from_bounds (lo hi alpha : Q) xs : forall prev,
  0 <= alpha <= 1 -> lo <= prev <= hi ->
  Forall (fun x => lo <= x <= hi) xs ->
  Forall (fun y => lo <= y <= hi) (ewm_from alpha prev xs).
Proof.
  induction xs as [|x xs IH]; intros prev Ha Hprev Hxs; simpl; [constructor|].
  inversion Hxs as [|? ? Hx Hrest]; subst.
  assert (Hy : lo <= (1 - alpha) * prev + alpha * x <= hi) by (split; nra).
  constructor; [exact Hy|]. apply IH; assumption.
Qed.

Lemma ewm_mean_bounds (lo hi : Q) span xs :
  (1 <= span)%nat ->
  Forall (fun x => lo <= x <= hi) xs ->
  Forall (fun y => lo <= y <= hi) (ewm_mean span xs).
Proof.
  intros Hspan Hxs. destruct xs as [|x xs]; simpl; [constructor|].
  inversion Hxs as [|? ? Hx Hrest]; subst.
  constructor; [exact Hx|].
  destruct (alpha_weight span Hspan) as [Hpos Hle].
  apply ewm_from_bounds; [lra|exact Hx|exact Hrest].
Qed.

(** X1: [calculate_ema] refuses a period of 0 ([ValueError] from
    [ewm(span=0)]) and returns for every other period; what it returns
    has the length of the prices, all NaN when the prices are fewer than
    the period and all defined otherwise. *)
Theorem calculate_ema_shape (prices : list Q) (period : nat) :
  (period = 0%nat -> calculate_ema prices period = Raise ValueError) /\
  ((1 <= period)%nat ->
   exists emas,
     calculate_ema prices period = Ok emas /\
     length emas = length prices /\
     ((length prices < period)%nat -> Forall (fun e => e = None) emas) /\
     ((period <= length prices)%nat -> Forall (fun e => is_Some e) emas)).
Proof.
  unfold calculate_ema. split.
  - intros ->. destruct (Nat.ltb_spec (length prices) 0); [lia|]. reflexivity.
  - intros Hp.
    destruct (Nat.ltb_spec (length prices) period) as [Hshort|Hlong].
    + eexists. split; [reflexivity|]. split; [apply length_replicate|].
      split; [|lia]. intros _. apply Forall_replicate. reflexivity.
    + destruct (Nat.ltb_spec period 1); [lia|].
      eexists. split; [reflexivity|].
      split; [rewrite length_fmap; apply ewm_mean_length|].
      split; [lia|]. intros _. apply Forall_fmap, Forall_forall.
      intros y _. simpl. eauto.
Qed.

Lemma calculate_ema_shape_witness :
  calculate_ema [1; 2; 3] 0 = Raise ValueError /\
  exists emas,
    calculate_ema [1; 2; 3] 5 = Ok emas /\ length emas = length [1; 2; 3] /\
    Forall (fun e => e = None) emas.
Proof.
  split.
  - apply (proj1 (calculate_ema_shape [1; 2; 3] 0)). reflexivity.
  - destruct (proj2 (calculate_ema_shape [1; 2; 3] 5)) as (emas & Hr & Hlen & Hnan & _).
    + lia.
    + exists emas. split; [exact Hr|]. split; [exact Hlen|]. apply Hnan. simpl. lia.
Defined.

Lemma calculate_ema_within (lo hi : Q) (prices : list Q) (period : nat)
      (emas : list (option Q)) :
  Forall (fun x => lo <= x <= hi) prices ->
  calculate_ema prices period = Ok emas ->
  forall y, Some y ∈ emas -> lo <= y <= hi.
Proof.
  intros Hprices Hr y Hy. unfold calculate_ema in Hr.
  destruct (Nat.ltb_spec (length prices) period) as [Hshort|Hlong].
  - injection Hr as <-. apply elem_of_replicate in Hy. destruct Hy as [Hy _].
    discriminate.
  - destruct (Nat.ltb_spec period 1) as [|Hp]; [discriminate|].
    injection Hr as <-. apply list_elem_of_fmap in Hy.
    destruct Hy as (y' & Heq & Hin). injection Heq as ->.
    pose proof (ewm_mean_bounds lo hi period prices Hp Hprices) as Hall.
    exact (proj1 (Forall_forall _ _) Hall y' Hin).
Qed.

(** X2: every defined EMA value lies between any two bounds of the
    prices; in particular the EMA of a constant series is that constant. *)
Theorem calculate_ema_bounds (lo hi : Q) (prices : list Q) (period : nat)
        (emas : list (option Q)) :
  Forall (fun x => lo <= x <= hi) prices ->
  calculate_ema prices period = Ok emas ->
  (forall y, Some y ∈ emas -> lo <= y <= hi) /\
  (lo == hi -> forall y, Some y ∈ emas -> y == lo).
Proof.
  intros Hprices Hr. split.
  - apply (calculate_ema_within lo hi prices period); assumption.
  - intros Heq y Hy.
    pose proof (calculate_ema_within lo hi prices period emas Hprices Hr y Hy).
    lra.
Qed.

(** The latest EMA of five prices between 100 and 102. *)
Lemma calculate_ema_bounds_witness :
  100 <= latest_ema [100; 101; 102; 101; 100] 3 <= 102.
Proof.
  apply (proj1 (calculate_ema_bounds 100 102 [100; 101; 102; 101; 100] 3 _
                  ltac:(repeat constructor; discriminate) eq_refl)).
  apply last_Some_elem_of. vm_compute. reflexivity.
Defined.

End EmaFacts.

(** ** Latest EMAs and the trend *)

Module LatestEmaFacts.
Import Num NumFacts Indicators SignalDetector.
Local Open Scope Q_scope.

Lemma omap_id_Some (xs : list Q) : omap id (Some <$> xs) = xs.
Proof.
  induction xs as [|x xs IH]; [reflexivity|]. csimpl. rewrite IH. reflexivity.
Qed.

Lemma omap_id_None (n : nat) : omap id (replicate n (@None Q)) = [].
Proof. induction n as [|n IH]; [reflexivity|]. csimpl. exact IH. Qed.

(** The last defined value of what [calculate_ema] returns. *)
Lemma calculate_ema_latest prices period emas :
  calculate_ema prices period = Ok emas ->
  match last (omap id emas) with Some v => v | None => 0 end
  = latest_ema prices period.
Proof.
  unfold calculate_ema, latest_ema.
  destruct (Nat.ltb_spec (length prices) period) as [Hshort|Hlong].
  - intros Hr. injection Hr as <-. rewrite omap_id_None. reflexivity.
  - destruct (Nat.ltb_spec period 1) as [Hzero|Hpos]; [discriminate|].
    intros Hr. injection Hr as <-. rewrite omap_id_Some. reflexivity.
Qed.

Lemma calculate_multiple_emas_inv ema_periods prices : forall all_emas,
  calculate_multiple_emas ema_periods prices = Ok all_emas ->
  Forall (fun p => 1 <= p)%nat ema_periods /\
  forall p,
    all_emas !! p
    = if decide (p ∈ ema_periods)
      then match calculate_ema prices p with Ok e => Some e | Raise _ => None end
      else None.
Proof.
  unfold calculate_multiple_emas.
  induction ema_periods as [|q periods IH] using rev_ind; intros all_emas.
  - simpl. intros Hr. injection Hr as <-. split; [constructor|].
    intros p. rewrite lookup_empty.
    destruct (decide (p ∈ [])) as [Hin|_]; [inversion Hin|reflexivity].
  - rewrite foldl_snoc.
    destruct (foldl _ (Ok ∅) periods) as [rs|e]; [|discriminate].
    destruct (IH rs eq_refl) as [Hall Hlookup].
    cbn [bind]. destruct (calculate_ema prices q) as [eq|err] eqn:Eq; [|discriminate].
    cbn [bind]. intros Hr. injection Hr as <-. split.
    + apply Forall_app. split; [exact Hall|]. constructor; [|constructor].
      unfold calculate_ema in Eq.
      destruct (length prices <? q)%nat eqn:E1.
      * apply Nat.ltb_lt in E1. lia.
      * destruct (Nat.ltb_spec q 1); [discriminate|lia].
    + intros p. destruct (decide (p = q)) as [->|Hne].
      * rewrite lookup_insert_eq, Eq.
        destruct (decide (q ∈ periods ++ [q])) as [_|Hnin]; [reflexivity|].
        exfalso. apply Hnin, elem_of_app. right. left.
      * rewrite lookup_insert_ne by congruence. rewrite Hlookup.
        destruct (decide (p ∈ periods)) as [Hin|Hnin];
          destruct (decide (p ∈ periods ++ [q])) as [Hin'|Hnin']; try reflexivity.
        -- exfalso. apply Hnin', elem_of_app. left. exact Hin.
        -- exfalso. apply elem_of_app in Hin'. destruct Hin' as [Hin'|Hin']; [tauto|].
           apply list_elem_of_singleton in Hin'. congruence.
Qed.

Lemma calculate_multiple_emas_returns ema_periods prices :
  Forall (fun p => 1 <= p)%nat ema_periods ->
  exists all_emas, calculate_multiple_emas ema_periods prices = Ok all_emas.
Proof.
  unfold calculate_multiple_emas.
  induction ema_periods as [|q periods IH] using rev_ind; intros Hall.
  - simpl. eauto.
  - apply Forall_app in Hall. destruct Hall as [Hall Hq].
    inversion Hq as [|? ? Hq1 _]; subst.
    rewrite foldl_snoc. destruct (IH Hall) as [rs ->]. cbn [bind].
    unfold calculate_ema.
    destruct (length prices <? q)%nat; [cbn [bind]; eauto|].
    destruct (Nat.ltb_spec q 1); [lia|]. cbn [bind]. eauto.
Qed.

Lemma calculate_multiple_emas_raises ema_periods prices e :
  calculate_multiple_emas ema_periods prices = Raise e -> e = ValueError.
Proof.
  unfold calculate_multiple_emas.
  induction ema_periods as [|q periods IH] using rev_ind; [discriminate|].
  rewrite foldl_snoc. destruct (foldl _ (Ok ∅) periods) as [rs|e'].
  - cbn [bind]. unfold calculate_ema.
    destruct (length prices <? q)%nat; [discriminate|].
    destruct (q <? 1)%nat; cbn [bind]; [|discriminate].
    intros Hr. injection Hr as <-. reflexivity.
  - cbn [bind]. intros Hr. injection Hr as <-. apply IH. reflexivity.
Qed.

(** X3: [calculate_latest_emas] raises [ValueError] when a configured
    period is 0 and returns otherwise; the dict it returns has exactly the
    configured periods as keys, each with the last value of its EMA
    series, or 0.0 when the prices are fewer than the period. *)
Theorem calculate_latest_emas_spec (ema_periods : list nat) (prices : list Q) :
  (0%nat ∈ ema_periods ->
   calculate_latest_emas ema_periods prices = Raise ValueError) /\
  (Forall (fun p => 1 <= p)%nat ema_periods ->
   exists latest_emas,
     calculate_latest_emas ema_periods prices = Ok latest_emas /\
     forall p,
       latest_emas !! p
       = if decide (p ∈ ema_periods) then Some (latest_ema prices p) else None) /\
  (forall p, (length prices < p)%nat -> latest_ema prices p = 0).
Proof.
  unfold calculate_latest_emas. split; [|split].
  - intros Hzero.
    destruct (calculate_multiple_emas ema_periods prices) as [all_emas|e] eqn:E.
    + destruct (calculate_multiple_emas_inv _ _ _ E) as [Hall _].
      pose proof (proj1 (Forall_forall _ _) Hall 0%nat Hzero) as Hp.
      cbv beta in Hp. lia.
    + apply calculate_multiple_emas_raises in E. subst e. reflexivity.
  - intros Hall.
    destruct (calculate_multiple_emas_returns ema_periods prices Hall)
      as [all_emas E].
    rewrite E. cbn [bind]. eexists. split; [reflexivity|].
    intros p. rewrite lookup_fmap.
    destruct (calculate_multiple_emas_inv _ _ _ E) as [_ Hlookup].
    rewrite Hlookup. destruct (decide (p ∈ ema_periods)) as [Hin|Hnin]; [|reflexivity].
    destruct (calculate_ema prices p) as [emas|e] eqn:Ep.
    + simpl. rewrite (calculate_ema_latest _ _ _ Ep). reflexivity.
    + exfalso. pose proof (proj1 (Forall_forall _ _) Hall p Hin) as Hp.
      cbv beta in Hp. unfold calculate_ema in Ep.
      destruct (length prices <? p)%nat; [discriminate|].
      destruct (Nat.ltb_spec p 1); [lia|discriminate].
  - intros p Hp. unfold latest_ema.
    destruct (Nat.ltb_spec (length prices) p); [reflexivity|lia].
Qed.

(** The default periods on three prices: the shortest history. *)
Lemma calculate_latest_emas_spec_witness :
  calculate_latest_emas [20; 0; 60]%nat [1; 2; 3] = Raise ValueError /\
  (exists latest_emas,
      calculate_latest_emas [20; 60; 120; 250]%nat [1; 2; 3] = Ok latest_emas /\
      latest_emas !! 20%nat = Some 0 /\ latest_emas !! 30%nat = None).
Proof.
  pose proof (calculate_latest_emas_spec [20; 0; 60]%nat [1; 2; 3])
    as (Hraise & _ & _).
  pose proof (calculate_latest_emas_spec [20; 60; 120; 250]%nat [1; 2; 3])
    as (_ & Hreturn & _).
  split.
  - apply Hraise. right. left.
  - destruct Hreturn as (latest_emas & Hr & Hlookup).
    + repeat constructor; lia.
    + exists latest_emas. split; [exact Hr|]. rewrite !Hlookup. split; reflexivity.
Defined.

Lemma calculate_latest_emas_inv ema_periods prices latest_emas p :
  calculate_latest_emas ema_periods prices = Ok latest_emas ->
  latest_emas !! p
  = if decide (p ∈ ema_periods) then Some (latest_ema prices p) else None.
Proof.
  unfold calculate_latest_emas.
  destruct (calculate_multiple_emas ema_periods prices) as [all_emas|e] eqn:E;
    [|discriminate].
  cbn [bind]. intros Hr. injection Hr as <-.
  destruct (calculate_multiple_emas_inv _ _ _ E) as [Hall Hlookup].
  rewrite lookup_fmap, Hlookup.
  destruct (decide (p ∈ ema_periods)) as [Hin|Hnin]; [|reflexivity].
  destruct (calculate_ema prices p) as [emas|e] eqn:Ep.
  - simpl. rewrite (calculate_ema_latest _ _ _ Ep). reflexivity.
  - exfalso. pose proof (proj1 (Forall_forall _ _) Hall p Hin) as Hp.
    cbv beta in Hp. unfold calculate_ema in Ep.
    destruct (length prices <? p)%nat; [discriminate|].
    destruct (Nat.ltb_spec p 1); [lia|discriminate].
Qed.

(** X4: a period longer than the price history never gets a position in
    the trend analysis: its latest EMA is the 0.0 fallback, which
    [analyze_trend] skips. *)
Theorem long_period_has_no_position (ema_periods : list nat) (prices : list Q)
        (latest_emas : gmap nat Q) (klines : list kline) (p : nat) :
  calculate_latest_emas ema_periods prices = Ok latest_emas ->
  (length prices < p)%nat ->
  ema_positions (analyze_trend klines latest_emas) !! p = None.
Proof.
  intros Hr Hp. unfold analyze_trend.
  destruct (last klines) as [k|]; [|apply lookup_empty].
  cbn [ema_positions]. rewrite TrendFacts.ema_positions_lookup.
  rewrite (calculate_latest_emas_inv _ _ _ p Hr).
  destruct (decide (p ∈ ema_periods)); [|reflexivity].
  unfold latest_ema. destruct (Nat.ltb_spec (length prices) p); [reflexivity|lia].
Qed.

Lemma long_period_has_no_position_witness :
  exists latest_emas,
    calculate_latest_emas [2; 5]%nat (close <$> rising_candles) = Ok latest_emas /\
    ema_positions (analyze_trend rising_candles latest_emas) !! 5%nat = None.
Proof.
  eexists. split; [reflexivity|].
  apply (long_period_has_no_position [2; 5]%nat (close <$> rising_candles)
                                      _ rising_candles 5).
  - reflexivity.
  - simpl. lia.
Defined.

(** X5: the EMA differences and the trend details agree: wherever the
    trend analysis has a position for a period, [calculate_ema_differences]
    on the latest close gives the same difference in percent; for an EMA
    of 0, which has no position, it gives 0. *)
Theorem ema_differences_agree (klines : list kline) (ema_values : gmap nat Q)
        (k : kline) (p : nat) :
  last klines = Some k ->
  (forall e, ema_positions (analyze_trend klines ema_values) !! p = Some e ->
             calculate_ema_differences (close k) ema_values !! p
             = Some (diff_percent e)) /\
  (forall v, ema_values !! p = Some v -> v == 0 ->
             calculate_ema_differences (close k) ema_values !! p = Some 0 /\
             ema_positions (analyze_trend klines ema_values) !! p = None).
Proof.
  intros Hlast. unfold analyze_trend. rewrite Hlast. cbn [ema_positions].
  rewrite TrendFacts.ema_positions_lookup.
  unfold calculate_ema_differences. rewrite lookup_fmap. split.
  - intros e He. destruct (ema_values !! p) as [v|]; [|discriminate].
    simpl. destruct (Qeq_bool v 0); [discriminate|].
    injection He as <-. reflexivity.
  - intros v -> Hv. apply Qeq_bool_iff in Hv. simpl. rewrite Hv. split; reflexivity.
Qed.

Lemma ema_differences_agree_witness :
  calculate_ema_differences 102 {[20%nat := 100; 60%nat := 0]} !! 20%nat
  = Some ((102 - 100) / 100 * 100) /\
  calculate_ema_differences 102 {[20%nat := 100; 60%nat := 0]} !! 60%nat = Some 0.
Proof.
  pose proof (ema_differences_agree rising_candles {[20%nat := 100; 60%nat := 0]}
                (candle 101 102 103) 20 eq_refl) as [Hpos _].
  pose proof (ema_differences_agree rising_candles {[20%nat := 100; 60%nat := 0]}
                (candle 101 102 103) 60 eq_refl) as [_ Hzero].
  split.
  - apply (Hpos (position_of 102 100)). reflexivity.
  - apply (Hzero 0); reflexivity.
Defined.

End LatestEmaFacts.

(** ** Average true range *)

Module AtrFacts.
Import Num NumFacts Indicators.
Local Open Scope Q_scope.

Lemma index_Ok {A} (xs : list A) i x : index xs i = Ok x <-> xs !! i = Some x.
Proof.
  unfold index. destruct (xs !! i); split; intros Hr; try discriminate;
    injection Hr as <-; reflexivity.
Qed.

Lemma index_returns {A} (xs : list A) i :
  (i < length xs)%nat -> exists x, index xs i = Ok x.
Proof.
  intros Hi. unfold index. destruct (lookup_lt_is_Some_2 xs i Hi) as [x ->]. eauto.
Qed.

Lemma index_raises {A} (xs : list A) i :
  (length xs <= i)%nat -> index xs i = Raise IndexError.
Proof.
  intros Hi. unfold index. rewrite (lookup_ge_None_2 xs i Hi). reflexivity.
Qed.

Lemma true_range_returns high low close i :
  readable high low close i ->
  exists tr, true_range high low close i = Ok tr /\ 0 <= tr.
Proof.
  intros (Hh & Hl & Hc). unfold true_range.
  destruct (index_returns high i Hh) as [h ->].
  destruct (index_returns low i Hl) as [l ->].
  destruct (index_returns close (i - 1) Hc) as [c ->].
  cbn [bind]. eexists. split; [reflexivity|].
  pose proof (Qabs_nonneg (l - c)).
  pose proof (Q.le_max_r (Qmax (h - l) (Qabs (h - c))) (Qabs (l - c))).
  lra.
Qed.

Lemma true_range_raises high low close i :
  ~ readable high low close i -> true_range high low close i = Raise IndexError.
Proof.
  intros Hno. unfold true_range, readable in *.
  destruct (Nat.lt_ge_cases i (length high)) as [Hh|Hh];
    [|rewrite (index_raises _ _ Hh); reflexivity].
  destruct (index_returns high i Hh) as [h ->]. cbn [bind].
  destruct (Nat.lt_ge_cases i (length low)) as [Hl|Hl];
    [|rewrite (index_raises _ _ Hl); reflexivity].
  destruct (index_returns low i Hl) as [l ->]. cbn [bind].
  destruct (Nat.lt_ge_cases (i - 1) (length close)) as [Hc|Hc];
    [lia|rewrite (index_raises _ _ Hc); reflexivity].
Qed.

Lemma readable_dec high low close i :
  readable high low close i \/ ~ readable high low close i.
Proof. unfold readable. lia. Qed.

Lemma true_ranges_returns high low close idx :
  Forall (readable high low close) idx ->
  exists trs, true_ranges high low close idx = Ok trs /\
              length trs = length idx /\ Forall (fun tr => 0 <= tr) trs.
Proof.
  induction 1 as [|i idx Hi _ IH]; simpl.
  - exists []. auto.
  - destruct (true_range_returns _ _ _ _ Hi) as (tr & -> & Htr).
    destruct IH as (trs & -> & Hlen & Hpos). cbn [bind].
    exists (tr :: trs). split; [reflexivity|]. split; [simpl; lia|].
    constructor; assumption.
Qed.

Lemma true_ranges_raises high low close idx :
  Exists (fun i => ~ readable high low close i) idx ->
  true_ranges high low close idx = Raise IndexError.
Proof.
  induction idx as [|i idx IH]; intros Hex; [inversion Hex|]. simpl.
  destruct (readable_dec high low close i) as [Hi|Hi].
  - destruct (true_range_returns _ _ _ _ Hi) as (tr & -> & _). cbn [bind].
    inversion Hex as [? ? Hbad|? ? Hrest]; subst; [tauto|].
    rewrite (IH Hrest). reflexivity.
  - rewrite (true_range_raises _ _ _ _ Hi). reflexivity.
Qed.

Lemma mean_nonneg xs : xs <> [] -> Forall (fun x => 0 <= x) xs -> 0 <= mean xs.
Proof.
  intros Hne Hpos. unfold mean. apply Qdiv_nonneg; [apply Qsum_nonneg, Hpos|].
  apply Qnat_pos. destruct xs; [congruence|simpl; lia].
Qed.

Lemma wilder_nonneg period xs : forall avg,
  (1 <= period)%nat -> 0 <= avg -> Forall (fun x => 0 <= x) xs ->
  0 <= foldl (wilder_step period) avg xs.
Proof.
  induction xs as [|x xs IH]; intros avg Hp Havg Hxs; simpl; [exact Havg|].
  inversion Hxs as [|? ? Hx Hrest]; subst.
  apply IH; [exact Hp| |exact Hrest].
  unfold wilder_step. apply RsiFacts.smooth_nonneg; assumption.
Qed.

Lemma not_short (high low close : list Q) period :
  (period <= length high)%nat -> (period <= length low)%nat ->
  (period <= length close)%nat ->
  ((length high <? period) || (length low <? period) || (length close <? period))%nat
  = false.
Proof.
  intros Hh Hl Hc.
  destruct (Nat.ltb_spec (length high) period); [lia|].
  destruct (Nat.ltb_spec (length low) period); [lia|].
  destruct (Nat.ltb_spec (length close) period); [lia|]. reflexivity.
Qed.

(** X6: [calculate_atr] is 0.0 as soon as one of the three series is
    shorter than the period; on series of at least [period] and at least
    two points, with a low for every high and a close before every high
    but the first, it returns a value that is not negative. *)
Theorem calculate_atr_nonneg (high low close : list Q) (period : nat) :
  ((length high < period \/ length low < period \/ length close < period)%nat ->
   calculate_atr high low close period = Ok 0) /\
  ((1 <= period)%nat -> (2 <= length high)%nat ->
   (period <= length high)%nat -> (period <= length low)%nat ->
   (period <= length close)%nat ->
   (length high <= length low)%nat -> (length high <= length close + 1)%nat ->
   exists atr, calculate_atr high low close period = Ok atr /\ 0 <= atr).
Proof.
  unfold calculate_atr. split.
  - intros Hshort.
    destruct (Nat.ltb_spec (length high) period); [reflexivity|].
    destruct (Nat.ltb_spec (length low) period); [reflexivity|].
    destruct (Nat.ltb_spec (length close) period); [reflexivity|lia].
  - intros Hp H2 Hh Hl Hc Hlow Hclose.
    rewrite (not_short _ _ _ _ Hh Hl Hc).
    destruct (true_ranges_returns high low close (seq 1 (length high - 1)))
      as (trs & -> & Hlen & Hpos).
    { apply Forall_forall. intros i Hi. apply elem_of_seq in Hi.
      unfold readable. lia. }
    cbn [bind]. eexists. split; [reflexivity|].
    rewrite length_seq in Hlen.
    apply wilder_nonneg; [exact Hp| |apply Forall_drop, Hpos].
    apply mean_nonneg; [|apply Forall_take, Hpos].
    intros E. apply (f_equal length) in E. rewrite length_take in E.
    simpl in E. lia.
Qed.

(** The unit test's series with [period = 3], and its two-point prefix. *)
Lemma calculate_atr_nonneg_witness :
  calculate_atr [105; 106] [95; 96] [100; 101] 3 = Ok 0 /\
  exists atr,
    calculate_atr [105; 106; 107; 108; 109; 110] [95; 96; 97; 98; 99; 100]
                  [100; 101; 102; 103; 104; 105] 3 = Ok atr /\ 0 <= atr.
Proof.
  split.
  - apply (proj1 (calculate_atr_nonneg [105; 106] [95; 96] [100; 101] 3)).
    left. simpl. lia.
  - apply (proj2 (calculate_atr_nonneg
                    [105; 106; 107; 108; 109; 110] [95; 96; 97; 98; 99; 100]
                    [100; 101; 102; 103; 104; 105] 3)); simpl; lia.
Defined.

(** X7: when no series is shorter than the period and there are at
    least two highs, but fewer lows than highs, or fewer closes than highs
    by two or more, [calculate_atr] raises [IndexError]. *)
Theorem calculate_atr_ragged (high low close : list Q) (period : nat) :
  (2 <= length high)%nat ->
  (period <= length high)%nat -> (period <= length low)%nat ->
  (period <= length close)%nat ->
  (length low < length high \/ length close + 1 < length high)%nat ->
  calculate_atr high low close period = Raise IndexError.
Proof.
  intros H2 Hh Hl Hc Hragged. unfold calculate_atr.
  rewrite (not_short _ _ _ _ Hh Hl Hc).
  rewrite true_ranges_raises; [reflexivity|].
  apply Exists_exists. exists (length high - 1)%nat. split.
  - apply elem_of_seq. lia.
  - unfold readable. lia.
Qed.

Lemma calculate_atr_ragged_witness :
  calculate_atr [105; 106; 107] [95; 96] [100; 101; 102] 2 = Raise IndexError.
Proof.
  apply (calculate_atr_ragged [105; 106; 107] [95; 96] [100; 101; 102] 2);
    simpl; lia.
Defined.

End AtrFacts.

(** ** MACD *)

Module MacdFacts.
Import Num NumFacts Indicators.
Local Open Scope Q_scope.

Lemma calculate_ema_defined prices period :
  (1 <= period)%nat -> (period <= length prices)%nat ->
  calculate_ema prices period = Ok (Some <$> ewm_mean period prices).
Proof.
  intros Hp Hlen. unfold calculate_ema.
  destruct (Nat.ltb_spec (length prices) period); [lia|].
  destruct (Nat.ltb_spec period 1); [lia|]. reflexivity.
Qed.

Lemma calculate_ema_undefined prices period :
  (length prices < period)%nat ->
  calculate_ema prices period = Ok (replicate (length prices) None).
Proof.
  intros Hlen. unfold calculate_ema.
  destruct (Nat.ltb_spec (length prices) period); [reflexivity|lia].
Qed.

Lemma ewm_mean_last span xs :
  xs <> [] -> exists v, last (ewm_mean span xs) = Some v.
Proof.
  intros Hne. destruct (last (ewm_mean span xs)) as [v|] eqn:E; [eauto|].
  apply last_None in E. apply (f_equal length) in E.
  rewrite EmaFacts.ewm_mean_length in E. destruct xs; [congruence|discriminate].
Qed.

Lemma index_last_defined span xs v :
  last (ewm_mean span xs) = Some v ->
  index_last (Some <$> ewm_mean span xs) = Ok (Some v).
Proof. intros H. unfold index_last. rewrite fmap_last, H. reflexivity. Qed.

Lemma index_last_undefined n :
  (1 <= n)%nat -> index_last (replicate n (@None Q)) = Ok None.
Proof.
  intros Hn. unfold index_last. destruct n as [|n]; [lia|].
  replace (S n) with (n + 1)%nat by lia.
  rewrite replicate_add. simpl. rewrite last_snoc. reflexivity.
Qed.

(** Where both EMAs are defined everywhere, the MACD series is their
    difference point by point. *)
Lemma macd_prices_defined (a b : list Q) :
  macd_prices (Some <$> a) (Some <$> b) = (fun p => p.1 - p.2) <$> zip a b.
Proof.
  unfold macd_prices. revert b. induction a as [|x a IH]; intros [|y b];
    try reflexivity.
  csimpl. rewrite IH. reflexivity.
Qed.

Lemma latest_ema_defined prices period v :
  (period <= length prices)%nat -> last (ewm_mean period prices) = Some v ->
  latest_ema prices period = v.
Proof.
  intros Hlen Hv. unfold latest_ema.
  destruct (Nat.ltb_spec (length prices) period); [lia|]. rewrite Hv. reflexivity.
Qed.

(** X8: [calculate_macd] returns the all-zero bundle when the prices are
    fewer than [slow_period + signal_period], and also when they are
    fewer than the fast period; otherwise, for periods of at least 1, it
    returns the difference of the latest fast and slow EMAs, a defined
    signal value, and their difference as the histogram. *)
Theorem calculate_macd_spec (prices : list Q)
        (fast_period slow_period signal_period : nat) :
  ((length prices < slow_period + signal_period)%nat ->
   calculate_macd prices fast_period slow_period signal_period = Ok macd_zero) /\
  ((1 <= slow_period)%nat ->
   (slow_period + signal_period <= length prices)%nat ->
   (length prices < fast_period)%nat ->
   calculate_macd prices fast_period slow_period signal_period = Ok macd_zero) /\
  ((1 <= fast_period)%nat -> (1 <= slow_period)%nat -> (1 <= signal_period)%nat ->
   (slow_period + signal_period <= length prices)%nat ->
   (fast_period <= length prices)%nat ->
   exists s,
     calculate_macd prices fast_period slow_period signal_period
     = Ok {| macd := latest_ema prices fast_period - latest_ema prices slow_period;
             signal := Some s;
             histogram := latest_ema prices fast_period
                          - latest_ema prices slow_period - s |}).
Proof.
  unfold calculate_macd. split; [|split].
  - intros Hshort.
    destruct (Nat.ltb_spec (length prices) (slow_period + signal_period));
      [reflexivity|lia].
  - intros Hslow Hlen Hfast.
    destruct (Nat.ltb_spec (length prices) (slow_period + signal_period)); [lia|].
    rewrite (calculate_ema_undefined _ _ Hfast).
    rewrite calculate_ema_defined by lia. cbn [bind].
    rewrite index_last_undefined by lia. cbn [bind].
    destruct (ewm_mean_last slow_period prices) as [v Hv].
    { intros ->. simpl in *. lia. }
    rewrite (index_last_defined _ _ _ Hv). reflexivity.
  - intros Hfast Hslow Hsignal Hlen Hflen.
    destruct (Nat.ltb_spec (length prices) (slow_period + signal_period)); [lia|].
    assert (Hne : prices <> []) by (intros ->; simpl in *; lia).
    rewrite !calculate_ema_defined by lia. cbn [bind].
    destruct (ewm_mean_last fast_period prices Hne) as [f Hf].
    destruct (ewm_mean_last slow_period prices Hne) as [sl Hsl].
    rewrite (index_last_defined _ _ _ Hf), (index_last_defined _ _ _ Hsl).
    cbn [bind]. rewrite macd_prices_defined.
    rewrite (latest_ema_defined _ _ _ Hflen Hf).
    rewrite (latest_ema_defined prices slow_period sl) by (lia || exact Hsl).
    set (series := (fun p : Q * Q => p.1 - p.2)
                     <$> zip (ewm_mean fast_period prices) (ewm_mean slow_period prices)).
    assert (Hseries : length series = length prices).
    { unfold series. rewrite length_fmap, length_zip, !EmaFacts.ewm_mean_length. lia. }
    assert (Hsne : series <> []).
    { intros E. rewrite E in Hseries. destruct prices; [congruence|discriminate]. }
    destruct series as [|d series'] eqn:Es; [congruence|].
    rewrite calculate_ema_defined by (rewrite ?Hseries; lia). cbn [bind].
    destruct (ewm_mean_last signal_period (d :: series')) as [s Hs]; [discriminate|].
    rewrite (index_last_defined _ _ _ Hs). cbn [bind]. eauto.
Qed.

(** The unit test: fifty prices 1..50 with the default periods, and the
    first twenty of them. *)
Lemma calculate_macd_spec_witness :
  calculate_macd (inject_Z <$> seqZ 1 20) 12 26 9 = Ok macd_zero /\
  exists s,
    calculate_macd (inject_Z <$> seqZ 1 50) 12 26 9
    = Ok {| macd := latest_ema (inject_Z <$> seqZ 1 50) 12
                    - latest_ema (inject_Z <$> seqZ 1 50) 26;
            signal := Some s;
            histogram := latest_ema (inject_Z <$> seqZ 1 50) 12
                         - latest_ema (inject_Z <$> seqZ 1 50) 26 - s |}.
Proof.
  split.
  - apply (proj1 (calculate_macd_spec (inject_Z <$> seqZ 1 20) 12 26 9)).
    vm_compute. lia.
  - apply (proj2 (proj2 (calculate_macd_spec (inject_Z <$> seqZ 1 50) 12 26 9)));
      vm_compute; lia.
Defined.

Lemma index_last_elem_of {A} (xs : list A) x : index_last xs = Ok x -> x ∈ xs.
Proof.
  unfold index_last. destruct (last xs) as [y|] eqn:E; [|discriminate].
  intros Hr. injection Hr as <-. apply last_Some_elem_of, E.
Qed.

Lemma macd_prices_within (lo hi : Q) (fast_ema slow_ema : list (option Q)) :
  (forall y, Some y ∈ fast_ema -> lo <= y <= hi) ->
  (forall y, Some y ∈ slow_ema -> lo <= y <= hi) ->
  Forall (fun d => lo - hi <= d <= hi - lo) (macd_prices fast_ema slow_ema).
Proof.
  intros Hf Hs. apply Forall_forall. intros d Hd.
  unfold macd_prices in Hd. apply list_elem_of_omap in Hd.
  destruct Hd as ([[f|] [sl|]] & Hin & Heq); try discriminate.
  injection Heq as <-.
  pose proof (Hf f (elem_of_zip_l _ _ _ _ Hin)).
  pose proof (Hs sl (elem_of_zip_r _ _ _ _ Hin)).
  lra.
Qed.

(** X9: MACD never exceeds the spread of the prices: for prices between
    [lo] and [hi], the MACD line and the signal line lie within
    [hi - lo] of zero and the histogram within twice that; on a constant
    series all three are zero. *)
Theorem calculate_macd_bounds (lo hi : Q) (prices : list Q)
        (fast_period slow_period signal_period : nat) (r : macd_result) :
  lo <= hi ->
  Forall (fun x => lo <= x <= hi) prices ->
  calculate_macd prices fast_period slow_period signal_period = Ok r ->
  (lo - hi <= macd r <= hi - lo) /\
  (forall s, signal r = Some s -> lo - hi <= s <= hi - lo) /\
  (2 * (lo - hi) <= histogram r <= 2 * (hi - lo)) /\
  (lo == hi ->
   macd r == 0 /\ histogram r == 0 /\ forall s, signal r = Some s -> s == 0).
Proof.
  intros Hlohi Hprices Hr.
  assert (Hzero : forall r', r' = macd_zero ->
    (lo - hi <= macd r' <= hi - lo) /\
    (forall s, signal r' = Some s -> lo - hi <= s <= hi - lo) /\
    (2 * (lo - hi) <= histogram r' <= 2 * (hi - lo))).
  { intros r' ->. simpl. split; [lra|]. split; [|lra].
    intros s Hs. injection Hs as <-. lra. }
  assert (Hmain :
    (lo - hi <= macd r <= hi - lo) /\
    (forall s, signal r = Some s -> lo - hi <= s <= hi - lo) /\
    (2 * (lo - hi) <= histogram r <= 2 * (hi - lo))).
  { unfold calculate_macd in Hr.
    destruct (length prices <? slow_period + signal_period)%nat.
    { injection Hr as <-. apply Hzero. reflexivity. }
    destruct (calculate_ema prices fast_period) as [fast_ema|] eqn:Ef;
      [|discriminate].
    destruct (calculate_ema prices slow_period) as [slow_ema|] eqn:Es;
      [|discriminate].
    cbn [bind] in Hr.
    pose proof (EmaFacts.calculate_ema_within lo hi _ _ _ Hprices Ef) as Hfast.
    pose proof (EmaFacts.calculate_ema_within lo hi _ _ _ Hprices Es) as Hslow.
    destruct (index_last fast_ema) as [fast_val|] eqn:Efv; [|discriminate].
    destruct (index_last slow_ema) as [slow_val|] eqn:Esv; [|discriminate].
    cbn [bind] in Hr.
    destruct fast_val as [fast_val|];
      [|injection Hr as <-; apply Hzero; reflexivity].
    destruct slow_val as [slow_val|];
      [|injection Hr as <-; apply Hzero; reflexivity].
    pose proof (Hfast _ (index_last_elem_of _ _ Efv)) as Hf.
    pose proof (Hslow _ (index_last_elem_of _ _ Esv)) as Hs.
    pose proof (macd_prices_within lo hi _ _ Hfast Hslow) as Hseries.
    destruct (macd_prices fast_ema slow_ema) as [|d series] eqn:Em.
    - cbn [bind] in Hr. injection Hr as <-. simpl.
      split; [lra|]. split; [|lra]. intros s Hs0. injection Hs0 as <-. lra.
    - destruct (calculate_ema (d :: series) signal_period) as [signal_ema|] eqn:Eg;
        [|discriminate].
      cbn [bind] in Hr.
      destruct (index_last signal_ema) as [signal_val|] eqn:Egv; [|discriminate].
      cbn [bind] in Hr. injection Hr as <-. simpl.
      split; [lra|].
      pose proof (EmaFacts.calculate_ema_within _ _ _ _ _ Hseries Eg) as Hsignal.
      destruct signal_val as [s|].
      + pose proof (Hsignal _ (index_last_elem_of _ _ Egv)) as Hsv.
        split; [|lra]. intros s' Hs'. injection Hs' as <-. exact Hsv.
      + split; [discriminate|lra]. }
  destruct Hmain as (Hm & Hs & Hh).
  split; [exact Hm|]. split; [exact Hs|]. split; [exact Hh|].
  intros Heq. split; [lra|]. split; [lra|].
  intros s Hsig. specialize (Hs s Hsig). lra.
Qed.

(** A flat market at 100 over forty candles. *)
Lemma calculate_macd_bounds_witness :
  exists r,
    calculate_macd (replicate 40 100) 12 26 9 = Ok r /\
    macd r == 0 /\ histogram r == 0.
Proof.
  assert (Hflat : Forall (fun x : Q => 100 <= x <= 100) (replicate 40 100))
    by (apply Forall_replicate; split; discriminate).
  destruct (calculate_macd (replicate 40 100) 12 26 9) as [r|e] eqn:Hr;
    [|exfalso; revert Hr; vm_compute; discriminate].
  exists r. split; [reflexivity|].
  pose proof (calculate_macd_bounds 100 100 (replicate 40 100) 12 26 9 r
                ltac:(discriminate) Hflat Hr) as (_ & _ & _ & Hconst).
  destruct Hconst as (Hm & Hh & _); [reflexivity|]. split; assumption.
Defined.

End MacdFacts.

(** ** More on signal detection *)

Module DetectorFacts.
Import Num NumFacts SignalDetector.
Local Open Scope Q_scope.

(** With a threshold that is not negative, a window cannot show both
    patterns. *)
Lemma patterns_exclusive threshold w :
  0 <= threshold -> buy_pattern threshold w -> sell_pattern threshold w -> False.
Proof.
  intros Ht (Hbuy & _) (Hsell & _). lra.
Qed.



Lemma window_length self klines :
  (1 <= lookback_periods self)%nat ->
  (lookback_periods self <= length klines)%nat ->
  length (window self klines) = lookback_periods self.
Proof.
  intros H1 Hlen. unfold window, last_n.
  destruct (lookback_periods self) as [|n]; [lia|].
  rewrite length_drop. lia.
Qed.



(** The details of a result computed on a window. *)
Lemma detect_signal_details self klines r :
  detect_signal self klines = Ok r ->
  (lookback_periods self <= length klines)%nat ->
  window self klines <> [] /\
  details r = Some
    {| low_sequence :=
         sequence_of (_is_strictly_increasing (low <$> window self klines))
                     (_is_strictly_decreasing (low <$> window self klines));
       close_sequence :=
         sequence_of (_is_strictly_increasing (close <$> window self klines))
                     (_is_strictly_decreasing (close <$> window self klines));
       high_sequence :=
         sequence_of (_is_strictly_increasing (high <$> window self klines))
                     (_is_strictly_decreasing (high <$> window self klines));
       details_lookback_periods := lookback_periods self;
       details_change_threshold := change_threshold self |}.
Proof.
  unfold detect_signal. intros Hr Hlen.
  destruct (Nat.ltb_spec (length klines) (lookback_periods self)); [lia|].
  fold (window self klines) in Hr.
  destruct (window self klines) as [|first rest] eqn:Ew; [discriminate|].
  split; [discriminate|].
  destruct (index (close <$> first :: rest) 0) as [start_close|]; [|discriminate].
  destruct (index_last (close <$> first :: rest)) as [end_close|]; [|discriminate].
  cbn [bind] in Hr.
  destruct (fdiv (end_close - start_close) start_close) as [ratio|]; [|discriminate].
  cbn [bind] in Hr.
  match type of Hr with
  | bind ?m _ = _ => destruct m as [sc|]; [|discriminate]
  end.
  cbn [bind] in Hr. injection Hr as <-. reflexivity.
Qed.

Lemma decreasing_not_increasing (values : list Q) :
  (2 <= length values)%nat -> strictly_decreasing values ->
  _is_strictly_increasing values = false.
Proof.
  intros Hlen H. destruct values as [|x [|y rest]]; simpl in Hlen; try lia.
  apply SignalFacts.strictly_decreasing_cons in H. destruct H as [Hyx _].
  change (Qlt_bool x y && _is_strictly_increasing (y :: rest) = false).
  assert (E : Qlt_bool x y = false) by (apply Qlt_bool_false; lra).
  rewrite E. reflexivity.
Qed.

(** A tie between neighbours breaks both shapes. *)
Lemma tie_is_mixed (values : list Q) i x y :
  values !! i = Some x -> values !! S i = Some y -> x == y ->
  sequence_of (_is_strictly_increasing values) (_is_strictly_decreasing values)
  = mixed.
Proof.
  intros Hx Hy Heq. unfold sequence_of.
  destruct (_is_strictly_increasing values) eqn:Ei.
  { apply SignalFacts.is_strictly_increasing_iff in Ei.
    pose proof (Ei i x y Hx Hy) as Hlt. cbv beta in Hlt. lra. }
  destruct (_is_strictly_decreasing values) eqn:Ed; [|reflexivity].
  apply SignalFacts.is_strictly_decreasing_iff in Ed.
  pose proof (Ed i x y Hx Hy) as Hlt. cbv beta in Hlt. lra.
Qed.

Lemma single_window_change (k : kline) : window_change [k] == 0.
Proof. unfold window_change. simpl. unfold Qdiv. ring. Qed.

(** X12: the details of a result agree with its signal: they are
    missing exactly when the candles are fewer than the lookback; a [buy]
    comes with all three sequences labelled [increasing], a [sell] with
    all three labelled [decreasing]; and a sequence with two equal
    neighbours is labelled [mixed]. *)
Theorem detect_signal_labels (self : detector) (klines : list kline)
        (r : signal_info) :
  detect_signal self klines = Ok r ->
  (details r = None <-> (length klines < lookback_periods self)%nat) /\
  (signal r = buy ->
   exists d, details r = Some d /\ low_sequence d = increasing /\
             close_sequence d = increasing /\ high_sequence d = increasing) /\
  (signal r = sell ->
   exists d, details r = Some d /\ low_sequence d = decreasing /\
             close_sequence d = decreasing /\ high_sequence d = decreasing) /\
  (forall d i x y,
      details r = Some d ->
      (close <$> window self klines) !! i = Some x ->
      (close <$> window self klines) !! S i = Some y ->
      x == y -> close_sequence d = mixed /\ signal r = none).
Proof.
  intros Hr.
  destruct (SignalFacts.detect_signal_inv _ _ _ Hr)
    as [(Hshort & Hnone & _)|(Hlen & _ & Hcase)].
  { rewrite (SignalFacts.detect_signal_short _ _ Hshort) in Hr.
    injection Hr as <-. simpl.
    split; [tauto|]. split; [discriminate|]. split; [discriminate|].
    intros d i x y Hd. discriminate. }
  destruct (detect_signal_details _ _ _ Hr Hlen) as [Hne Hd].
  split; [rewrite Hd; split; [discriminate|lia]|].
  split; [|split].
  - intros Hbuy.
    destruct Hcase as [(_ & (_ & Hl & Hc & Hh) & _)|[(Hs & _)|(Hs & _)]];
      [|congruence|congruence].
    apply SignalFacts.is_strictly_increasing_iff in Hl, Hc, Hh.
    eexists. split; [exact Hd|]. simpl. rewrite Hl, Hc, Hh. auto.
  - intros Hsell.
    destruct Hcase as [(Hs & _)|[(_ & Hnb & (Hchange & Hl & Hc & Hh) & _)|(Hs & _)]];
      [congruence| |congruence].
    eexists. split; [exact Hd|]. simpl.
    destruct (window self klines) as [|k0 [|k1 rest]] eqn:Ew; [congruence| |].
    + exfalso. pose proof (single_window_change k0) as Hz.
      apply Hnb. split; [lra|].
      repeat split; apply TrendFacts.adjacent_short.
    + rewrite !decreasing_not_increasing
        by (assumption || (rewrite length_fmap; simpl; lia)).
      apply SignalFacts.is_strictly_decreasing_iff in Hl, Hc, Hh.
      rewrite Hl, Hc, Hh. auto.
  - intros d i x y Hd' Hx Hy Heq. rewrite Hd in Hd'. injection Hd' as <-. simpl.
    split; [apply (tie_is_mixed _ i x y); assumption|].
    destruct Hcase as [(_ & (_ & _ & Hc & _) & _)|[(_ & _ & (_ & _ & Hc & _) & _)|(Hs & _)]];
      [| |exact Hs].
    + pose proof (Hc i x y Hx Hy) as Hlt. cbv beta in Hlt. lra.
    + pose proof (Hc i x y Hx Hy) as Hlt. cbv beta in Hlt. lra.
Qed.

(** The falling candles: a sell with three decreasing sequences. *)
Lemma detect_signal_labels_witness :
  exists r d,
    detect_signal default_detector falling_candles = Ok r /\
    details r = Some d /\ low_sequence d = decreasing /\
    close_sequence d = decreasing /\ high_sequence d = decreasing.
Proof.
  assert (Hr : detect_signal default_detector falling_candles = Ok _)
    by (vm_compute; reflexivity).
  pose proof (detect_signal_labels default_detector falling_candles _ Hr)
    as (_ & _ & Hsell & _).
  destruct (Hsell eq_refl) as (d & Hd & Hl & Hc & Hh).
  eexists. exists d. split; [exact Hr|]. auto.
Defined.

Lemma batch_snoc self data item :
  detect_signals_batch self (data ++ [item])
  = let* rs := detect_signals_batch self data in
    let* info := detect_signal self item.2 in
    Ok (<[item.1 := info]> rs).
Proof. unfold detect_signals_batch. rewrite foldl_snoc. reflexivity. Qed.

Lemma batch_all_return self data : forall results,
  detect_signals_batch self data = Ok results ->
  Forall (fun item => exists r, detect_signal self item.2 = Ok r) data.
Proof.
  induction data as [|item data IH] using rev_ind; intros results Hr; [constructor|].
  rewrite batch_snoc in Hr.
  destruct (detect_signals_batch self data) as [rs|]; [|discriminate].
  cbn [bind] in Hr.
  destruct (detect_signal self item.2) as [info|] eqn:Ei; [|discriminate].
  apply Forall_app. split; [apply (IH rs); reflexivity|].
  constructor; [eauto|constructor].
Qed.

Lemma batch_returns self data :
  Forall (fun item => exists r, detect_signal self item.2 = Ok r) data ->
  exists results, detect_signals_batch self data = Ok results.
Proof.
  induction data as [|item data IH] using rev_ind; intros Hall.
  - exists ∅. reflexivity.
  - apply Forall_app in Hall. destruct Hall as [Hall Hitem].
    inversion Hitem as [|? ? [info Hinfo] _]; subst.
    destruct (IH Hall) as [rs Hrs].
    rewrite batch_snoc, Hrs. cbn [bind]. rewrite Hinfo. cbn [bind]. eauto.
Qed.

Lemma batch_lookup self data :
  NoDup data.*1 ->
  forall results,
    detect_signals_batch self data = Ok results ->
    forall symbol r,
      results !! symbol = Some r <->
      exists klines, (symbol, klines) ∈ data /\ detect_signal self klines = Ok r.
Proof.
  induction data as [|[s ks] data IH] using rev_ind; intros Hnd results Hr symbol r.
  - injection Hr as <-. rewrite lookup_empty. split; [discriminate|].
    intros (klines & Hin & _). inversion Hin.
  - rewrite fmap_app in Hnd. apply NoDup_app in Hnd.
    destruct Hnd as (Hnd & Hfresh & _).
    assert (Hs : forall ks', (s, ks') ∉ data).
    { intros ks' Hin. apply (Hfresh s).
      - apply list_elem_of_fmap. exists (s, ks'). auto.
      - simpl. left. }
    rewrite batch_snoc in Hr.
    destruct (detect_signals_batch self data) as [rs|]; [|discriminate].
    cbn [bind] in Hr. simpl in Hr.
    destruct (detect_signal self ks) as [info|] eqn:Ei; [|discriminate].
    cbn [bind] in Hr. injection Hr as <-.
    setoid_rewrite elem_of_app. setoid_rewrite list_elem_of_singleton.
    destruct (decide (symbol = s)) as [->|Hne].
    + rewrite lookup_insert_eq. split.
      * intros Heq. injection Heq as <-. exists ks. auto.
      * intros (klines & [Hin|Heq] & Hd).
        -- exfalso. apply (Hs klines), Hin.
        -- injection Heq as ->. congruence.
    + rewrite lookup_insert_ne by congruence. rewrite (IH Hnd rs eq_refl). split.
      * intros (klines & Hin & Hd). eauto.
      * intros (klines & [Hin|Heq] & Hd); [eauto|]. congruence.
Qed.

(** X13: [detect_signals_batch] is all or nothing: it returns a dict
    exactly when the detection returns for every symbol, and the dict then
    holds, for each symbol, the result of its own candles; a single
    symbol whose detection raises makes the whole batch raise. *)
Theorem detect_signals_batch_spec (self : detector)
        (symbols_data : list (string * list kline)) :
  NoDup symbols_data.*1 ->
  (Forall (fun item => exists r, detect_signal self item.2 = Ok r) symbols_data ->
   exists results,
     detect_signals_batch self symbols_data = Ok results /\
     forall symbol r,
       results !! symbol = Some r <->
       exists klines, (symbol, klines) ∈ symbols_data /\
                      detect_signal self klines = Ok r) /\
  (Exists (fun item => exists e, detect_signal self item.2 = Raise e) symbols_data ->
   exists e, detect_signals_batch self symbols_data = Raise e).
Proof.
  intros Hnd. split.
  - intros Hall. destruct (batch_returns self symbols_data Hall) as [results Hr].
    exists results. split; [exact Hr|]. apply batch_lookup; assumption.
  - intros Hex.
    destruct (detect_signals_batch self symbols_data) as [results|e] eqn:Er; [|eauto].
    exfalso. pose proof (batch_all_return _ _ _ Er) as Hall.
    apply Exists_exists in Hex. destruct Hex as (item & Hin & e & He).
    destruct (proj1 (Forall_forall _ _) Hall item Hin) as [r Hok]. congruence.
Qed.

(** Two symbols that return, and one whose window opens at a zero close. *)
Lemma detect_signals_batch_spec_witness :
  (exists results,
      detect_signals_batch default_detector
        [("BTCUSDT", rising_candles); ("ETHUSDT", falling_candles)] = Ok results /\
      exists r, results !! "ETHUSDT" = Some r /\ signal r = sell) /\
  exists e,
    detect_signals_batch default_detector
      [("BTCUSDT", rising_candles);
       ("XYZUSDT", [candle 0 0 1; candle 1 1 2; candle 2 2 3])] = Raise e.
Proof.
  split.
  - destruct (proj1 (detect_signals_batch_spec default_detector
                       [("BTCUSDT", rising_candles); ("ETHUSDT", falling_candles)]
                       ltac:(apply (bool_decide_unpack _); vm_compute; reflexivity)))
      as (results & Hr & Hlookup).
    + repeat constructor; simpl; eexists; vm_compute; reflexivity.
    + exists results. split; [exact Hr|]. eexists. split; [|shelve].
      apply Hlookup. exists falling_candles. split; [right; left|].
      vm_compute. reflexivity.
      Unshelve. reflexivity.
  - apply (proj2 (detect_signals_batch_spec default_detector
                    [("BTCUSDT", rising_candles);
                     ("XYZUSDT", [candle 0 0 1; candle 1 1 2; candle 2 2 3])]
                    ltac:(apply (bool_decide_unpack _); vm_compute; reflexivity))).
    right. left. exists ZeroDivisionError. vm_compute. reflexivity.
Defined.

End DetectorFacts.

(** ** Cache keys and cached fetches *)

Module FetcherFacts.
Import Num NumFacts DataFetcher.
Local Open Scope Q_scope.

Lemma prefix_app (s t : string) : String.prefix s (s +:+ t) = true.
Proof.
  induction s as [|a s IH]; simpl.
  - destruct t; reflexivity.
  - destruct (Ascii.ascii_dec a a) as [_|Hne]; [exact IH|congruence].
Qed.

(** A joined list of parts starts with its first part. *)
Lemma concat_head (sep part : string) (parts : list string) :
  exists rest, String.concat sep (part :: parts) = part +:+ rest.
Proof.
  destruct parts as [|next parts]; simpl.
  - exists "". induction part as [|a part IH]; [reflexivity|].
    change (String a part = String a (part +:+ "")). f_equal. exact IH.
  - eauto.
Qed.

Lemma cache_key_prefix key_type kwargs :
  String.prefix key_type (_get_cache_key key_type kwargs) = true.
Proof.
  unfold _get_cache_key.
  destruct (concat_head ":" key_type
              ((fun kv => kv.1 +:+ "_" +:+ kv.2) <$> merge_sort name_le kwargs))
    as [rest ->].
  apply prefix_app.
Qed.

Section ClearByType.
Context {V : Type}.

(** X14: every cache key starts with its operation name, so
    [clear_cache] with the operation name as prefix removes every entry of
    that operation: any later [get] of such a key is a miss. *)
Theorem clear_cache_by_type (self : fetcher V) (now : Q)
        (key_type : string) (kwargs : list (string * string)) :
  String.prefix key_type (_get_cache_key key_type kwargs) = true /\
  cache (clear_cache self (Some key_type)).1 !! _get_cache_key key_type kwargs
  = None /\
  _get_from_cache now (clear_cache self (Some key_type)).1
                  (_get_cache_key key_type kwargs) = None.
Proof.
  pose proof (cache_key_prefix key_type kwargs) as Hprefix.
  assert (Hgone :
    cache (clear_cache self (Some key_type)).1 !! _get_cache_key key_type kwargs
    = None).
  { unfold clear_cache. simpl. rewrite CacheFacts.delete_keys_lookup.
    destruct (decide _) as [_|Hnin]; [reflexivity|].
    destruct (cache self !! _get_cache_key key_type kwargs) as [entry|] eqn:E;
      [|reflexivity].
    exfalso. apply Hnin, CacheFacts.prefixed_keys. rewrite E. eauto. }
  split; [exact Hprefix|]. split; [exact Hgone|].
  unfold _get_from_cache, _is_cache_valid. rewrite Hgone. reflexivity.
Qed.
End ClearByType.

Lemma name_le_trans : Transitive name_le.
Proof. intros a b c. unfold name_le. apply transitivity. Qed.

Lemma name_le_total : Total name_le.
Proof. intros a b. unfold name_le. apply total, _. Qed.

Lemma same_name_same_item (l : list (string * string)) a b :
  NoDup l.*1 -> a ∈ l -> b ∈ l -> a.1 = b.1 -> a = b.
Proof.
  induction l as [|c l IH]; intros Hnd Ha Hb Hname; [inversion Ha|].
  rewrite fmap_cons in Hnd. apply NoDup_cons in Hnd. destruct Hnd as [Hc Hnd].
  apply elem_of_cons in Ha, Hb.
  destruct Ha as [->|Ha], Hb as [->|Hb].
  - reflexivity.
  - exfalso. apply Hc. rewrite Hname. apply list_elem_of_fmap. eauto.
  - exfalso. apply Hc. rewrite <- Hname. apply list_elem_of_fmap. eauto.
  - apply IH; assumption.
Qed.

(** X15: the cache key does not depend on the order in which the keyword
    arguments are given. *)
Theorem cache_key_order (key_type : string) (kwargs1 kwargs2 : list (string * string)) :
  NoDup kwargs1.*1 -> kwargs1 ≡ₚ kwargs2 ->
  _get_cache_key key_type kwargs1 = _get_cache_key key_type kwargs2.
Proof.
  intros Hnd Hperm. unfold _get_cache_key. do 3 f_equal.
  apply (StronglySorted_unique_strong name_le).
  - intros a b Ha Hb Hab Hba.
    rewrite merge_sort_Permutation in Ha, Hb. rewrite <- Hperm in Hb.
    apply (same_name_same_item kwargs1); [assumption..|].
    unfold name_le in *. apply (anti_symm String.le); assumption.
  - apply (StronglySorted_merge_sort name_le (Transitive0 := name_le_trans)
             (Total0 := name_le_total)).
  - apply (StronglySorted_merge_sort name_le (Transitive0 := name_le_trans)
             (Total0 := name_le_total)).
  - rewrite !merge_sort_Permutation. exact Hperm.
Qed.

(** The arguments of [get_klines] in the order of the call and in another
    order. *)
Lemma cache_key_order_witness :
  _get_cache_key "klines" [("symbol", "BTCUSDT"); ("interval", "15m"); ("limit", "100")]
  = _get_cache_key "klines" [("limit", "100"); ("symbol", "BTCUSDT"); ("interval", "15m")].
Proof.
  apply (cache_key_order "klines"
           [("symbol", "BTCUSDT"); ("interval", "15m"); ("limit", "100")]
           [("limit", "100"); ("symbol", "BTCUSDT"); ("interval", "15m")]).
  - apply (bool_decide_unpack _). vm_compute. reflexivity.
  - exact (Permutation_app_comm [("symbol", "BTCUSDT"); ("interval", "15m")]
                                [("limit", "100")]).
Defined.

(** What [get_klines] does to the cache: nothing, or one store under the
    key of the request. *)
Lemma get_klines_cases client now stored_at self symbol interval limit use_cache :
  get_klines client now stored_at self symbol interval limit use_cache
  = match (if use_cache
           then _get_from_cache now self (klines_key symbol interval limit)
           else None) with
    | Some cached => (cached, self)
    | None =>
        if use_cache && negb (bool_decide (client symbol interval limit = []))
        then (client symbol interval limit,
              _set_to_cache stored_at self (klines_key symbol interval limit)
                            (client symbol interval limit))
        else (client symbol interval limit, self)
    end.
Proof.
  unfold get_klines, klines_key. destruct use_cache; [|reflexivity].
  destruct (_get_from_cache now self _); reflexivity.
Qed.

(** X16: [get_klines] reads through the cache: a valid entry is returned
    as it is, whatever the client would answer; and a non-empty answer
    fetched on a miss is stored, so that the next request for the same
    symbol, interval and limit, made less than [cache_duration] after the
    store, returns that answer and leaves the cache as it is. *)
Theorem get_klines_read_through
        (client client' : string -> string -> nat -> list kline)
        (now stored_at now' stored_at' : Q) (self : fetcher (list kline))
        (symbol interval : string) (limit : nat) :
  (forall cached,
      _get_from_cache now self (klines_key symbol interval limit) = Some cached ->
      get_klines client now stored_at self symbol interval limit true
      = (cached, self)) /\
  (_get_from_cache now self (klines_key symbol interval limit) = None ->
   client symbol interval limit <> [] ->
   now' - stored_at < cache_duration self ->
   (get_klines client now stored_at self symbol interval limit true).1
   = client symbol interval limit /\
   get_klines client' now' stored_at'
              (get_klines client now stored_at self symbol interval limit true).2
              symbol interval limit true
   = (client symbol interval limit,
      (get_klines client now stored_at self symbol interval limit true).2)).
Proof.
  split.
  - intros cached Hhit. rewrite get_klines_cases, Hhit. reflexivity.
  - intros Hmiss Hne Hfresh.
    rewrite (get_klines_cases client), Hmiss.
    rewrite bool_decide_false by exact Hne. cbn [andb negb fst snd].
    split; [reflexivity|].
    rewrite get_klines_cases.
    assert (Hhit : _get_from_cache now'
                     (_set_to_cache stored_at self (klines_key symbol interval limit)
                                    (client symbol interval limit))
                     (klines_key symbol interval limit)
                   = Some (client symbol interval limit)).
    { apply CacheFacts.get_from_cache_Some.
      eexists. split; [apply CacheFacts.set_to_cache_lookup|].
      split; [reflexivity|exact Hfresh]. }
    rewrite Hhit. reflexivity.
Qed.

(** An empty cache, a client that answers the rising candles and, on the
    second call, a client that answers nothing. *)
Lemma get_klines_read_through_witness :
  get_klines (fun _ _ _ => [])
             1299 1300
             (get_klines (fun _ _ _ => rising_candles) 1000 1000 init
                         "BTCUSDT" "15m" 100 true).2
             "BTCUSDT" "15m" 100 true
  = (rising_candles,
     (get_klines (fun _ _ _ => rising_candles) 1000 1000 init
                 "BTCUSDT" "15m" 100 true).2).
Proof.
  apply (proj2 (get_klines_read_through
                  (fun _ _ _ => rising_candles) (fun _ _ _ => [])
                  1000 1000 1299 1300 init "BTCUSDT" "15m" 100)).
  - reflexivity.
  - discriminate.
  - reflexivity.
Defined.

(** X17: [get_klines] changes the cache only by storing a non-empty
    answer fetched on a miss with [use_cache] set, and only under the key
    of the request: every other entry, and the time to live, stay as they
    are; with [use_cache] unset the answer is the client's and the cache
    is untouched. *)
Theorem get_klines_frame (client : string -> string -> nat -> list kline)
        (now stored_at : Q) (self : fetcher (list kline))
        (symbol interval : string) (limit : nat) (use_cache : bool) :
  (forall key, key <> klines_key symbol interval limit ->
     cache (get_klines client now stored_at self symbol interval limit use_cache).2
           !! key = cache self !! key) /\
  cache_duration (get_klines client now stored_at self symbol interval limit use_cache).2
  = cache_duration self /\
  ((get_klines client now stored_at self symbol interval limit use_cache).2 <> self ->
   use_cache = true /\
   _get_from_cache now self (klines_key symbol interval limit) = None /\
   client symbol interval limit <> [] /\
   cache (get_klines client now stored_at self symbol interval limit use_cache).2
         !! klines_key symbol interval limit
   = Some {| data := client symbol interval limit; timestamp := stored_at |}) /\
  get_klines client now stored_at self symbol interval limit false
  = (client symbol interval limit, self).
Proof.
  rewrite !get_klines_cases.
  split; [|split; [|split; [|reflexivity]]].
  - intros key Hkey.
    destruct (if use_cache then _ else None); [reflexivity|].
    destruct (use_cache && _); [|reflexivity].
    simpl. apply lookup_insert_ne. congruence.
  - destruct (if use_cache then _ else None); [reflexivity|].
    destruct (use_cache && _); reflexivity.
  - destruct use_cache; simpl; [|congruence].
    destruct (_get_from_cache now self _) eqn:Eget; simpl; [congruence|].
    destruct (bool_decide (client symbol interval limit = [])) eqn:Eempty;
      simpl; [congruence|].
    intros _. apply bool_decide_eq_false in Eempty.
    split; [reflexivity|]. split; [reflexivity|]. split; [exact Eempty|].
    apply lookup_insert_eq.
Qed.

(** A miss on the empty cache answered by the rising candles: they are
    stored under the key of the request, with the time of the store. *)
Lemma get_klines_frame_witness :
  cache (get_klines (fun _ _ _ => rising_candles) 1000 1001 init
                    "BTCUSDT" "15m" 100 true).2
        !! klines_key "BTCUSDT" "15m" 100
  = Some {| data := rising_candles; timestamp := 1001 |}.
Proof.
  pose proof (get_klines_frame (fun _ _ _ => rising_candles) 1000 1001 init
                               "BTCUSDT" "15m" 100 true) as (_ & _ & Hchanged & _).
  apply Hchanged. intros Hsame.
  apply (f_equal (fun f => cache f !! klines_key "BTCUSDT" "15m" 100)) in Hsame.
  vm_compute in Hsame. discriminate Hsame.
Defined.

(** The key of a klines request, with the keyword arguments in the order
    of their names. *)
Lemma klines_key_parts symbol interval limit :
  klines_key symbol interval limit
  = "klines:interval_" +:+ interval +:+ ":limit_" +:+ pretty limit
    +:+ ":symbol_" +:+ symbol.
Proof. reflexivity. Qed.

Lemma klines_key_symbol_inj symbol symbol' interval limit :
  klines_key symbol interval limit = klines_key symbol' interval limit ->
  symbol = symbol'.
Proof.
  rewrite !klines_key_parts. intros H.
  repeat (apply (inj (String.app _)) in H). exact H.
Qed.

(** X18: the klines of different symbols never share a cache entry: a
    request for one symbol, whatever it fetches or stores, leaves what the
    cache answers for another symbol (same interval and limit) as it
    was, at every time. *)
Theorem get_klines_other_symbol (client : string -> string -> nat -> list kline)
        (now stored_at later : Q) (self : fetcher (list kline))
        (symbol symbol' interval : string) (limit : nat) (use_cache : bool) :
  symbol <> symbol' ->
  klines_key symbol' interval limit <> klines_key symbol interval limit /\
  _get_from_cache later
    (get_klines client now stored_at self symbol interval limit use_cache).2
    (klines_key symbol' interval limit)
  = _get_from_cache later self (klines_key symbol' interval limit).
Proof.
  intros Hother.
  assert (Hkey : klines_key symbol' interval limit <> klines_key symbol interval limit).
  { intros Heq. apply Hother. symmetry. exact (klines_key_symbol_inj _ _ _ _ Heq). }
  split; [exact Hkey|].
  rewrite get_klines_cases.
  destruct (if use_cache then _ else None); [reflexivity|].
  destruct (use_cache && _); [|reflexivity].
  unfold _get_from_cache, _is_cache_valid, _set_to_cache. cbn [fst snd cache cache_duration].
  rewrite lookup_insert_ne by congruence. reflexivity.
Qed.

(** After the klines of BTCUSDT are fetched and stored, a request for
    ETHUSDT is still a miss. *)
Lemma get_klines_other_symbol_witness :
  _get_from_cache 1002
    (get_klines (fun _ _ _ => rising_candles) 1000 1001 init
                "BTCUSDT" "15m" 100 true).2
    (klines_key "ETHUSDT" "15m" 100)
  = _get_from_cache 1002 init (klines_key "ETHUSDT" "15m" 100).
Proof.
  apply (get_klines_other_symbol (fun _ _ _ => rising_candles) 1000 1001 1002 init
                                 "BTCUSDT" "ETHUSDT" "15m" 100 true).
  discriminate.
Defined.

End FetcherFacts.

(** ** The report of one symbol ([process_symbol]) *)

Module PipelineFacts.
Import Num NumFacts Indicators SignalDetector DataProcessor.
Local Open Scope Q_scope.

Lemma calculate_ema_returns prices period :
  (1 <= period)%nat ->
  exists e, calculate_ema prices period = Ok e /\ length e = length prices.
Proof.
  intros Hp. unfold calculate_ema.
  destruct (length prices <? period)%nat.
  - eexists. split; [reflexivity|]. apply length_replicate.
  - destruct (Nat.ltb_spec period 1); [lia|].
    eexists. split; [reflexivity|].
    rewrite length_fmap. apply EmaFacts.ewm_mean_length.
Qed.

Lemma index_last_returns {A} (xs : list A) :
  (1 <= length xs)%nat -> exists x, index_last xs = Ok x.
Proof.
  intros Hlen. unfold index_last. destruct (last xs) as [x|] eqn:E; [eauto|].
  apply last_None in E. subst. simpl in Hlen. lia.
Qed.

Lemma calculate_latest_emas_returns ema_periods prices :
  Forall (fun p => 1 <= p)%nat ema_periods ->
  exists latest, calculate_latest_emas ema_periods prices = Ok latest.
Proof.
  intros Hall. unfold calculate_latest_emas.
  destruct (LatestEmaFacts.calculate_multiple_emas_returns _ prices Hall) as [all ->].
  cbn [bind]. eauto.
Qed.

(** The three series of one list of candles have a value at every index
    [calculate_atr] reads. *)
Lemma calculate_atr_returns (klines : list kline) period :
  exists atr,
    calculate_atr (high <$> klines) (low <$> klines) (close <$> klines) period
    = Ok atr.
Proof.
  unfold calculate_atr.
  destruct (_ || _ || _); [eauto|].
  destruct (AtrFacts.true_ranges_returns (high <$> klines) (low <$> klines)
              (close <$> klines) (seq 1 (length (high <$> klines) - 1)))
    as (trs & -> & _).
  { apply Forall_forall. intros i Hi. apply elem_of_seq in Hi.
    unfold readable. rewrite !length_fmap in *. lia. }
  cbn [bind]. eauto.
Qed.

Lemma calculate_macd_returns prices fast_period slow_period signal_period :
  (1 <= fast_period)%nat -> (1 <= slow_period)%nat -> (1 <= signal_period)%nat ->
  exists m, calculate_macd prices fast_period slow_period signal_period = Ok m.
Proof.
  intros Hf Hs Hg. unfold calculate_macd.
  destruct (Nat.ltb_spec (length prices) (slow_period + signal_period)) as [|Hlen];
    [eauto|].
  destruct (calculate_ema_returns prices fast_period Hf) as (fast & -> & Hfast).
  destruct (calculate_ema_returns prices slow_period Hs) as (slow & -> & Hslow).
  cbn [bind].
  destruct (index_last_returns fast) as [fv ->]; [lia|].
  destruct (index_last_returns slow) as [sv ->]; [lia|].
  cbn [bind]. destruct fv as [fv|]; [|eauto]. destruct sv as [sv|]; [|eauto].
  destruct (macd_prices fast slow) as [|m ms] eqn:Em; [cbn [bind]; eauto|].
  destruct (calculate_ema_returns (m :: ms) signal_period Hg) as (e & -> & He).
  cbn [bind].
  destruct (index_last_returns e) as [s ->]; [simpl in He; lia|].
  cbn [bind]. eauto.
Qed.

(** A window that opens on a zero close: the cumulative change divides by
    that close. *)
Lemma detect_signal_zero_close self klines first :
  (lookback_periods self <= length klines)%nat ->
  head (window self klines) = Some first -> close first == 0 ->
  detect_signal self klines = Raise ZeroDivisionError.
Proof.
  intros Hlen Hhead Hzero. unfold detect_signal.
  destruct (Nat.ltb_spec (length klines) (lookback_periods self)); [lia|].
  fold (window self klines).
  destruct (window self klines) as [|first' rest] eqn:Ew; [discriminate|].
  injection Hhead as ->.
  change (index (close <$> first :: rest) 0) with (Ok (close first)).
  unfold index_last. rewrite fmap_last.
  destruct (last (first :: rest)) as [final|] eqn:El.
  2:{ apply last_None in El. discriminate. }
  cbn [bind fmap option_fmap option_map]. unfold fdiv.
  apply Qeq_bool_iff in Hzero. rewrite Hzero. reflexivity.
Qed.

Lemma detect_signal_total self klines :
  (1 <= lookback_periods self)%nat -> ~ change_threshold self == 0 ->
  ((lookback_periods self <= length klines)%nat /\
   exists first, head (window self klines) = Some first /\ close first == 0) \/
  (~ ((lookback_periods self <= length klines)%nat /\
      exists first, head (window self klines) = Some first /\ close first == 0) /\
   exists info, detect_signal self klines = Ok info).
Proof.
  intros Hlook Ht.
  destruct (Nat.lt_ge_cases (length klines) (lookback_periods self)) as [Hshort|Hlen].
  { right. split; [lia|].
    rewrite (SignalFacts.detect_signal_short _ _ Hshort). eauto. }
  pose proof (DetectorFacts.window_length self klines Hlook Hlen) as Hwlen.
  destruct (window self klines) as [|first rest] eqn:Ew; [simpl in Hwlen; lia|].
  destruct (Qeq_dec (close first) 0) as [Hzero|Hnz].
  - left. split; [exact Hlen|]. exists first. split; [reflexivity|exact Hzero].
  - right. split.
    + intros (_ & first' & Hhead & Hz). injection Hhead as <-. tauto.
    + apply (SignalFacts.detect_signal_returns self klines first Ht Hlen);
        [rewrite Ew; reflexivity|exact Hnz].
Qed.

Section Pipeline.
Variable sqrt : Q -> Q.
Variable now : Q.

(** X19: on at least 10 candles whose cells are numbers, with a
    lookback of at least 1, a non-zero threshold and EMA periods of at
    least 1: when the trailing window opens on a zero close,
    [process_symbol] returns the placeholder with the message of the
    division by zero; otherwise it returns the full report, whose signal,
    confidence and cumulative change are those of [detect_signal], whose
    EMA values are those of [calculate_latest_emas], whose trend is that
    of [analyze_trend] on these, whose price is the last close, and whose
    24h volume and price change are 0.0.  Rows with a cell that
    [float] cannot read are not candles of this embedding; what
    [process_symbol] answers on them is not stated here. *)
Theorem process_symbol_outcome (self : processor) (symbol : string)
        (klines : list kline) :
  (10 <= length klines)%nat ->
  (1 <= lookback_periods (signal_detector self))%nat ->
  ~ change_threshold (signal_detector self) == 0 ->
  Forall (fun p => 1 <= p)%nat (ema_periods self) ->
  ((lookback_periods (signal_detector self) <= length klines)%nat /\
   (exists first, head (window (signal_detector self) klines) = Some first /\
                  close first == 0) /\
   process_symbol sqrt now self symbol klines
   = Placeholder symbol "float division by zero" none 0) \/
  (~ ((lookback_periods (signal_detector self) <= length klines)%nat /\
      exists first, head (window (signal_detector self) klines) = Some first /\
                    close first == 0) /\
   exists r info latest final,
     process_symbol sqrt now self symbol klines = Report r /\
     detect_signal (signal_detector self) klines = Ok info /\
     calculate_latest_emas (ema_periods self) (close <$> klines) = Ok latest /\
     last klines = Some final /\
     report_symbol r = symbol /\
     current_price r = close final /\
     report_signal r = signal info /\
     report_confidence r = confidence info /\
     cumulative_change r = SignalDetector.cumulative_change info /\
     ema_values r = latest /\
     ema_differences r = calculate_ema_differences (close final) latest /\
     trend r = SignalDetector.trend (analyze_trend klines latest) /\
     volume_24h r = 0 /\ price_change_24h r = 0).
Proof.
  intros Hlen Hlook Ht Hperiods.
  assert (Hbody : process_symbol sqrt now self symbol klines
                  = match process_symbol_body sqrt now self symbol klines with
                    | Ok r => Report r
                    | Raise e => Placeholder symbol (exn_message e) none 0
                    end).
  { unfold process_symbol. destruct klines as [|k klines]; [simpl in Hlen; lia|].
    destruct (Nat.ltb_spec (length (k :: klines)) 10); [lia|reflexivity]. }
  rewrite Hbody. unfold process_symbol_body.
  destruct (calculate_latest_emas_returns (ema_periods self) (close <$> klines) Hperiods)
    as [latest Hlatest].
  rewrite Hlatest. cbn [bind].
  destruct (last klines) as [final|] eqn:Efinal.
  2:{ apply last_None in Efinal. subst. simpl in Hlen. lia. }
  unfold index_last. rewrite fmap_last, Efinal.
  cbn [bind fmap option_fmap option_map].
  destruct (detect_signal_total (signal_detector self) klines Hlook Ht)
    as [(Hwin & first & Hhead & Hzero)|(Hnot & info & Hinfo)].
  - left. split; [exact Hwin|]. split; [eauto|].
    rewrite (detect_signal_zero_close _ _ _ Hwin Hhead Hzero). reflexivity.
  - right. split; [exact Hnot|]. rewrite Hinfo. cbn [bind].
    destruct (calculate_atr_returns klines 14) as [a ->]. cbn [bind].
    destruct (calculate_macd_returns (close <$> klines) 12 26 9) as [m ->]; [lia..|].
    cbn [bind]. eexists _, info, latest, final.
    repeat (split; [reflexivity|]). reflexivity.
Qed.
End Pipeline.

(** Ten candles whose trailing window of three opens on a zero close. *)
Lemma process_symbol_outcome_witness :
  process_symbol sqrt_floor 1000 default_processor "BTCUSDT"
                 (replicate 7 (candle 1 1 2)
                  ++ [candle 0 0 1; candle 1 1 2; candle 2 2 3])
  = Placeholder "BTCUSDT" "float division by zero" none 0.
Proof.
  destruct (process_symbol_outcome sqrt_floor 1000 default_processor "BTCUSDT"
              (replicate 7 (candle 1 1 2)
               ++ [candle 0 0 1; candle 1 1 2; candle 2 2 3]))
    as [(_ & _ & Hplaceholder)|(Hnot & _)].
  - simpl. lia.
  - simpl. lia.
  - discriminate.
  - repeat first [apply Forall_nil_2 | apply Forall_cons_2; [cbv beta; lia|]].
  - exact Hplaceholder.
  - exfalso. apply Hnot. split; [simpl; lia|].
    exists (candle 0 0 1). split; reflexivity.
Defined.

End PipelineFacts.

(** ** Filtering, ranking and summary ([app/core/data_processor.py]) *)

Module RankingFacts.
Import Num NumFacts SignalDetector DataProcessor.
Local Open Scope Q_scope.

Section Sort.
Context {A : Type} (key : A -> Q).

Lemma insert_desc_perm x l : insert_desc key x l ≡ₚ x :: l.
Proof.
  induction l as [|y l IH]; simpl; [reflexivity|].
  destruct (Qle_bool (key y) (key x)); [reflexivity|].
  rewrite IH. apply Permutation_swap.
Qed.

Lemma sort_desc_perm l : sort_desc key l ≡ₚ l.
Proof.
  induction l as [|x l IH]; simpl; [reflexivity|].
  rewrite insert_desc_perm. f_equiv. exact IH.
Qed.

Lemma insert_desc_sorted x l :
  StronglySorted (fun a b => key b <= key a) l ->
  StronglySorted (fun a b => key b <= key a) (insert_desc key x l).
Proof.
  induction 1 as [|y l Hs IH Hall]; simpl.
  - repeat constructor.
  - destruct (Qle_bool (key y) (key x)) eqn:E.
    + apply Qle_bool_iff in E.
      constructor; [constructor; assumption|].
      constructor; [exact E|].
      eapply Forall_impl; [exact Hall|].
      intros z Hz. cbv beta in *. eapply Qle_trans; eassumption.
    + apply Qle_bool_false in E.
      constructor; [exact IH|].
      rewrite insert_desc_perm.
      constructor; [apply Qlt_le_weak, E|exact Hall].
Qed.

Lemma sort_desc_sorted l :
  StronglySorted (fun a b => key b <= key a) (sort_desc key l).
Proof.
  induction l as [|x l IH]; simpl; [constructor|].
  apply insert_desc_sorted, IH.
Qed.

(** Stability: the rows of one key value are not reordered. *)
Lemma insert_desc_stable v x l :
  filter (fun y => Qeq_bool (key y) v = true) (insert_desc key x l)
  = filter (fun y => Qeq_bool (key y) v = true) (x :: l).
Proof.
  induction l as [|y l IH]; simpl; [reflexivity|].
  destruct (Qle_bool (key y) (key x)) eqn:E; [reflexivity|].
  apply Qle_bool_false in E.
  destruct (Qeq_bool (key x) v) eqn:Ex.
  - assert (Hy : Qeq_bool (key y) v = false).
    { apply Qeq_bool_false. apply Qeq_bool_iff in Ex. lra. }
    rewrite (filter_cons_False _ y) by congruence.
    rewrite IH.
    rewrite !(filter_cons_True _ x) by exact Ex.
    rewrite (filter_cons_False _ y) by congruence. reflexivity.
  - rewrite (filter_cons_False _ x (y :: l)) by congruence.
    rewrite !(filter_cons _ y). rewrite IH.
    rewrite (filter_cons_False _ x l) by congruence. reflexivity.
Qed.

Lemma sort_desc_stable v l :
  filter (fun y => Qeq_bool (key y) v = true) (sort_desc key l)
  = filter (fun y => Qeq_bool (key y) v = true) l.
Proof.
  induction l as [|x l IH]; simpl; [reflexivity|].
  rewrite insert_desc_stable, !filter_cons, IH. reflexivity.
Qed.
End Sort.

(** *** [filter_trading_pairs] *)

Lemma float_of_raises f e :
  float_of f = Raise e -> e = ValueError \/ e = TypeError.
Proof. destruct f; simpl; intros H; try discriminate; injection H as <-; auto. Qed.

Lemma int_of_raises f e :
  int_of f = Raise e -> e = ValueError \/ e = TypeError.
Proof. destruct f; simpl; intros H; try discriminate; injection H as <-; auto. Qed.

Lemma filter_ticker_raises self t e :
  filter_ticker self t = Raise e -> e = ValueError \/ e = TypeError.
Proof.
  unfold filter_ticker.
  destruct (float_of (quoteVolume t)) eqn:E1; cbn [bind];
    [|intros H; injection H as <-; eapply float_of_raises, E1].
  destruct (float_of (priceChangePercent t)) eqn:E2; cbn [bind];
    [|intros H; injection H as <-; eapply float_of_raises, E2].
  destruct (_ && _); [|discriminate].
  destruct (float_of (lastPrice t)) eqn:E3; cbn [bind];
    [|intros H; injection H as <-; eapply float_of_raises, E3].
  destruct (float_of (highPrice t)) eqn:E4; cbn [bind];
    [|intros H; injection H as <-; eapply float_of_raises, E4].
  destruct (float_of (lowPrice t)) eqn:E5; cbn [bind];
    [|intros H; injection H as <-; eapply float_of_raises, E5].
  destruct (float_of (ticker_volume t)) eqn:E6; cbn [bind];
    [|intros H; injection H as <-; eapply float_of_raises, E6].
  destruct (int_of (ticker_count t)) eqn:E7; cbn [bind];
    [discriminate|intros H; injection H as <-; eapply int_of_raises, E7].
Qed.

Lemma float_of_no_null f :
  f <> Null -> float_of f <> Raise TypeError.
Proof. destruct f; simpl; congruence. Qed.

Lemma int_of_no_null f :
  f <> NullCount -> int_of f <> Raise TypeError.
Proof. destruct f; simpl; congruence. Qed.

(** A ticker without a [None] value never raises [TypeError]. *)
Lemma filter_ticker_no_null self t :
  quoteVolume t <> Null -> priceChangePercent t <> Null ->
  lastPrice t <> Null -> highPrice t <> Null -> lowPrice t <> Null ->
  ticker_volume t <> Null -> ticker_count t <> NullCount ->
  filter_ticker self t <> Raise TypeError.
Proof.
  intros H1 H2 H3 H4 H5 H6 H7. unfold filter_ticker.
  apply float_of_no_null in H1, H2, H3, H4, H5, H6. apply int_of_no_null in H7.
  destruct (float_of (quoteVolume t)); cbn [bind]; [|congruence].
  destruct (float_of (priceChangePercent t)); cbn [bind]; [|congruence].
  destruct (_ && _); [|discriminate].
  destruct (float_of (lastPrice t)); cbn [bind]; [|congruence].
  destruct (float_of (highPrice t)); cbn [bind]; [|congruence].
  destruct (float_of (lowPrice t)); cbn [bind]; [|congruence].
  destruct (float_of (ticker_volume t)); cbn [bind]; [|congruence].
  destruct (int_of (ticker_count t)); cbn [bind]; [discriminate|congruence].
Qed.

(** The pair a ticker gives: every value can be read and the two
    thresholds are met. *)
Lemma filter_ticker_Some self t p :
  filter_ticker self t = Ok (Some p) <->
  pair_symbol p = default "" (ticker_symbol t) /\
  float_of (quoteVolume t) = Ok (quote_volume p) /\
  float_of (priceChangePercent t) = Ok (price_change_percent p) /\
  volume_threshold self <= quote_volume p /\
  price_change_threshold self <= Qabs (price_change_percent p) /\
  float_of (lastPrice t) = Ok (last_price p) /\
  float_of (highPrice t) = Ok (high_price p) /\
  float_of (lowPrice t) = Ok (low_price p) /\
  float_of (ticker_volume t) = Ok (pair_volume p) /\
  int_of (ticker_count t) = Ok (trades p).
Proof.
  unfold filter_ticker. split.
  - destruct (float_of (quoteVolume t)) as [qv|]; cbn [bind]; [|discriminate].
    destruct (float_of (priceChangePercent t)) as [pc|]; cbn [bind]; [|discriminate].
    destruct (Qle_bool (volume_threshold self) qv) eqn:Ev; [|discriminate].
    destruct (Qle_bool (price_change_threshold self) (Qabs pc)) eqn:Ec;
      [|discriminate].
    cbn [andb].
    destruct (float_of (lastPrice t)) as [lp|]; cbn [bind]; [|discriminate].
    destruct (float_of (highPrice t)) as [hp|]; cbn [bind]; [|discriminate].
    destruct (float_of (lowPrice t)) as [wp|]; cbn [bind]; [|discriminate].
    destruct (float_of (ticker_volume t)) as [vol|]; cbn [bind]; [|discriminate].
    destruct (int_of (ticker_count t)) as [n|]; cbn [bind]; [|discriminate].
    intros H. injection H as <-. cbn.
    apply Qle_bool_iff in Ev, Ec. auto 12.
  - intros (Hs & -> & -> & Hv & Hc & -> & -> & -> & -> & ->). cbn [bind].
    apply Qle_bool_iff in Hv, Hc. rewrite Hv, Hc. cbn [andb].
    destruct p. cbn in *. subst. reflexivity.
Qed.

Lemma omap_length_le {A B} (f : A -> option B) (l : list A) :
  (length (omap f l) <= length l)%nat.
Proof.
  induction l as [|x l IH]; [reflexivity|]. csimpl.
  destruct (f x); simpl; lia.
Qed.

(** The loop: it keeps the pairs of the tickers read so far, skipping
    those that raise [ValueError], until a ticker raises [TypeError]. *)
Lemma filter_loop self tickers :
  (Forall (fun t => filter_ticker self t <> Raise TypeError) tickers /\
   foldl (fun filtered ticker =>
            let* acc := filtered in
            match filter_ticker self ticker with
            | Ok (Some item) => Ok (acc ++ [item])
            | Ok None => Ok acc
            | Raise ValueError => Ok acc
            | Raise e => Raise e
            end)
         (Ok []) tickers
   = Ok (omap (fun t => match filter_ticker self t with
                        | Ok (Some item) => Some item
                        | _ => None
                        end) tickers)) \/
  (Exists (fun t => filter_ticker self t = Raise TypeError) tickers /\
   foldl (fun filtered ticker =>
            let* acc := filtered in
            match filter_ticker self ticker with
            | Ok (Some item) => Ok (acc ++ [item])
            | Ok None => Ok acc
            | Raise ValueError => Ok acc
            | Raise e => Raise e
            end)
         (Ok []) tickers
   = Raise TypeError).
Proof.
  induction tickers as [|t tickers IH] using rev_ind.
  - left. split; [constructor|reflexivity].
  - rewrite foldl_snoc, omap_app. simpl (omap _ [t]).
    destruct IH as [[Hall ->]|[Hex ->]]; cbn [bind].
    + destruct (filter_ticker self t) as [[item|]|e] eqn:E.
      * left. split; [|reflexivity].
        apply Forall_app. split; [exact Hall|]. repeat constructor. congruence.
      * left. split; [|rewrite app_nil_r; reflexivity].
        apply Forall_app. split; [exact Hall|]. repeat constructor. congruence.
      * destruct (filter_ticker_raises _ _ _ E) as [-> | ->].
        -- left. split; [|rewrite app_nil_r; reflexivity].
           apply Forall_app. split; [exact Hall|]. repeat constructor. congruence.
        -- right. split; [|reflexivity].
           apply Exists_app. right. left. exact E.
    + right. split; [|reflexivity]. apply Exists_app. left. exact Hex.
Qed.

(** X20: [filter_trading_pairs] skips a ticker with a string that is not
    a number and stops on a ticker with a [None] value.  When no ticker
    raises [TypeError], as when none holds a [None] value, it returns the
    list, in order of decreasing quote volume, of exactly the pairs of the
    tickers whose quote volume and price change can be read and meet the
    two thresholds and whose other values can be read too.  When a ticker
    raises [TypeError], as one whose quote volume is [None] does, the call
    raises it and returns nothing. *)
Theorem filter_trading_pairs_spec (self : thresholds) (ticker_data : list ticker) :
  (Forall (fun t => filter_ticker self t <> Raise TypeError) ticker_data ->
   exists pairs,
     filter_trading_pairs self ticker_data = Ok pairs /\
     StronglySorted (fun a b => quote_volume b <= quote_volume a) pairs /\
     (length pairs <= length ticker_data)%nat /\
     forall p,
       p ∈ pairs <->
       exists t, t ∈ ticker_data /\
         pair_symbol p = default "" (ticker_symbol t) /\
         float_of (quoteVolume t) = Ok (quote_volume p) /\
         float_of (priceChangePercent t) = Ok (price_change_percent p) /\
         volume_threshold self <= quote_volume p /\
         price_change_threshold self <= Qabs (price_change_percent p) /\
         float_of (lastPrice t) = Ok (last_price p) /\
         float_of (highPrice t) = Ok (high_price p) /\
         float_of (lowPrice t) = Ok (low_price p) /\
         float_of (ticker_volume t) = Ok (pair_volume p) /\
         int_of (ticker_count t) = Ok (trades p)) /\
  (Exists (fun t => filter_ticker self t = Raise TypeError) ticker_data ->
   filter_trading_pairs self ticker_data = Raise TypeError) /\
  (forall t,
      quoteVolume t <> Null -> priceChangePercent t <> Null ->
      lastPrice t <> Null -> highPrice t <> Null -> lowPrice t <> Null ->
      ticker_volume t <> Null -> ticker_count t <> NullCount ->
      filter_ticker self t <> Raise TypeError) /\
  (forall t, quoteVolume t = Null -> filter_ticker self t = Raise TypeError).
Proof.
  unfold filter_trading_pairs.
  split; [|split; [|split]].
  - intros Hall.
    destruct (filter_loop self ticker_data) as [[_ ->]|[Hex _]].
    2:{ exfalso. apply Exists_exists in Hex. destruct Hex as (t & Ht & Hraise).
        exact (proj1 (Forall_forall _ _) Hall t Ht Hraise). }
    cbn [bind]. eexists. split; [reflexivity|].
    split; [apply sort_desc_sorted|].
    split.
    + rewrite sort_desc_perm. apply omap_length_le.
    + intros p. rewrite sort_desc_perm, list_elem_of_omap.
      split.
      * intros (t & Ht & Hp). exists t. split; [exact Ht|].
        apply filter_ticker_Some.
        destruct (filter_ticker self t) as [[item|]|e]; congruence.
      * intros (t & Ht & Hp). exists t. split; [exact Ht|].
        apply filter_ticker_Some in Hp. rewrite Hp. reflexivity.
  - intros Hex.
    destruct (filter_loop self ticker_data) as [[Hall _]|[_ ->]]; [|reflexivity].
    exfalso. apply Exists_exists in Hex. destruct Hex as (t & Ht & Hraise).
    exact (proj1 (Forall_forall _ _) Hall t Ht Hraise).
  - intros t. apply filter_ticker_no_null.
  - intros t Hnull. unfold filter_ticker. rewrite Hnull. reflexivity.
Qed.

(** Three tickers above the thresholds, the second with a turnover that
    is not a number: it is skipped, and the other two come out by
    decreasing turnover. *)
Lemma filter_trading_pairs_spec_witness :
  exists pairs,
    filter_trading_pairs default_thresholds
      [ {| ticker_symbol := Some "AAAUSDT"; quoteVolume := Number 60000000;
           priceChangePercent := Number 2; lastPrice := Number 1;
           highPrice := Number 2; lowPrice := Number 1;
           ticker_volume := Number 5; ticker_count := Count 7 |};
        {| ticker_symbol := Some "BBBUSDT"; quoteVolume := Garbage;
           priceChangePercent := Number 2; lastPrice := Number 1;
           highPrice := Number 2; lowPrice := Number 1;
           ticker_volume := Number 5; ticker_count := Count 7 |};
        {| ticker_symbol := Some "CCCUSDT"; quoteVolume := Number 90000000;
           priceChangePercent := Number (-3); lastPrice := Number 1;
           highPrice := Number 2; lowPrice := Number 1;
           ticker_volume := Number 5; ticker_count := Count 7 |} ] = Ok pairs /\
    StronglySorted (fun a b => quote_volume b <= quote_volume a) pairs.
Proof.
  destruct (proj1 (filter_trading_pairs_spec default_thresholds
      [ {| ticker_symbol := Some "AAAUSDT"; quoteVolume := Number 60000000;
           priceChangePercent := Number 2; lastPrice := Number 1;
           highPrice := Number 2; lowPrice := Number 1;
           ticker_volume := Number 5; ticker_count := Count 7 |};
        {| ticker_symbol := Some "BBBUSDT"; quoteVolume := Garbage;
           priceChangePercent := Number 2; lastPrice := Number 1;
           highPrice := Number 2; lowPrice := Number 1;
           ticker_volume := Number 5; ticker_count := Count 7 |};
        {| ticker_symbol := Some "CCCUSDT"; quoteVolume := Number 90000000;
           priceChangePercent := Number (-3); lastPrice := Number 1;
           highPrice := Number 2; lowPrice := Number 1;
           ticker_volume := Number 5; ticker_count := Count 7 |} ]))
    as (pairs & Hpairs & Hsorted & _).
  - repeat (apply Forall_cons_2; [discriminate|]). apply Forall_nil_2.
  - exists pairs. split; [exact Hpairs|exact Hsorted].
Defined.

(** *** [filter_by_signal] *)

Lemma signal_eqb_iff a b : signal_eqb a b = true <-> a = b.
Proof. destruct a, b; simpl; split; congruence. Qed.

Section Signals.
Context {D : Type}.
Variable get_signal : D -> signal_kind.
Variable get_confidence : D -> Q.

Lemma is_signal_iff kind min_confidence d :
  is_signal get_signal get_confidence kind min_confidence d = true <->
  get_signal d = kind /\ min_confidence <= get_confidence d.
Proof.
  unfold is_signal. rewrite andb_true_iff, signal_eqb_iff, Qle_bool_iff. tauto.
Qed.

(** The two lists before they are sorted. *)
Lemma signal_loop processed_data min_confidence :
  foldl (fun (signals : list D * list D) data =>
           if is_signal get_signal get_confidence buy min_confidence data
           then (signals.1 ++ [data], signals.2)
           else if is_signal get_signal get_confidence sell min_confidence data
           then (signals.1, signals.2 ++ [data])
           else signals)
        ([], []) processed_data
  = (filter (fun d => is_signal get_signal get_confidence buy min_confidence d = true)
            processed_data,
     filter (fun d => is_signal get_signal get_confidence sell min_confidence d = true)
            processed_data).
Proof.
  induction processed_data as [|d l IH] using rev_ind; [reflexivity|].
  rewrite foldl_snoc, IH, !filter_app. cbn [fst snd].
  destruct (is_signal get_signal get_confidence buy min_confidence d) eqn:Eb.
  - assert (Es : is_signal get_signal get_confidence sell min_confidence d = false).
    { apply is_signal_iff in Eb. destruct Eb as [Eb _].
      unfold is_signal. rewrite Eb. reflexivity. }
    rewrite (filter_cons_True _ d) by exact Eb.
    rewrite (filter_cons_False _ d) by congruence.
    rewrite app_nil_r. reflexivity.
  - rewrite (filter_cons_False _ d []) by congruence.
    destruct (is_signal get_signal get_confidence sell min_confidence d) eqn:Es.
    + rewrite (filter_cons_True _ d) by exact Es.
      rewrite app_nil_r. reflexivity.
    + rewrite (filter_cons_False _ d []) by congruence.
      rewrite !app_nil_r. reflexivity.
Qed.

Lemma exclusive_filters (l : list D) min_confidence :
  (length (filter (fun d => is_signal get_signal get_confidence buy min_confidence d = true) l)
   + length (filter (fun d => is_signal get_signal get_confidence sell min_confidence d = true) l)
   <= length l)%nat.
Proof.
  induction l as [|d l IH]; [reflexivity|].
  rewrite !filter_cons.
  destruct (decide (is_signal get_signal get_confidence buy min_confidence d = true))
    as [Eb|Eb];
    destruct (decide (is_signal get_signal get_confidence sell min_confidence d = true))
    as [Es|Es]; simpl; try lia.
  apply is_signal_iff in Eb, Es. destruct Eb as [Eb _], Es as [Es _]. congruence.
Qed.


(** X21: [filter_by_signal] returns, as buys, exactly the rows whose
    signal is 'buy' and whose confidence is at least [min_confidence],
    and as sells those whose signal is 'sell' with such a confidence;
    both lists are in order of decreasing confidence, rows of equal
    confidence keep the order they had in [processed_data], and no row is
    in both lists. *)
Theorem filter_by_signal_spec (processed_data : list D) (min_confidence : Q) :
  (forall d, d ∈ (filter_by_signal get_signal get_confidence processed_data min_confidence).1
             <-> d ∈ processed_data /\ get_signal d = buy /\
                 min_confidence <= get_confidence d) /\
  (forall d, d ∈ (filter_by_signal get_signal get_confidence processed_data min_confidence).2
             <-> d ∈ processed_data /\ get_signal d = sell /\
                 min_confidence <= get_confidence d) /\
  StronglySorted (fun a b => get_confidence b <= get_confidence a)
    (filter_by_signal get_signal get_confidence processed_data min_confidence).1 /\
  StronglySorted (fun a b => get_confidence b <= get_confidence a)
    (filter_by_signal get_signal get_confidence processed_data min_confidence).2 /\
  (forall c,
      sublist (filter (fun d => Qeq_bool (get_confidence d) c = true)
                 (filter_by_signal get_signal get_confidence processed_data min_confidence).1)
              processed_data /\
      sublist (filter (fun d => Qeq_bool (get_confidence d) c = true)
                 (filter_by_signal get_signal get_confidence processed_data min_confidence).2)
              processed_data) /\
  (length (filter_by_signal get_signal get_confidence processed_data min_confidence).1
   + length (filter_by_signal get_signal get_confidence processed_data min_confidence).2
   <= length processed_data)%nat.
Proof.
  unfold filter_by_signal. rewrite signal_loop. cbn [fst snd].
  split; [|split; [|split; [|split; [|split]]]].
  - intros d. rewrite sort_desc_perm, list_elem_of_filter, is_signal_iff. tauto.
  - intros d. rewrite sort_desc_perm, list_elem_of_filter, is_signal_iff. tauto.
  - apply sort_desc_sorted.
  - apply sort_desc_sorted.
  - intros c. rewrite !sort_desc_stable.
    split; (etransitivity; [apply sublist_filter|apply sublist_filter]).
  - rewrite !sort_desc_perm. apply exclusive_filters.
Qed.
End Signals.

(** *** [generate_summary] *)

Lemma Qsum_between lo hi xs :
  Forall (fun x => lo <= x <= hi) xs ->
  lo * Qnat (length xs) <= Qsum xs <= hi * Qnat (length xs).
Proof.
  induction 1 as [|x xs Hx _ IH].
  - change (lo * 0 <= 0 <= hi * 0). lra.
  - cbn [length]. change (Qsum (x :: xs)) with (x + Qsum xs).
    rewrite Qnat_S. lra.
Qed.

Lemma fdiv_between lo hi xs :
  xs <> [] -> Forall (fun x => lo <= x <= hi) xs ->
  exists a, fdiv (Qsum xs) (Qnat (length xs)) = Ok a /\ lo <= a <= hi.
Proof.
  intros Hne Hall.
  assert (Hpos : 0 < Qnat (length xs)).
  { apply Qnat_pos. destruct xs; [congruence|simpl; lia]. }
  unfold fdiv.
  assert (Hnz : Qeq_bool (Qnat (length xs)) 0 = false)
    by (apply Qeq_bool_false; lra).
  rewrite Hnz. eexists. split; [reflexivity|].
  destruct (Qsum_between lo hi xs Hall) as [Hlo Hhi].
  split.
  - apply Qle_shift_div_l; assumption.
  - apply Qle_shift_div_r; assumption.
Qed.

Lemma fdiv_count x n :
  (0 < n)%nat -> fdiv x (Qnat n) = Ok (x / Qnat n).
Proof.
  intros Hn. unfold fdiv.
  assert (Hnz : Qeq_bool (Qnat n) 0 = false).
  { apply Qeq_bool_false. pose proof (Qnat_pos n ltac:(lia)). lra. }
  rewrite Hnz. reflexivity.
Qed.

Lemma average_between lo hi xs :
  lo <= 0 <= hi -> Forall (fun x => lo <= x <= hi) xs ->
  exists a, average xs = Ok a /\ lo <= a <= hi.
Proof.
  intros H0 Hall. destruct xs as [|x xs].
  - exists 0. split; [reflexivity|exact H0].
  - apply (fdiv_between lo hi (x :: xs)); [discriminate|exact Hall].
Qed.

Lemma foldl_Qmax_ge xs : forall a,
  a <= foldl Qmax a xs /\ Forall (fun x => x <= foldl Qmax a xs) xs.
Proof.
  induction xs as [|x xs IH]; intros a; simpl.
  - split; [lra|constructor].
  - destruct (IH (Qmax a x)) as [Ha Hall].
    pose proof (Q.le_max_l a x). pose proof (Q.le_max_r a x).
    split; [lra|]. constructor; [lra|exact Hall].
Qed.

Lemma maximum_ge xs : Forall (fun x => x <= maximum xs) xs.
Proof.
  destruct xs as [|x xs]; [constructor|]. unfold maximum.
  destruct (foldl_Qmax_ge xs x) as [Hx Hall]. constructor; assumption.
Qed.

Lemma bounded_below xs hi :
  Forall (fun x => x <= hi) xs -> exists lo, Forall (fun x => lo <= x <= hi) xs.
Proof.
  induction 1 as [|x xs Hx _ [lo IH]].
  - exists 0. constructor.
  - exists (Qmin lo x). constructor.
    + pose proof (Q.le_min_r lo x). lra.
    + eapply Forall_impl; [exact IH|]. intros y Hy. cbv beta in *.
      pose proof (Q.le_min_l lo x). lra.
Qed.

Lemma omap_all_None {A B} (f : A -> option B) (l : list A) :
  Forall (fun x => f x = None) l -> omap f l = [].
Proof.
  induction 1 as [|x l Hx _ IH]; [reflexivity|]. csimpl. rewrite Hx. exact IH.
Qed.

Lemma maximum_nonneg xs : Forall (fun x => 0 <= x) xs -> 0 <= maximum xs.
Proof.
  destruct xs as [|x xs]; intros Hall; [simpl; lra|].
  inversion Hall as [|? ? Hx _]; subst. unfold maximum.
  destruct (foldl_Qmax_ge xs x) as [Hge _]. lra.
Qed.

Section Summary.
Context {D : Type}.
Variable get_signal : D -> signal_kind.
Variable get_confidence : D -> Q.
Variable get_volume_24h : D -> option Q.
Variable get_price_change_24h : D -> option Q.

Lemma exclusive_counts (l : list D) :
  (length (filter (fun d => signal_eqb (get_signal d) buy = true) l)
   + length (filter (fun d => signal_eqb (get_signal d) sell = true) l)
   <= length l)%nat.
Proof.
  induction l as [|d l IH]; [reflexivity|].
  rewrite !filter_cons.
  destruct (decide (signal_eqb (get_signal d) buy = true)) as [Eb|Eb];
    destruct (decide (signal_eqb (get_signal d) sell = true)) as [Es|Es];
    simpl; try lia.
  apply signal_eqb_iff in Eb, Es. congruence.
Qed.

Lemma confidence_avg (kind : signal_kind) (l : list D) :
  exists avg,
    (if (0 <? length (filter (fun d => signal_eqb (get_signal d) kind = true) l))%nat
     then fdiv (Qsum (get_confidence <$>
                        filter (fun d => signal_eqb (get_signal d) kind = true) l))
               (Qnat (length (filter (fun d => signal_eqb (get_signal d) kind = true) l)))
     else Ok 0) = Ok avg /\
    (length (filter (fun d => signal_eqb (get_signal d) kind = true) l) = 0%nat ->
     avg = 0) /\
    (forall lo hi,
        (forall d, d ∈ l -> get_signal d = kind -> lo <= get_confidence d <= hi) ->
        (0 < length (filter (fun d => signal_eqb (get_signal d) kind = true) l))%nat ->
        lo <= avg <= hi).
Proof.
  set (rows := filter (fun d => signal_eqb (get_signal d) kind = true) l).
  assert (Hrows : forall d, d ∈ rows -> d ∈ l /\ get_signal d = kind).
  { intros d Hd. apply list_elem_of_filter in Hd. rewrite signal_eqb_iff in Hd. tauto. }
  destruct (Nat.ltb_spec 0 (length rows)) as [Hpos|Hzero].
  - rewrite fdiv_count by exact Hpos.
    eexists. split; [reflexivity|]. split; [lia|].
    intros lo hi Hall _.
    destruct (fdiv_between lo hi (get_confidence <$> rows)) as (a & Ha & Hbounds).
    + destruct rows; [simpl in Hpos; lia|discriminate].
    + apply Forall_fmap, Forall_forall. intros d Hd.
      destruct (Hrows d Hd) as [Hin Hkind]. apply (Hall d Hin Hkind).
    + rewrite length_fmap, fdiv_count in Ha by exact Hpos.
      injection Ha as <-. exact Hbounds.
  - exists 0. split; [reflexivity|]. split; [reflexivity|]. intros; lia.
Qed.

Lemma average_returns xs : exists a, average xs = Ok a /\ (xs = [] -> a = 0).
Proof.
  destruct xs as [|x xs]; [exists 0; auto|].
  unfold average. rewrite (fdiv_count _ (length (x :: xs))) by (simpl; lia).
  eexists. split; [reflexivity|discriminate].
Qed.

Lemma Qmax_cases x y : Qmax x y = x \/ Qmax x y = y.
Proof.
  unfold Qmax, GenericMinMax.gmax. destruct (x ?= y); auto.
Qed.

Lemma foldl_Qmax_elem xs : forall a, foldl Qmax a xs = a \/ foldl Qmax a xs ∈ xs.
Proof.
  induction xs as [|x xs IH]; intros a; simpl; [auto|].
  destruct (IH (Qmax a x)) as [H|H].
  - rewrite H. destruct (Qmax_cases a x) as [->| ->]; [auto|].
    right. left.
  - right. right. exact H.
Qed.

Lemma maximum_elem xs : xs <> [] -> maximum xs ∈ xs.
Proof.
  destruct xs as [|x xs]; [congruence|]. intros _. unfold maximum.
  destruct (foldl_Qmax_elem xs x) as [->|H]; [left|right; exact H].
Qed.

Lemma count_positive (kind : signal_kind) (l : list D) :
  (0 < length (filter (fun d => signal_eqb (get_signal d) kind = true) l))%nat <->
  exists d, d ∈ l /\ get_signal d = kind.
Proof.
  split.
  - intros Hpos.
    destruct (filter (fun d => signal_eqb (get_signal d) kind = true) l)
      as [|d rest] eqn:E; [simpl in Hpos; lia|].
    assert (Hd : d ∈ filter (fun d => signal_eqb (get_signal d) kind = true) l)
      by (rewrite E; left).
    apply list_elem_of_filter in Hd. rewrite signal_eqb_iff in Hd.
    exists d. tauto.
  - intros (d & Hd & Hkind).
    assert (Hin : d ∈ filter (fun d => signal_eqb (get_signal d) kind = true) l).
    { apply list_elem_of_filter. rewrite signal_eqb_iff. auto. }
    destruct (filter _ l); [inversion Hin|simpl; lia].
Qed.

(** What [generate_summary] returns. *)
Lemma generate_summary_facts (now : Q) (processed_data : list D) :
  exists s,
    generate_summary get_signal get_confidence get_volume_24h get_price_change_24h
                     now processed_data = Ok s /\
    total_symbols s = length processed_data /\
    (buy_signals s + sell_signals s <= total_symbols s)%nat /\
    ((0 < buy_signals s)%nat <->
     exists d, d ∈ processed_data /\ get_signal d = buy) /\
    ((0 < sell_signals s)%nat <->
     exists d, d ∈ processed_data /\ get_signal d = sell) /\
    (buy_signals s = 0%nat -> buy_confidence_avg s = 0) /\
    (sell_signals s = 0%nat -> sell_confidence_avg s = 0) /\
    (forall lo hi,
        (forall d, d ∈ processed_data -> get_signal d = buy ->
                   lo <= get_confidence d <= hi) ->
        (0 < buy_signals s)%nat -> lo <= buy_confidence_avg s <= hi) /\
    (forall lo hi,
        (forall d, d ∈ processed_data -> get_signal d = sell ->
                   lo <= get_confidence d <= hi) ->
        (0 < sell_signals s)%nat -> lo <= sell_confidence_avg s <= hi) /\
    (forall d v, d ∈ processed_data -> truthy (get_volume_24h d) = Some v ->
                 v <= max_volume s) /\
    ((exists d v, d ∈ processed_data /\ truthy (get_volume_24h d) = Some v) ->
     exists d, d ∈ processed_data /\
               truthy (get_volume_24h d) = Some (max_volume s)) /\
    (forall d p, d ∈ processed_data -> truthy (get_price_change_24h d) = Some p ->
                 Qabs p <= max_price_change s) /\
    0 <= max_price_change s /\
    (Forall (fun d => truthy (get_volume_24h d) = None) processed_data ->
     avg_volume s = 0 /\ max_volume s = 0) /\
    (Forall (fun d => truthy (get_price_change_24h d) = None) processed_data ->
     avg_price_change s = 0 /\ max_price_change s = 0).
Proof.
  unfold generate_summary.
  destruct (confidence_avg buy processed_data) as (bavg & -> & Hb0 & Hb).
  destruct (confidence_avg sell processed_data) as (savg & -> & Hs0 & Hs).
  cbn [bind].
  set (volumes := omap (fun d => truthy (get_volume_24h d)) processed_data).
  set (price_changes := omap (fun d => truthy (get_price_change_24h d)) processed_data).
  destruct (average_returns volumes) as (avgv & Hvol & Hvol0). rewrite Hvol.
  destruct (average_returns price_changes) as (avgp & Hchg & Hchg0). rewrite Hchg.
  cbn [bind].
  eexists. split; [reflexivity|]. cbn.
  split; [reflexivity|].
  split; [apply exclusive_counts|].
  split; [apply count_positive|]. split; [apply count_positive|].
  split; [exact Hb0|]. split; [exact Hs0|].
  split; [exact Hb|]. split; [exact Hs|].
  split.
  { intros d v Hd Hv.
    apply (proj1 (Forall_forall _ _) (maximum_ge volumes)).
    apply list_elem_of_omap. eauto. }
  split.
  { intros (d & v & Hd & Hv).
    assert (Hne : volumes <> []).
    { intros Hempty. assert (Hin : v ∈ volumes) by (apply list_elem_of_omap; eauto).
      rewrite Hempty in Hin. inversion Hin. }
    pose proof (maximum_elem volumes Hne) as Hmax.
    apply list_elem_of_omap in Hmax. exact Hmax. }
  split.
  { intros d p Hd Hp.
    apply (proj1 (Forall_forall _ _) (maximum_ge (Qabs <$> price_changes))).
    apply list_elem_of_fmap. exists p. split; [reflexivity|].
    apply list_elem_of_omap. eauto. }
  split.
  { apply maximum_nonneg, Forall_fmap, Forall_forall. intros x _. apply Qabs_nonneg. }
  split.
  - intros Hnone. assert (Hempty : volumes = []) by (apply omap_all_None, Hnone).
    rewrite Hempty. split; [apply Hvol0, Hempty|reflexivity].
  - intros Hnone.
    assert (Hempty : price_changes = []) by (apply omap_all_None, Hnone).
    rewrite Hempty. split; [apply Hchg0, Hempty|reflexivity].
Qed.

(** X22: [generate_summary] never divides by zero.  The buy and sell
    counts together are at most the number of rows, and each is positive
    exactly when a row has that signal; an average confidence is 0 when no
    row has the signal.  The maximum volume is at least every volume that
    counts (one that is there and not zero) and is one of them when there
    is any; the maximum price change is at least the magnitude of every
    price change that counts and is never negative; when no row has a
    volume, or a price change, that counts, the average and the maximum
    are 0. *)
Theorem generate_summary_spec (now : Q) (processed_data : list D) :
  exists s,
    generate_summary get_signal get_confidence get_volume_24h get_price_change_24h
                     now processed_data = Ok s /\
    total_symbols s = length processed_data /\
    (buy_signals s + sell_signals s <= total_symbols s)%nat /\
    ((0 < buy_signals s)%nat <->
     exists d, d ∈ processed_data /\ get_signal d = buy) /\
    ((0 < sell_signals s)%nat <->
     exists d, d ∈ processed_data /\ get_signal d = sell) /\
    (buy_signals s = 0%nat -> buy_confidence_avg s = 0) /\
    (sell_signals s = 0%nat -> sell_confidence_avg s = 0) /\
    (forall d v, d ∈ processed_data -> truthy (get_volume_24h d) = Some v ->
                 v <= max_volume s) /\
    ((exists d v, d ∈ processed_data /\ truthy (get_volume_24h d) = Some v) ->
     exists d, d ∈ processed_data /\
               truthy (get_volume_24h d) = Some (max_volume s)) /\
    (forall d p, d ∈ processed_data -> truthy (get_price_change_24h d) = Some p ->
                 Qabs p <= max_price_change s) /\
    0 <= max_price_change s /\
    (Forall (fun d => truthy (get_volume_24h d) = None) processed_data ->
     avg_volume s = 0 /\ max_volume s = 0) /\
    (Forall (fun d => truthy (get_price_change_24h d) = None) processed_data ->
     avg_price_change s = 0 /\ max_price_change s = 0).
Proof.
  destruct (generate_summary_facts now processed_data)
    as (s & Hs & Htotal & Hcounts & Hbpos & Hspos & Hb0 & Hs0 & _ & _
        & Hmaxv & Hmaxin & Hmaxp & Hnonneg & Hnov & Hnop).
  exists s. auto 15.
Qed.
End Summary.

End RankingFacts.

(** ** From the reports to the ranking and the summary *)

Module ScreenFacts.
Import Num NumFacts Indicators SignalDetector DataProcessor.
Local Open Scope Q_scope.

Section Screen.
Variable sqrt : Q -> Q.
Variable now : Q.




End Screen.


End ScreenFacts.

(** ** The detector on binary64 rows *)

Module RowFacts.
Import Num SignalDetector RowDetector.
Local Open Scope float_scope.
#[local] Set Warnings "-inexact-float".

(** *** Reading a column *)

Lemma column_Ok i rows xs :
  column i rows = Ok xs <-> Forall2 (fun k x => float_at k i = Ok x) rows xs.
Proof.
  revert xs. induction rows as [|k rows IH]; intros xs; simpl.
  - split.
    + intros H. injection H as <-. constructor.
    + intros H. inversion H. reflexivity.
  - destruct (float_at k i) as [x|e] eqn:Ex; cbn [bind].
    + destruct (column i rows) as [ys|e] eqn:Ec; cbn [bind].
      * split.
        -- intros H. injection H as <-. constructor; [exact Ex|]. apply IH. reflexivity.
        -- intros H. inversion H as [|? y ? ys' Hy Hys]; subst.
           apply IH in Hys. congruence.
      * split; [discriminate|].
        intros H. inversion H as [|? y ? ys' Hy Hys]; subst.
        apply IH in Hys. discriminate.
    + split; [discriminate|].
      intros H. inversion H as [|? y ? ys' Hy Hys]; subst. congruence.
Qed.

Lemma column_length i rows xs :
  column i rows = Ok xs -> length xs = length rows.
Proof.
  intros H. apply column_Ok in H. symmetry. exact (Forall2_length _ _ _ H).
Qed.

(** A column is read from the first row on: it raises what the first row
    that cannot be read raises. *)
Lemma column_Raise i rows e :
  column i rows = Raise e <->
  exists before k after,
    rows = before ++ k :: after /\
    Forall (fun k' => exists x, float_at k' i = Ok x) before /\
    float_at k i = Raise e.
Proof.
  induction rows as [|k rows IH]; simpl.
  - split; [discriminate|]. intros (before & k & after & H & _).
    destruct before; discriminate.
  - destruct (float_at k i) as [x|e'] eqn:Ex; cbn [bind].
    + destruct (column i rows) as [ys|e'] eqn:Ec; cbn [bind].
      * split; [discriminate|].
        intros (before & k' & after & Hrows & Hbefore & Hk).
        destruct before as [|b before].
        -- injection Hrows as -> ->. congruence.
        -- injection Hrows as -> ->. inversion Hbefore; subst.
           assert (Ok ys = Raise e) as Habs; [|discriminate].
           apply IH. eauto 6.
      * split.
        -- intros H. injection H as ->.
           destruct (proj1 IH eq_refl) as (before & k' & after & -> & Hbefore & Hk).
           exists (k :: before), k', after. split; [reflexivity|].
           split; [constructor; eauto|exact Hk].
        -- intros (before & k' & after & Hrows & Hbefore & Hk).
           destruct before as [|b before].
           ++ injection Hrows as -> ->. congruence.
           ++ injection Hrows as -> ->. inversion Hbefore; subst.
              apply IH. eauto 6.
    + split.
      * intros H. injection H as ->. exists [], k, rows. auto.
      * intros (before & k' & after & Hrows & Hbefore & Hk).
        destruct before as [|b before].
        -- injection Hrows as -> ->. congruence.
        -- injection Hrows as -> ->. inversion Hbefore as [|? ? [x Hx] _]; subst.
           congruence.
Qed.

(** *** Shapes *)

Lemma increasing_floats_cons x y rest :
  strictly_increasing (x :: y :: rest) <->
  (x <? y) = true /\ strictly_increasing (y :: rest).
Proof.
  split.
  - intros H. split.
    + apply (H 0%nat); reflexivity.
    + intros i a b Ha Hb. apply (H (S i)); assumption.
  - intros [Hxy H] [|i] a b Ha Hb.
    + simpl in Ha, Hb. congruence.
    + apply (H i); assumption.
Qed.

Lemma decreasing_floats_cons x y rest :
  strictly_decreasing (x :: y :: rest) <->
  (y <? x) = true /\ strictly_decreasing (y :: rest).
Proof.
  split.
  - intros H. split.
    + apply (H 0%nat); reflexivity.
    + intros i a b Ha Hb. apply (H (S i)); assumption.
  - intros [Hxy H] [|i] a b Ha Hb.
    + simpl in Ha, Hb. congruence.
    + apply (H i); assumption.
Qed.

Lemma is_strictly_increasing_floats values :
  _is_strictly_increasing values = true <-> strictly_increasing values.
Proof.
  induction values as [|x [|y rest] IH].
  - split; [|reflexivity]. intros _ i a b Ha. discriminate.
  - split; [|reflexivity]. intros _ [|i] a b Ha Hb; discriminate.
  - rewrite increasing_floats_cons, <- IH.
    change (_is_strictly_increasing (x :: y :: rest))
      with ((x <? y) && _is_strictly_increasing (y :: rest)).
    apply andb_true_iff.
Qed.

Lemma is_strictly_decreasing_floats values :
  _is_strictly_decreasing values = true <-> strictly_decreasing values.
Proof.
  induction values as [|x [|y rest] IH].
  - split; [|reflexivity]. intros _ i a b Ha. discriminate.
  - split; [|reflexivity]. intros _ [|i] a b Ha Hb; discriminate.
  - rewrite decreasing_floats_cons, <- IH.
    change (_is_strictly_decreasing (x :: y :: rest))
      with ((y <? x) && _is_strictly_decreasing (y :: rest)).
    apply andb_true_iff.
Qed.

(** *** The decision *)

Lemma confidence_returns change threshold :
  (threshold =? 0) = false ->
  exists c, _calculate_confidence change threshold = Ok c.
Proof.
  intros Ht. unfold _calculate_confidence.
  destruct (change <=? threshold); [eauto|].
  unfold fdiv. rewrite Ht. cbn [bind]. eauto.
Qed.

(** The result on a window whose cells can be read and whose first close
    is not zero: the signal and the confidence are decided by the change
    the code computes and by the three shapes. *)
Lemma detect_signal_window self klines lows closes highs start_close :
  (lookback_periods self <= length klines)%nat ->
  column 3 (window self klines) = Ok lows ->
  column 4 (window self klines) = Ok closes ->
  column 2 (window self klines) = Ok highs ->
  head closes = Some start_close -> (start_close =? 0) = false ->
  detect_signal self klines
  = let* sc :=
      if (change_threshold self <? window_change closes)
         && _is_strictly_increasing lows && _is_strictly_increasing closes
         && _is_strictly_increasing highs
      then let* c := _calculate_confidence (window_change closes)
                                           (change_threshold self) in
           Ok (buy, c)
      else if (window_change closes <? - change_threshold self)
              && _is_strictly_decreasing lows && _is_strictly_decreasing closes
              && _is_strictly_decreasing highs
      then let* c := _calculate_confidence (abs (window_change closes))
                                           (change_threshold self) in
           Ok (sell, c)
      else Ok (none, 0) in
    Ok {| signal := sc.1;
          confidence := sc.2;
          cumulative_change := window_change closes;
          details := Some
            {| low_sequence := sequence_of (_is_strictly_increasing lows)
                                            (_is_strictly_decreasing lows);
               close_sequence := sequence_of (_is_strictly_increasing closes)
                                              (_is_strictly_decreasing closes);
               high_sequence := sequence_of (_is_strictly_increasing highs)
                                             (_is_strictly_decreasing highs);
               details_lookback_periods := lookback_periods self;
               details_change_threshold := change_threshold self |} |}.
Proof.
  intros Hlen Hlows Hcloses Hhighs Hhead Hstart. unfold detect_signal.
  destruct (Nat.ltb_spec (length klines) (lookback_periods self)); [lia|].
  fold (window self klines). rewrite Hlows, Hcloses, Hhighs. cbn [bind].
  destruct closes as [|c closes]; [discriminate|].
  injection Hhead as ->.
  change (index (start_close :: closes) 0) with (Ok start_close).
  unfold index_last, window_change.
  destruct (last (start_close :: closes)) as [end_close|] eqn:El.
  2:{ apply last_None in El. discriminate. }
  cbn [bind head]. unfold fdiv. rewrite Hstart. cbn [bind]. reflexivity.
Qed.

Lemma buy_test_rows threshold change lows closes highs :
  (threshold <? change) && _is_strictly_increasing lows
  && _is_strictly_increasing closes && _is_strictly_increasing highs = true <->
  (threshold <? change) = true /\ strictly_increasing lows /\
  strictly_increasing closes /\ strictly_increasing highs.
Proof.
  rewrite !andb_true_iff, !is_strictly_increasing_floats. tauto.
Qed.

Lemma sell_test_rows threshold change lows closes highs :
  (change <? - threshold) && _is_strictly_decreasing lows
  && _is_strictly_decreasing closes && _is_strictly_decreasing highs = true <->
  (change <? - threshold) = true /\ strictly_decreasing lows /\
  strictly_decreasing closes /\ strictly_decreasing highs.
Proof.
  rewrite !andb_true_iff, !is_strictly_decreasing_floats. tauto.
Qed.

(** On a readable window with a non-zero first close and a non-zero
    threshold the detection returns, with the signal of the first test
    that holds. *)
Lemma detect_signal_decides self klines lows closes highs start_close :
  (change_threshold self =? 0) = false ->
  (lookback_periods self <= length klines)%nat ->
  column 3 (window self klines) = Ok lows ->
  column 4 (window self klines) = Ok closes ->
  column 2 (window self klines) = Ok highs ->
  head closes = Some start_close -> (start_close =? 0) = false ->
  exists r,
    detect_signal self klines = Ok r /\
    cumulative_change r = window_change closes /\
    ((signal r = buy /\
      (change_threshold self <? window_change closes)
      && _is_strictly_increasing lows && _is_strictly_increasing closes
      && _is_strictly_increasing highs = true /\
      _calculate_confidence (window_change closes) (change_threshold self)
      = Ok (confidence r)) \/
     (signal r = sell /\
      (change_threshold self <? window_change closes)
      && _is_strictly_increasing lows && _is_strictly_increasing closes
      && _is_strictly_increasing highs = false /\
      (window_change closes <? - change_threshold self)
      && _is_strictly_decreasing lows && _is_strictly_decreasing closes
      && _is_strictly_decreasing highs = true /\
      _calculate_confidence (abs (window_change closes)) (change_threshold self)
      = Ok (confidence r)) \/
     (signal r = none /\ confidence r = 0 /\
      (change_threshold self <? window_change closes)
      && _is_strictly_increasing lows && _is_strictly_increasing closes
      && _is_strictly_increasing highs = false /\
      (window_change closes <? - change_threshold self)
      && _is_strictly_decreasing lows && _is_strictly_decreasing closes
      && _is_strictly_decreasing highs = false)).
Proof.
  intros Ht Hlen Hlows Hcloses Hhighs Hhead Hstart.
  rewrite (detect_signal_window _ _ _ _ _ _ Hlen Hlows Hcloses Hhighs Hhead Hstart).
  destruct ((change_threshold self <? window_change closes) && _ && _ && _) eqn:Eb.
  - destruct (confidence_returns (window_change closes) _ Ht) as [c Hc].
    rewrite Hc. cbn [bind]. eexists. split; [reflexivity|]. cbn.
    split; [reflexivity|]. left. auto.
  - destruct ((window_change closes <? - change_threshold self) && _ && _ && _) eqn:Es.
    + destruct (confidence_returns (abs (window_change closes)) _ Ht)
        as [c Hc].
      rewrite Hc. cbn [bind]. eexists. split; [reflexivity|]. cbn.
      split; [reflexivity|]. right. left. auto.
    + cbn [bind]. eexists. split; [reflexivity|]. cbn.
      split; [reflexivity|]. right. right. auto.
Qed.

(** C2, on a window whose cells can be read and with the threshold taken
    non-zero: whenever the first close of the trailing window is not zero,
    [detect_signal] returns, its cumulative change is the change the code
    computes from the first and the last close, and it returns [buy]
    exactly when that change exceeds the threshold and the lows, the
    closes and the highs are each strictly increasing.  In particular
    three rows closing at 100, 101 and 102 with strictly increasing lows
    and highs, a lookback of 3 and a threshold of 0.1 give [buy], a
    cumulative change of 2.0 and a confidence of 1.0. *)
Theorem detect_signal_buy :
  (forall self klines lows closes highs start_close,
      (change_threshold self =? 0) = false ->
      (lookback_periods self <= length klines)%nat ->
      column 3 (window self klines) = Ok lows ->
      column 4 (window self klines) = Ok closes ->
      column 2 (window self klines) = Ok highs ->
      head closes = Some start_close -> (start_close =? 0) = false ->
      exists r, detect_signal self klines = Ok r /\
                cumulative_change r = window_change closes /\
                (signal r = buy <->
                 (change_threshold self <? window_change closes) = true /\
                 strictly_increasing lows /\ strictly_increasing closes /\
                 strictly_increasing highs) /\
                (signal r = buy ->
                 _calculate_confidence (window_change closes) (change_threshold self)
                 = Ok (confidence r))) /\
  (forall k1 k2 k3 l1 l2 l3 h1 h2 h3,
      float_at k1 4 = Ok 100 -> float_at k2 4 = Ok 101 -> float_at k3 4 = Ok 102 ->
      float_at k1 3 = Ok l1 -> float_at k2 3 = Ok l2 -> float_at k3 3 = Ok l3 ->
      float_at k1 2 = Ok h1 -> float_at k2 2 = Ok h2 -> float_at k3 2 = Ok h3 ->
      (l1 <? l2) = true -> (l2 <? l3) = true ->
      (h1 <? h2) = true -> (h2 <? h3) = true ->
      exists r, detect_signal {| lookback_periods := 3; change_threshold := 0.1 |}
                              [k1; k2; k3] = Ok r /\
                signal r = buy /\ cumulative_change r = 2 /\ confidence r = 1).
Proof.
  split.
  - intros self klines lows closes highs start_close Ht Hlen Hl Hc Hh Hhead Hstart.
    destruct (detect_signal_decides _ _ _ _ _ _ Ht Hlen Hl Hc Hh Hhead Hstart)
      as (r & Hr & Hcum & Hcase).
    exists r. split; [exact Hr|]. split; [exact Hcum|].
    destruct Hcase as [(Hs & Hb & Hconf)|[(Hs & Hb & _)|(Hs & _ & Hb & _)]].
    + split; [|intros _; exact Hconf].
      split; [intros _; apply buy_test_rows, Hb|intros _; exact Hs].
    + split; [|congruence]. split; [congruence|].
      intros Hpat. apply buy_test_rows in Hpat. congruence.
    + split; [|congruence]. split; [congruence|].
      intros Hpat. apply buy_test_rows in Hpat. congruence.
  - intros k1 k2 k3 l1 l2 l3 h1 h2 h3 C1 C2 C3 L1 L2 L3 H1 H2 H3 Hl12 Hl23 Hh12 Hh23.
    rewrite (detect_signal_window
               {| lookback_periods := 3; change_threshold := 0.1 |}
               [k1; k2; k3] [l1; l2; l3] [100; 101; 102] [h1; h2; h3] 100).
    + change (window_change [100; 101; 102]) with 2.
      cbn [_is_strictly_increasing change_threshold].
      rewrite Hl12, Hl23, Hh12, Hh23.
      eexists. split; [reflexivity|]. cbn. auto.
    + simpl. lia.
    + cbn. rewrite L1, L2, L3. reflexivity.
    + cbn. rewrite C1, C2, C3. reflexivity.
    + cbn. rewrite H1, H2, H3. reflexivity.
    + reflexivity.
    + reflexivity.
Qed.

(** The rising rows close at 100, 101 and 102: a buy.  The rows closing
    at 0.4691, 0.4693 and 0.4695691 rise by 0.1 percent on paper; the
    change the floats give is exactly the threshold 0.1, which it does not
    exceed: no buy. *)
Lemma detect_signal_buy_witness :
  (exists r,
      detect_signal {| lookback_periods := 3; change_threshold := 0.1 |}
                    [candle_row 99 100 101; candle_row 100 101 102;
                     candle_row 101 102 103] = Ok r /\
      signal r = buy /\ cumulative_change r = 2 /\ confidence r = 1) /\
  (exists r,
      detect_signal {| lookback_periods := 3; change_threshold := 0.1 |}
                    [candle_row 0.4690 0.4691 0.4692;
                     candle_row 0.4692 0.4693 0.4694;
                     candle_row 0.4694 0.4695691 0.4696] = Ok r /\
      cumulative_change r = 0.1 /\ signal r <> buy).
Proof.
  split.
  - apply (proj2 detect_signal_buy
                 (candle_row 99 100 101) (candle_row 100 101 102)
                 (candle_row 101 102 103) 99 100 101 101 102 103);
      reflexivity.
  - destruct (proj1 detect_signal_buy
                {| lookback_periods := 3; change_threshold := 0.1 |}
                [candle_row 0.4690 0.4691 0.4692;
                 candle_row 0.4692 0.4693 0.4694;
                 candle_row 0.4694 0.4695691 0.4696]
                [0.4690; 0.4692; 0.4694] [0.4691; 0.4693; 0.4695691]
                [0.4692; 0.4694; 0.4696] 0.4691)
      as (r & Hr & Hcum & Hbuy & _).
    + reflexivity.
    + simpl. lia.
    + reflexivity.
    + reflexivity.
    + reflexivity.
    + reflexivity.
    + reflexivity.
    + exists r. split; [exact Hr|]. split; [rewrite Hcum; reflexivity|].
      intros Hsig. apply Hbuy in Hsig. destruct Hsig as [Hgt _].
      discriminate Hgt.
Defined.

(** C2 as it is written fails at a zero threshold: the rising rows show
    the buy pattern, and [detect_signal] raises [ZeroDivisionError] (in
    [_calculate_confidence]) where it should return [buy]. *)
Lemma detect_signal_zero_threshold :
  let self := {| lookback_periods := 3; change_threshold := 0 |} in
  let klines := [candle_row 99 100 101; candle_row 100 101 102;
                 candle_row 101 102 103] in
  length (window self klines) = lookback_periods self /\
  column 3 (window self klines) = Ok [99; 100; 101] /\
  column 4 (window self klines) = Ok [100; 101; 102] /\
  column 2 (window self klines) = Ok [101; 102; 103] /\
  (100 =? 0) = false /\
  (change_threshold self <? window_change [100; 101; 102]) = true /\
  strictly_increasing [99; 100; 101] /\
  strictly_increasing [100; 101; 102] /\
  strictly_increasing [101; 102; 103] /\
  detect_signal self klines = Raise ZeroDivisionError /\
  ~ (exists r, detect_signal self klines = Ok r /\ signal r = buy).
Proof.
  intros self klines.
  assert (Hraise : detect_signal self klines = Raise ZeroDivisionError)
    by (vm_compute; reflexivity).
  repeat (split; [reflexivity|]).
  split; [apply is_strictly_increasing_floats; reflexivity|].
  split; [apply is_strictly_increasing_floats; reflexivity|].
  split; [apply is_strictly_increasing_floats; reflexivity|].
  split; [exact Hraise|].
  intros (r & Hr & _). rewrite Hraise in Hr. discriminate.
Qed.

(** *** Order of binary64 floats *)

Lemma SFcompare_Lt_Gt a b :
  SFcompare a b = Some Lt -> SFcompare b a = Some Gt.
Proof.
  destruct a as [sa|sa| |sa ma ea], b as [sb|sb| |sb mb eb]; simpl;
    try discriminate;
    try (destruct sa; try destruct sb; simpl; congruence).
  pose proof (Pos.compare_cont_antisym ma mb Eq) as Hm. cbn [CompOpp] in Hm.
  change PosDef.Pos.compare_cont with Pos.compare_cont.
  destruct sa, sb; try congruence;
    rewrite (Z.compare_antisym ea eb);
    (destruct (ea ?= eb)%Z; simpl; try congruence);
    rewrite <- Hm; destruct (Pos.compare_cont Eq ma mb); simpl; congruence.
Qed.

(** [x < y] and [y < x] never hold together. *)
Lemma ltb_asym x y : (x <? y) = true -> (y <? x) = false.
Proof.
  rewrite !FloatAxioms.ltb_spec. unfold SFltb.
  destruct (SFcompare (Prim2SF x) (Prim2SF y)) as [[]|] eqn:E; try discriminate.
  rewrite (SFcompare_Lt_Gt _ _ E). reflexivity.
Qed.

Lemma rising_not_falling values :
  (2 <= length values)%nat ->
  _is_strictly_increasing values = true -> _is_strictly_decreasing values = false.
Proof.
  destruct values as [|x [|y rest]]; simpl; try lia. intros _.
  destruct (x <? y) eqn:E; [|discriminate].
  rewrite (ltb_asym _ _ E). reflexivity.
Qed.

Lemma window_rows_length self (klines : list row) :
  (1 <= lookback_periods self)%nat ->
  (lookback_periods self <= length klines)%nat ->
  length (window self klines) = lookback_periods self.
Proof.
  intros H1 Hlen. unfold window, last_n.
  destruct (lookback_periods self) as [|n]; [lia|].
  rewrite length_drop. lia.
Qed.

(** X10: on a readable window with a non-zero first close and a non-zero
    threshold, [detect_signal] returns [sell] exactly when the buy test
    fails, the change the code computes is below minus the threshold and
    the lows, the closes and the highs are each strictly decreasing; with a
    lookback of at least 2 the buy test cannot hold together with these,
    and [sell] is returned exactly when they hold. *)
Theorem detect_signal_sell (self : detector) (klines : list row)
        (lows closes highs : list float) (start_close : float) :
  (change_threshold self =? 0) = false ->
  (lookback_periods self <= length klines)%nat ->
  column 3 (window self klines) = Ok lows ->
  column 4 (window self klines) = Ok closes ->
  column 2 (window self klines) = Ok highs ->
  head closes = Some start_close -> (start_close =? 0) = false ->
  exists r,
    detect_signal self klines = Ok r /\
    cumulative_change r = window_change closes /\
    (signal r = sell <->
     ~ ((change_threshold self <? window_change closes) = true /\
        strictly_increasing lows /\ strictly_increasing closes /\
        strictly_increasing highs) /\
     (window_change closes <? - change_threshold self) = true /\
     strictly_decreasing lows /\ strictly_decreasing closes /\
     strictly_decreasing highs) /\
    ((2 <= lookback_periods self)%nat ->
     (signal r = sell <->
      (window_change closes <? - change_threshold self) = true /\
      strictly_decreasing lows /\ strictly_decreasing closes /\
      strictly_decreasing highs)) /\
    (signal r = sell ->
     _calculate_confidence (abs (window_change closes)) (change_threshold self)
     = Ok (confidence r)).
Proof.
  intros Ht Hlen Hl Hc Hh Hhead Hstart.
  destruct (detect_signal_decides _ _ _ _ _ _ Ht Hlen Hl Hc Hh Hhead Hstart)
    as (r & Hr & Hcum & Hcase).
  exists r. split; [exact Hr|]. split; [exact Hcum|].
  assert (Hexcl : (2 <= lookback_periods self)%nat ->
            strictly_decreasing closes ->
            ~ ((change_threshold self <? window_change closes) = true /\
               strictly_increasing lows /\ strictly_increasing closes /\
               strictly_increasing highs)).
  { intros H2 Hdec (_ & _ & Hinc & _).
    apply is_strictly_increasing_floats in Hinc.
    apply is_strictly_decreasing_floats in Hdec.
    rewrite rising_not_falling in Hdec; [discriminate| |exact Hinc].
    rewrite (column_length _ _ _ Hc), window_rows_length; lia. }
  destruct Hcase as [(Hs & Hb & _)|[(Hs & Hb & Hsell & Hconf)|(Hs & _ & _ & Hsell)]].
  - apply buy_test_rows in Hb.
    split; [split; [congruence|tauto]|]. split; [|congruence].
    intros H2. split; [congruence|].
    intros (_ & _ & Hdec & _). exfalso. exact (Hexcl H2 Hdec Hb).
  - apply sell_test_rows in Hsell.
    assert (Hnb : ~ ((change_threshold self <? window_change closes) = true /\
                     strictly_increasing lows /\ strictly_increasing closes /\
                     strictly_increasing highs)).
    { intros Hpat. apply buy_test_rows in Hpat. congruence. }
    split; [tauto|]. split; [tauto|]. intros _. exact Hconf.
  - assert (Hns : ~ ((window_change closes <? - change_threshold self) = true /\
                     strictly_decreasing lows /\ strictly_decreasing closes /\
                     strictly_decreasing highs)).
    { intros Hpat. apply sell_test_rows in Hpat. congruence. }
    split; [split; [congruence|tauto]|]. split; [|congruence].
    intros _. split; [congruence|tauto].
Qed.

(** The falling rows close at 102, 101 and 100: a sell.  The rows closing
    at 0.4691, 0.4688 and 0.4686309 fall by 0.1 percent on paper; the
    change the floats give is exactly minus the threshold: no sell. *)
Lemma detect_signal_sell_witness :
  (exists r,
      detect_signal {| lookback_periods := 3; change_threshold := 0.1 |}
                    [candle_row 101 102 103; candle_row 100 101 102;
                     candle_row 99 100 101] = Ok r /\
      signal r = sell) /\
  (exists r,
      detect_signal {| lookback_periods := 3; change_threshold := 0.1 |}
                    [candle_row 0.4690 0.4691 0.4692;
                     candle_row 0.4687 0.4688 0.4689;
                     candle_row 0.4685 0.4686309 0.4687] = Ok r /\
      cumulative_change r = -0.1 /\ signal r <> sell).
Proof.
  split.
  - destruct (detect_signal_sell
                {| lookback_periods := 3; change_threshold := 0.1 |}
                [candle_row 101 102 103; candle_row 100 101 102;
                 candle_row 99 100 101]
                [101; 100; 99] [102; 101; 100] [103; 102; 101] 102)
      as (r & Hr & _ & _ & Hsell & _); try reflexivity.
    exists r. split; [exact Hr|].
    apply (proj2 (Hsell ltac:(simpl; lia))).
    split; [reflexivity|].
    repeat split; apply is_strictly_decreasing_floats; reflexivity.
  - destruct (detect_signal_sell
                {| lookback_periods := 3; change_threshold := 0.1 |}
                [candle_row 0.4690 0.4691 0.4692;
                 candle_row 0.4687 0.4688 0.4689;
                 candle_row 0.4685 0.4686309 0.4687]
                [0.4690; 0.4687; 0.4685] [0.4691; 0.4688; 0.4686309]
                [0.4692; 0.4689; 0.4687] 0.4691)
      as (r & Hr & Hcum & Hsell & _); try reflexivity.
    exists r. split; [exact Hr|]. split; [rewrite Hcum; reflexivity|].
    intros Hsig. apply Hsell in Hsig. destruct Hsig as (_ & Hlt & _).
    discriminate Hlt.
Defined.

(** *** Rows that cannot be read *)

Lemma float_at_raises k i e :
  float_at k i = Raise e -> e <> ZeroDivisionError.
Proof.
  intros H ->. revert H. unfold float_at, index.
  destruct (_ !! _) as [[f| |]|]; cbn; discriminate.
Qed.

Lemma column_Raise_elem i rows e :
  column i rows = Raise e -> exists k, k ∈ rows /\ float_at k i = Raise e.
Proof.
  intros H. apply column_Raise in H.
  destruct H as (before & k & after & -> & _ & Hk).
  exists k. split; [|exact Hk]. apply elem_of_app. right. left.
Qed.

Lemma column_well_formed i rows :
  (i = 3 \/ i = 4 \/ i = 2)%nat -> Forall well_formed rows ->
  exists xs, column i rows = Ok xs.
Proof.
  intros Hi. induction 1 as [|k rows (l & c & h & Hl & Hc & Hh) _ [xs IH]]; simpl.
  - eauto.
  - rewrite IH. destruct Hi as [->|[->| ->]].
    + rewrite Hl. cbn [bind]. eauto.
    + rewrite Hc. cbn [bind]. eauto.
    + rewrite Hh. cbn [bind]. eauto.
Qed.

Lemma columns_well_formed rows lows closes highs :
  column 3 rows = Ok lows -> column 4 rows = Ok closes ->
  column 2 rows = Ok highs -> Forall well_formed rows.
Proof.
  revert lows closes highs.
  induction rows as [|k rows IH]; intros lows closes highs; [constructor|].
  simpl.
  destruct (float_at k 3) as [l|] eqn:El; cbn [bind]; [|discriminate].
  destruct (column 3 rows) as [ls|]; cbn [bind]; [|discriminate].
  destruct (float_at k 4) as [c|] eqn:Ec; cbn [bind]; [|discriminate].
  destruct (column 4 rows) as [cs|]; cbn [bind]; [|discriminate].
  destruct (float_at k 2) as [h|] eqn:Eh; cbn [bind]; [|discriminate].
  destruct (column 2 rows) as [hs|]; cbn [bind]; [|discriminate].
  intros _ _ _. constructor.
  - exists l, c, h. auto.
  - eapply IH; reflexivity.
Qed.

Lemma column_head i k rows xs :
  column i (k :: rows) = Ok xs ->
  exists x, float_at k i = Ok x /\ head xs = Some x.
Proof.
  simpl. destruct (float_at k i) as [x|]; cbn [bind]; [|discriminate].
  destruct (column i rows); cbn [bind]; [|discriminate].
  intros H. injection H as <-. eauto.
Qed.

Lemma detect_signal_unreadable self klines :
  (lookback_periods self <= length klines)%nat ->
  (forall e, column 3 (window self klines) = Raise e ->
             detect_signal self klines = Raise e) /\
  (forall lows e,
      column 3 (window self klines) = Ok lows ->
      column 4 (window self klines) = Raise e ->
      detect_signal self klines = Raise e) /\
  (forall lows closes e,
      column 3 (window self klines) = Ok lows ->
      column 4 (window self klines) = Ok closes ->
      column 2 (window self klines) = Raise e ->
      detect_signal self klines = Raise e).
Proof.
  intros Hlen. unfold detect_signal.
  destruct (Nat.ltb_spec (length klines) (lookback_periods self)); [lia|].
  fold (window self klines).
  split; [|split].
  - intros e ->. reflexivity.
  - intros lows e -> ->. reflexivity.
  - intros lows closes e -> -> ->. reflexivity.
Qed.

Lemma detect_signal_zero_start self klines lows closes highs start_close :
  (lookback_periods self <= length klines)%nat ->
  column 3 (window self klines) = Ok lows ->
  column 4 (window self klines) = Ok closes ->
  column 2 (window self klines) = Ok highs ->
  head closes = Some start_close -> (start_close =? 0) = true ->
  detect_signal self klines = Raise ZeroDivisionError.
Proof.
  intros Hlen Hlows Hcloses Hhighs Hhead Hstart. unfold detect_signal.
  destruct (Nat.ltb_spec (length klines) (lookback_periods self)); [lia|].
  fold (window self klines). rewrite Hlows, Hcloses, Hhighs. cbn [bind].
  destruct closes as [|c closes]; [discriminate|].
  injection Hhead as ->.
  change (index (start_close :: closes) 0) with (Ok start_close).
  unfold index_last.
  destruct (last (start_close :: closes)) as [end_close|] eqn:El.
  2:{ apply last_None in El. discriminate. }
  cbn [bind]. unfold fdiv. rewrite Hstart. reflexivity.
Qed.

(** What [detect_signal] does on enough rows: it raises what the first
    unreadable cell of the window raises, or divides by a zero first
    close, or returns. *)
Lemma detect_signal_cases self klines :
  (1 <= lookback_periods self)%nat -> (change_threshold self =? 0) = false ->
  (lookback_periods self <= length klines)%nat ->
  (~ Forall well_formed (window self klines) /\
   exists e k, k ∈ window self klines /\
               (float_at k 3 = Raise e \/ float_at k 4 = Raise e \/
                float_at k 2 = Raise e) /\
               detect_signal self klines = Raise e) \/
  (Forall well_formed (window self klines) /\
   exists k c, head (window self klines) = Some k /\ float_at k 4 = Ok c /\
               (((c =? 0) = true /\
                 detect_signal self klines = Raise ZeroDivisionError) \/
                ((c =? 0) = false /\
                 exists r, detect_signal self klines = Ok r))).
Proof.
  intros Hlook Ht Hlen.
  destruct (detect_signal_unreadable self klines Hlen) as (Hr3 & Hr4 & Hr2).
  pose proof (window_rows_length self klines Hlook Hlen) as Hwlen.
  destruct (column 3 (window self klines)) as [lows|e] eqn:E3.
  2:{ left. split.
      - intros Hwf. destruct (column_well_formed 3 _ ltac:(auto) Hwf). congruence.
      - destruct (column_Raise_elem _ _ _ E3) as (k & Hk & Hraise). eauto 8. }
  destruct (column 4 (window self klines)) as [closes|e] eqn:E4.
  2:{ left. split.
      - intros Hwf. destruct (column_well_formed 4 _ ltac:(auto) Hwf). congruence.
      - destruct (column_Raise_elem _ _ _ E4) as (k & Hk & Hraise). eauto 8. }
  destruct (column 2 (window self klines)) as [highs|e] eqn:E2.
  2:{ left. split.
      - intros Hwf. destruct (column_well_formed 2 _ ltac:(auto) Hwf). congruence.
      - destruct (column_Raise_elem _ _ _ E2) as (k & Hk & Hraise). eauto 8. }
  right. split; [exact (columns_well_formed _ _ _ _ E3 E4 E2)|].
  destruct (window self klines) as [|k rest] eqn:Ew; [simpl in Hwlen; lia|].
  destruct (column_head _ _ _ _ E4) as (c & Hc & Hhead).
  exists k, c. split; [reflexivity|]. split; [exact Hc|].
  destruct (c =? 0) eqn:Ec.
  - left. split; [reflexivity|].
    apply (detect_signal_zero_start self klines lows closes highs c);
      rewrite ?Ew; assumption.
  - right. split; [reflexivity|].
    destruct (detect_signal_decides self klines lows closes highs c)
      as (r & Hr & _); rewrite ?Ew; try assumption.
    eauto.
Qed.

Lemma window_window self (klines : list row) :
  (lookback_periods self <= length klines)%nat ->
  window self (window self klines) = window self klines.
Proof.
  intros Hlen. unfold window, last_n.
  destruct (lookback_periods self) as [|n]; [reflexivity|].
  rewrite length_drop.
  replace (length klines - (length klines - S n) - S n)%nat with 0%nat by lia.
  reflexivity.
Qed.

(** X11: with a lookback of at least 1 and a non-zero threshold.  Fewer
    rows than the lookback: no row is read and the result is the empty
    one.  Otherwise only the rows of the trailing window are read;
    [detect_signal] returns exactly when the low, the close and the high
    of each of them can be read and the first close is not zero; it raises
    [ZeroDivisionError] exactly when they can be read and the first close
    is zero; and any other exception is the one [float(k[i])] raises on a
    row of the window, which happens as soon as one of them cannot be
    read. *)
Theorem detect_signal_raises (self : detector) (klines : list row) :
  (1 <= lookback_periods self)%nat -> (change_threshold self =? 0) = false ->
  ((length klines < lookback_periods self)%nat ->
   exists r, detect_signal self klines = Ok r /\
             signal r = none /\ details r = None) /\
  ((lookback_periods self <= length klines)%nat ->
   detect_signal self klines = detect_signal self (window self klines) /\
   ((exists r, detect_signal self klines = Ok r) <->
    Forall well_formed (window self klines) /\
    exists k c, head (window self klines) = Some k /\ float_at k 4 = Ok c /\
                (c =? 0) = false) /\
   (detect_signal self klines = Raise ZeroDivisionError <->
    Forall well_formed (window self klines) /\
    exists k c, head (window self klines) = Some k /\ float_at k 4 = Ok c /\
                (c =? 0) = true) /\
   (forall e,
       detect_signal self klines = Raise e -> e <> ZeroDivisionError ->
       exists k, k ∈ window self klines /\
                 (float_at k 3 = Raise e \/ float_at k 4 = Raise e \/
                  float_at k 2 = Raise e)) /\
   (~ Forall well_formed (window self klines) ->
    exists e, detect_signal self klines = Raise e /\ e <> ZeroDivisionError)).
Proof.
  intros Hlook Ht. split.
  - intros Hshort. unfold detect_signal.
    destruct (Nat.ltb_spec (length klines) (lookback_periods self)); [|lia].
    eexists. split; [reflexivity|]. split; reflexivity.
  - intros Hlen. split.
    { unfold detect_signal at 1 2.
      rewrite (window_rows_length self klines Hlook Hlen).
      destruct (Nat.ltb_spec (length klines) (lookback_periods self)); [lia|].
      rewrite Nat.ltb_irrefl.
      fold (window self klines). fold (window self (window self klines)).
      rewrite (window_window self klines Hlen). reflexivity. }
    destruct (detect_signal_cases self klines Hlook Ht Hlen)
      as [(Hbad & e & k & Hk & Hcell & Hraise)
         |(Hwf & k & c & Hhead & Hc & [(Hz & Hraise)|(Hnz & r & Hr)])].
    + assert (He : e <> ZeroDivisionError).
      { destruct Hcell as [H|[H|H]]; exact (float_at_raises _ _ _ H). }
      rewrite Hraise.
      split; [split; [intros [r Hr]; discriminate|tauto]|].
      split; [split; [intros H; congruence|tauto]|].
      split; [|eauto].
      intros e' He' _. injection He' as <-. eauto.
    + rewrite Hraise.
      split.
      { split; [intros [r Hr]; discriminate|].
        intros (_ & k' & c' & Hhead' & Hc' & Hnz). exfalso.
        rewrite Hhead in Hhead'. injection Hhead' as <-. congruence. }
      split; [split; [eauto 6|reflexivity]|].
      split; [intros e He Hne; congruence|tauto].
    + rewrite Hr.
      split; [split; [eauto 6|eauto]|].
      split.
      { split; [discriminate|].
        intros (_ & k' & c' & Hhead' & Hc' & Hz). exfalso.
        rewrite Hhead in Hhead'. injection Hhead' as <-. congruence. }
      split; [discriminate|tauto].
Qed.

(** Three rows: the window is the last two.  An unreadable first row does
    no harm; an unreadable close in the window raises [ValueError], a
    short row [IndexError], and a zero first close [ZeroDivisionError]. *)
Lemma detect_signal_raises_witness :
  (exists r,
      detect_signal {| lookback_periods := 2; change_threshold := 1 |}
                    [[Text]; candle_row 99 100 101; candle_row 100 101 102]
      = Ok r) /\
  detect_signal {| lookback_periods := 2; change_threshold := 1 |}
                [[Text]; candle_row 99 0 101; candle_row 100 101 102]
  = Raise ZeroDivisionError /\
  (exists e,
      detect_signal {| lookback_periods := 2; change_threshold := 1 |}
                    [candle_row 99 100 101; [Number 0; Number 1; Number 2];
                     candle_row 100 101 102] = Raise e /\
      e <> ZeroDivisionError).
Proof.
  split; [|split].
  - apply (proj2 (detect_signal_raises
                    {| lookback_periods := 2; change_threshold := 1 |}
                    [[Text]; candle_row 99 100 101; candle_row 100 101 102]
                    ltac:(simpl; lia) eq_refl) ltac:(simpl; lia)).
    change (window _ _) with [candle_row 99 100 101; candle_row 100 101 102].
    split.
    + apply Forall_cons_2; [exists 99, 100, 101; repeat split; reflexivity|].
      apply Forall_cons_2; [exists 100, 101, 102; repeat split; reflexivity|].
      apply Forall_nil_2.
    + exists (candle_row 99 100 101), 100. repeat split; reflexivity.
  - apply (proj2 (detect_signal_raises
                    {| lookback_periods := 2; change_threshold := 1 |}
                    [[Text]; candle_row 99 0 101; candle_row 100 101 102]
                    ltac:(simpl; lia) eq_refl) ltac:(simpl; lia)).
    change (window _ _) with [candle_row 99 0 101; candle_row 100 101 102].
    split.
    + apply Forall_cons_2; [exists 99, 0, 101; repeat split; reflexivity|].
      apply Forall_cons_2; [exists 100, 101, 102; repeat split; reflexivity|].
      apply Forall_nil_2.
    + exists (candle_row 99 0 101), 0. repeat split; reflexivity.
  - apply (proj2 (detect_signal_raises
                    {| lookback_periods := 2; change_threshold := 1 |}
                    [candle_row 99 100 101; [Number 0; Number 1; Number 2];
                     candle_row 100 101 102]
                    ltac:(simpl; lia) eq_refl) ltac:(simpl; lia)).
    change (window _ _) with [[Number 0; Number 1; Number 2]; candle_row 100 101 102].
    intros Hwf. inversion Hwf as [|? ? (l & c & h & Hl & _) _]; subst.
    discriminate Hl.
Defined.

End RowFacts.
